(** * awn-data-api: conversion, aggregation, broadcast and collection loop

    A shallow embedding of the collection-and-aggregation pipeline of the
    service ([app/converter.py], [app/collector.py], [app/broadcast.py],
    [main.py]) and the properties its specification states about it.

    Python values are modelled by the inductive [PyVal]; a [dict] is an
    association list in insertion order; exceptions are the [Raise] case of
    [result]; a [float] is an IEEE binary64 number (Rocq's primitive floats),
    an [int] an unbounded [Z]. *)

From Stdlib Require Import ZArith List String Bool Lia.
From Stdlib Require Import PrimFloat SpecFloat FloatOps FloatAxioms.
Import ListNotations.

Set Warnings "-inexact-float,-register-all".

Local Open Scope string_scope.
Local Open Scope list_scope.
Local Open Scope Z_scope.

(** ** Python values, exceptions and the numeric operators *)

Module Py.

Inductive exn : Type :=
| OverflowError
| ZeroDivisionError
| TypeError
| ValueError
| AttributeError
| JSONDecodeError
| MultipleResultsFound
| IntegrityError
| StatementError
| QueueFull
| HTTPStatusError (status_code : Z)
| RequestError.

Inductive result (A : Type) : Type :=
| Ok (a : A)
| Raise (e : exn).
Arguments Ok {A} a.
Arguments Raise {A} e.

Definition bind {A B} (r : result A) (k : A -> result B) : result B :=
  match r with
  | Ok a => k a
  | Raise e => Raise e
  end.

Notation "x <- c1 ;; c2" := (bind c1 (fun x => c2))
  (at level 61, c1 at next level, right associativity).

(** [for x in xs: s = body(s, x)], stopping at the first exception. *)
Fixpoint for_each {A S} (body : S -> A -> result S) (xs : list A) (s : S)
  : result S :=
  match xs with
  | [] => Ok s
  | x :: xs' => s' <- body s x ;; for_each body xs' s'
  end.

Inductive PyVal : Type :=
| VNone
| VBool (b : bool)
| VInt (z : Z)
| VFloat (f : float)
| VStr (s : string)
| VList (l : list PyVal)
| VDict (d : list (string * PyVal)).

(** A [dict] with string keys, in insertion order. *)
Definition dict : Type := list (string * PyVal).

Section Dict.
Context {V : Type}.

Fixpoint dict_get (k : string) (d : list (string * V)) : option V :=
  match d with
  | [] => None
  | (k', v) :: d' => if String.eqb k k' then Some v else dict_get k d'
  end.

(** [d[k] = v]: an existing key keeps its position, a new one goes last. *)
Fixpoint dict_set (k : string) (v : V) (d : list (string * V))
  : list (string * V) :=
  match d with
  | [] => [(k, v)]
  | (k', v') :: d' =>
      if String.eqb k k' then (k, v) :: d' else (k', v') :: dict_set k v d'
  end.

Definition dict_keys (d : list (string * V)) : list string := map fst d.
End Dict.

(** [k in s] for a set of strings. *)
Definition set_mem (k : string) (s : list string) : bool :=
  existsb (String.eqb k) s.

(** [isinstance(v, (int, float))]; [bool] is a subclass of [int]. *)
Definition is_int_or_float (v : PyVal) : bool :=
  match v with
  | VBool _ | VInt _ | VFloat _ => true
  | _ => false
  end.

(** The two shapes a numeric operand takes in an arithmetic operator. *)
Inductive num : Type :=
| NInt (z : Z)
| NFloat (f : float).

Definition as_num (v : PyVal) : result num :=
  match v with
  | VBool b => Ok (NInt (if b then 1 else 0))
  | VInt z => Ok (NInt z)
  | VFloat f => Ok (NFloat f)
  | _ => Raise TypeError
  end.

(** Integers that round (to nearest, ties to even) to a finite binary64:
    those below the midpoint of the largest finite value and [2^1024]. *)
Definition float_max_int : Z := 2 ^ 1024 - 2 ^ 970.

(** The binary64 nearest to an integer, ties to even. *)
Definition nearest_float (z : Z) : float :=
  SF2Prim (binary_normalize prec emax z 0 false).

(** [float(z)]: correctly rounded, [OverflowError] beyond the range. *)
Definition float_of_int (z : Z) : result float :=
  if Z.abs z <? float_max_int then Ok (nearest_float z)
  else Raise OverflowError.

Definition to_float (n : num) : result float :=
  match n with
  | NInt z => float_of_int z
  | NFloat f => Ok f
  end.

(** An arithmetic operator that is exact on two ints and otherwise works on
    the operands converted to float. *)
Definition arith (iop : Z -> Z -> Z) (fop : float -> float -> float)
  (a b : PyVal) : result PyVal :=
  x <- as_num a ;;
  y <- as_num b ;;
  match x, y with
  | NInt i, NInt j => Ok (VInt (iop i j))
  | _, _ =>
      f <- to_float x ;;
      g <- to_float y ;;
      Ok (VFloat (fop f g))
  end.

Definition py_add : PyVal -> PyVal -> result PyVal := arith Z.add PrimFloat.add.
Definition py_sub : PyVal -> PyVal -> result PyVal := arith Z.sub PrimFloat.sub.
Definition py_mul : PyVal -> PyVal -> result PyVal := arith Z.mul PrimFloat.mul.

(** The exact quotient of two nonzero integers, rounded once. *)
Definition int_quotient (i j : Z) : float :=
  match i, j with
  | Z0, _ => 0%float
  | _, Z0 => nan
  | _, _ =>
      SF2Prim (SFdiv prec emax
                 (S754_finite (i <? 0) (Z.to_pos (Z.abs i)) 0)
                 (S754_finite (j <? 0) (Z.to_pos (Z.abs j)) 0))
  end.

(** [y == 0] for a divisor; a nonzero int never converts to a zero float. *)
Definition num_is_zero (y : num) : bool :=
  match y with
  | NInt j => j =? 0
  | NFloat g => (g =? 0)%float
  end.

(** [a / b]: true division. *)
Definition py_truediv (a b : PyVal) : result PyVal :=
  x <- as_num a ;;
  y <- as_num b ;;
  match x, y with
  | NInt i, NInt j =>
      if j =? 0 then Raise ZeroDivisionError
      else if Z.abs i <? float_max_int * Z.abs j
           then Ok (VFloat (int_quotient i j))
           else Raise OverflowError
  | _, _ =>
      f <- to_float x ;;
      g <- to_float y ;;
      if num_is_zero y then Raise ZeroDivisionError
      else Ok (VFloat (f / g)%float)
  end.

(** The integer nearest to [m * 2^e], ties to even. *)
Definition round_half_even (m e : Z) : Z :=
  if 0 <=? e then m * 2 ^ e
  else
    let d := 2 ^ (- e) in
    let q := m / d in
    let r := m mod d in
    match 2 * r ?= d with
    | Lt => q
    | Gt => q + 1
    | Eq => if Z.even q then q else q + 1
    end.

(** [round(x, 2)] on a float: the exact value of [x] is rounded to two
    decimals (ties to even) and the decimal read back as the nearest float;
    zeros, infinities and nan round to themselves. *)
Definition round2_float (x : float) : float :=
  match Prim2SF x with
  | S754_finite s m e =>
      match round_half_even (Z.pos m * 100) e with
      | Z.pos n =>
          SF2Prim (SFdiv prec emax (S754_finite s n 0) (S754_finite false 100 0))
      | _ => SF2Prim (S754_zero s)
      end
  | _ => x
  end.

(** [round(v, 2)]: an int (or bool) is returned as the int it is. *)
Definition py_round2 (v : PyVal) : result PyVal :=
  x <- as_num v ;;
  match x with
  | NInt z => Ok (VInt z)
  | NFloat f => Ok (VFloat (round2_float f))
  end.

(** The exact order of a float and an int; [None] when the float is nan. *)
Definition compare_float_int (f : float) (z : Z) : option comparison :=
  match Prim2SF f with
  | S754_nan => None
  | S754_infinity s => Some (if s then Lt else Gt)
  | S754_zero _ => Some (0 ?= z)
  | S754_finite s m e =>
      let v := if s then Z.neg m else Z.pos m in
      if 0 <=? e then Some (v * 2 ^ e ?= z) else Some (v ?= z * 2 ^ (- e))
  end.

Definition num_lt (x y : num) : bool :=
  match x, y with
  | NInt i, NInt j => i <? j
  | NFloat f, NFloat g => (f <? g)%float
  | NFloat f, NInt j =>
      match compare_float_int f j with Some Lt => true | _ => false end
  | NInt i, NFloat g =>
      match compare_float_int g i with Some Gt => true | _ => false end
  end.

(** [a < b] and [a > b] on numbers. *)
Definition py_lt (a b : PyVal) : result bool :=
  x <- as_num a ;; y <- as_num b ;; Ok (num_lt x y).

Definition py_gt (a b : PyVal) : result bool := py_lt b a.

(** [min(values)] and [max(values)]: the first item that no later item
    beats; [ValueError] on an empty list. *)
Definition pick (better : PyVal -> PyVal -> result bool)
  (current item : PyVal) : result PyVal :=
  b <- better item current ;; Ok (if b then item else current).

Definition py_min (values : list PyVal) : result PyVal :=
  match values with
  | [] => Raise ValueError
  | v :: rest => for_each (pick py_lt) rest v
  end.

Definition py_max (values : list PyVal) : result PyVal :=
  match values with
  | [] => Raise ValueError
  | v :: rest => for_each (pick py_gt) rest v
  end.

(** [sum(values)]: the items added from the left to the int 0.  (CPython
    3.12 and later add floats with a compensated sum, whose last bits can
    differ from this one.) *)
Definition py_sum (values : list PyVal) : result PyVal :=
  for_each py_add values (VInt 0).

Definition py_len {A} (l : list A) : Z := Z.of_nat (List.length l).

End Py.

(** ** The converter ([app/converter.py]) *)

Module Converter.
Import Py.

Definition fahrenheit_to_celsius (f : PyVal) : result PyVal :=
  a <- py_sub f (VInt 32) ;;
  b <- py_mul a (VInt 5) ;;
  c <- py_truediv b (VInt 9) ;;
  py_round2 c.

Definition mph_to_kmh (mph : PyVal) : result PyVal :=
  a <- py_mul mph (VFloat 1.60934) ;;
  py_round2 a.

Definition inhg_to_hpa (inhg : PyVal) : result PyVal :=
  a <- py_mul inhg (VFloat 33.8639) ;;
  py_round2 a.

Definition inches_to_mm (inches : PyVal) : result PyVal :=
  a <- py_mul inches (VFloat 25.4) ;;
  py_round2 a.

(** [original_field -> (metric_field_name, conversion_function_or_None)] *)
Definition FIELD_CONVERSIONS
  : list (string * (string * option (PyVal -> result PyVal))) :=
  [
    ("tempf", ("temp_c", Some fahrenheit_to_celsius));
    ("tempinf", ("temp_in_c", Some fahrenheit_to_celsius));
    ("temp1f", ("temp1_c", Some fahrenheit_to_celsius));
    ("temp2f", ("temp2_c", Some fahrenheit_to_celsius));
    ("temp3f", ("temp3_c", Some fahrenheit_to_celsius));
    ("temp4f", ("temp4_c", Some fahrenheit_to_celsius));
    ("temp5f", ("temp5_c", Some fahrenheit_to_celsius));
    ("temp6f", ("temp6_c", Some fahrenheit_to_celsius));
    ("temp7f", ("temp7_c", Some fahrenheit_to_celsius));
    ("temp8f", ("temp8_c", Some fahrenheit_to_celsius));
    ("temp9f", ("temp9_c", Some fahrenheit_to_celsius));
    ("temp10f", ("temp10_c", Some fahrenheit_to_celsius));
    ("feelsLike", ("feels_like_c", Some fahrenheit_to_celsius));
    ("feelsLikein", ("feels_like_in_c", Some fahrenheit_to_celsius));
    ("feelsLike1", ("feels_like1_c", Some fahrenheit_to_celsius));
    ("feelsLike2", ("feels_like2_c", Some fahrenheit_to_celsius));
    ("feelsLike3", ("feels_like3_c", Some fahrenheit_to_celsius));
    ("feelsLike4", ("feels_like4_c", Some fahrenheit_to_celsius));
    ("feelsLike5", ("feels_like5_c", Some fahrenheit_to_celsius));
    ("feelsLike6", ("feels_like6_c", Some fahrenheit_to_celsius));
    ("feelsLike7", ("feels_like7_c", Some fahrenheit_to_celsius));
    ("feelsLike8", ("feels_like8_c", Some fahrenheit_to_celsius));
    ("feelsLike9", ("feels_like9_c", Some fahrenheit_to_celsius));
    ("feelsLike10", ("feels_like10_c", Some fahrenheit_to_celsius));
    ("dewPoint", ("dew_point_c", Some fahrenheit_to_celsius));
    ("dewPointin", ("dew_point_in_c", Some fahrenheit_to_celsius));
    ("dewPoint1", ("dew_point1_c", Some fahrenheit_to_celsius));
    ("dewPoint2", ("dew_point2_c", Some fahrenheit_to_celsius));
    ("dewPoint3", ("dew_point3_c", Some fahrenheit_to_celsius));
    ("dewPoint4", ("dew_point4_c", Some fahrenheit_to_celsius));
    ("dewPoint5", ("dew_point5_c", Some fahrenheit_to_celsius));
    ("dewPoint6", ("dew_point6_c", Some fahrenheit_to_celsius));
    ("dewPoint7", ("dew_point7_c", Some fahrenheit_to_celsius));
    ("dewPoint8", ("dew_point8_c", Some fahrenheit_to_celsius));
    ("dewPoint9", ("dew_point9_c", Some fahrenheit_to_celsius));
    ("dewPoint10", ("dew_point10_c", Some fahrenheit_to_celsius));
    ("windspeedmph", ("wind_speed_kmh", Some mph_to_kmh));
    ("windgustmph", ("wind_gust_kmh", Some mph_to_kmh));
    ("maxdailygust", ("max_daily_gust_kmh", Some mph_to_kmh));
    ("windspdmph_avg2m", ("wind_speed_avg_2m_kmh", Some mph_to_kmh));
    ("windspdmph_avg10m", ("wind_speed_avg_10m_kmh", Some mph_to_kmh));
    ("baromrelin", ("barom_rel_hpa", Some inhg_to_hpa));
    ("baromabsin", ("barom_abs_hpa", Some inhg_to_hpa));
    ("hourlyrainin", ("hourly_rain_mm", Some inches_to_mm));
    ("dailyrainin", ("daily_rain_mm", Some inches_to_mm));
    ("weeklyrainin", ("weekly_rain_mm", Some inches_to_mm));
    ("monthlyrainin", ("monthly_rain_mm", Some inches_to_mm));
    ("yearlyrainin", ("yearly_rain_mm", Some inches_to_mm));
    ("eventrainin", ("event_rain_mm", Some inches_to_mm));
    ("totalrainin", ("total_rain_mm", Some inches_to_mm));
    ("24hourrainin", ("rain_24h_mm", Some inches_to_mm));
    ("humidity", ("humidity", None));
    ("humidityin", ("humidity_in", None));
    ("humidity1", ("humidity1", None));
    ("humidity2", ("humidity2", None));
    ("humidity3", ("humidity3", None));
    ("humidity4", ("humidity4", None));
    ("humidity5", ("humidity5", None));
    ("humidity6", ("humidity6", None));
    ("humidity7", ("humidity7", None));
    ("humidity8", ("humidity8", None));
    ("humidity9", ("humidity9", None));
    ("humidity10", ("humidity10", None));
    ("winddir", ("wind_dir", None));
    ("windgustdir", ("wind_gust_dir", None));
    ("winddir_avg2m", ("wind_dir_avg_2m", None));
    ("winddir_avg10m", ("wind_dir_avg_10m", None));
    ("uv", ("uv", None));
    ("solarradiation", ("solar_radiation", None));
    ("date", ("date", None));
    ("dateutc", ("date_utc", None));
    ("tz", ("tz", None))
  ].

(** Fields excluded from the converted output (metadata, not sensor data). *)
Definition EXCLUDED_FIELDS : list string :=
  ["macAddress"; "device"; "loc"; "lastRain"].

(** Metric names not eligible for aggregation. *)
Definition NON_NUMERIC_FIELDS : list string := ["date"; "date_utc"; "tz"].

(** The body of the loop of [convert_reading] for one item of [raw_data]. *)
Definition convert_item (converted : dict) (item : string * PyVal)
  : result dict :=
  let '(key, value) := item in
  if set_mem key EXCLUDED_FIELDS then Ok converted
  else
    match dict_get key FIELD_CONVERSIONS with
    | Some (metric_key, converter_fn) =>
        match converter_fn with
        | Some fn =>
            if is_int_or_float value
            then r <- fn value ;; Ok (dict_set metric_key r converted)
            else Ok (dict_set metric_key value converted)
        | None => Ok (dict_set metric_key value converted)
        end
    | None => Ok (dict_set key value converted)
    end.

Definition convert_reading (raw_data : dict) : result dict :=
  for_each convert_item raw_data [].

(** [get_numeric_fields]: the numeric entries outside [NON_NUMERIC_FIELDS]. *)
Definition get_numeric_fields (data : dict) : dict :=
  fold_left
    (fun fields kv =>
       let '(k, v) := kv in
       if is_int_or_float v && negb (set_mem k NON_NUMERIC_FIELDS)
       then dict_set k v fields
       else fields)
    data [].

(** The conversions as the specification documents them: Fahrenheit to
    Celsius [(f - 32) * 5 / 9], mph to km/h [* 1.60934], inHg to hPa
    [* 33.8639], inches to mm [* 25.4].  On a float the operations are those
    of binary64; on an int the Fahrenheit formula is exact up to the
    division, and the other three multiply the int's float. *)
Inductive conversion : Type :=
| FahrenheitToCelsius
| MphToKmh
| InHgToHPa
| InchesToMm.

(** A number as a binary64: a float is itself, an int its nearest float. *)
Definition binary64_of (n : num) : float :=
  match n with
  | NInt z => nearest_float z
  | NFloat f => f
  end.

Definition documented_formula (c : conversion) (n : num) : float :=
  match c with
  | FahrenheitToCelsius =>
      match n with
      | NFloat f => ((f - 32) * 5 / 9)%float
      | NInt z => int_quotient ((z - 32) * 5) 9
      end
  | MphToKmh => (binary64_of n * 1.60934)%float
  | InHgToHPa => (binary64_of n * 33.8639)%float
  | InchesToMm => (binary64_of n * 25.4)%float
  end.

(** The numbers on which the formula of a conversion has a binary64 value:
    every float, and the ints for which neither [float(z)] nor the division
    of the Fahrenheit formula overflows. *)
Definition representable (c : conversion) (n : num) : bool :=
  match n with
  | NFloat _ => true
  | NInt z =>
      match c with
      | FahrenheitToCelsius => Z.abs ((z - 32) * 5) <? float_max_int * 9
      | _ => Z.abs z <? float_max_int
      end
  end.

(** The documented formula on a Python number, rounded to two decimals;
    beyond the range of binary64 the arithmetic raises [OverflowError]. *)
Definition rounded_formula (c : conversion) (value : PyVal) : result PyVal :=
  n <- as_num value ;;
  if representable c n
  then Ok (VFloat (round2_float (documented_formula c n)))
  else Raise OverflowError.

(** The function of the source that implements a conversion. *)
Definition fn_of (c : conversion) : PyVal -> result PyVal :=
  match c with
  | FahrenheitToCelsius => fahrenheit_to_celsius
  | MphToKmh => mph_to_kmh
  | InHgToHPa => inhg_to_hpa
  | InchesToMm => inches_to_mm
  end.

(** The keys of the output so far are never excluded ones. *)
Definition no_excluded_key (converted : dict) : Prop :=
  forall key, In key (dict_keys converted) -> set_mem key EXCLUDED_FIELDS = false.

End Converter.

(** ** Settings ([app/config.py]) *)

Module Config.

Record Settings : Type := {
  awn_api_key : string;
  awn_application_key : string;
  awn_mac_address : string;
  collection_interval_seconds : Z;
  daily_retention_days : Z;
  database_url : string
}.

(** The settings when the environment sets none of them. *)
Definition defaults : Settings := {|
  awn_api_key := "";
  awn_application_key := "";
  awn_mac_address := "";
  collection_interval_seconds := 60;
  daily_retention_days := 7;
  database_url := "sqlite+aiosqlite:///./weather.db"
|}.

End Config.

(** ** The broadcaster ([app/broadcast.py]) *)

Module Broadcast.
Import Py.

(** An [asyncio.Queue]: the object's identity, its [maxsize] and the items
    not yet taken, oldest first. *)
Record Queue : Type := {
  qid : nat;
  maxsize : Z;
  items : list dict
}.

Definition qsize (q : Queue) : Z := py_len (items q).

Definition full (q : Queue) : bool :=
  if maxsize q <=? 0 then false else maxsize q <=? qsize q.

(** The queue with one more item at its end. *)
Definition enqueue (q : Queue) (item : dict) : Queue :=
  {| qid := qid q; maxsize := maxsize q; items := items q ++ [item] |}.

Definition put_nowait (q : Queue) (item : dict) : result Queue :=
  if full q then Raise QueueFull else Ok (enqueue q item).

(** What [await queue.get()] returns once the queue has an item. *)
Definition get (q : Queue) : option (dict * Queue) :=
  match items q with
  | [] => None
  | data :: rest =>
      Some (data, {| qid := qid q; maxsize := maxsize q; items := rest |})
  end.

(** The broadcaster: the list [_subscribers], and the next fresh identity
    for a queue object. *)
Record Broadcaster : Type := {
  subscribers : list Queue;
  next_qid : nat
}.

Definition init : Broadcaster := {| subscribers := []; next_qid := 0 |}.

(** The body of the loop of [publish]: [put_nowait] with [QueueFull]
    caught and ignored. *)
Definition publish_one (data : dict) (queue : Queue) : result Queue :=
  match put_nowait queue data with
  | Ok queue' => Ok queue'
  | Raise QueueFull => Ok queue
  | Raise e => Raise e
  end.

Fixpoint publish_all (data : dict) (queues : list Queue)
  : result (list Queue) :=
  match queues with
  | [] => Ok []
  | queue :: rest =>
      queue' <- publish_one data queue ;;
      rest' <- publish_all data rest ;;
      Ok (queue' :: rest')
  end.

Definition publish (b : Broadcaster) (data : dict) : result Broadcaster :=
  queues <- publish_all data (subscribers b) ;;
  Ok {| subscribers := queues; next_qid := next_qid b |}.

(** [subscribe] up to its first [await]: a new queue of capacity 100 is
    appended to the registry. *)
Definition subscribe (b : Broadcaster) : Broadcaster * nat :=
  let queue := {| qid := next_qid b; maxsize := 100; items := [] |} in
  ({| subscribers := subscribers b ++ [queue]; next_qid := S (next_qid b) |},
   next_qid b).

(** One turn of the loop of [subscribe]: the oldest item of the queue is
    taken and yielded. *)
Fixpoint take (id : nat) (queues : list Queue)
  : option (dict * list Queue) :=
  match queues with
  | [] => None
  | queue :: rest =>
      if Nat.eqb (qid queue) id
      then match get queue with
           | Some (data, queue') => Some (data, queue' :: rest)
           | None => None
           end
      else match take id rest with
           | Some (data, rest') => Some (data, queue :: rest')
           | None => None
           end
  end.

(** [list.remove(queue)]: the first occurrence goes, [ValueError] when
    there is none. *)
Fixpoint remove (id : nat) (queues : list Queue) : result (list Queue) :=
  match queues with
  | [] => Raise ValueError
  | queue :: rest =>
      if Nat.eqb (qid queue) id then Ok rest
      else rest' <- remove id rest ;; Ok (queue :: rest')
  end.

(** The [finally] clause of [subscribe]. *)
Definition cleanup (b : Broadcaster) (id : nat) : result Broadcaster :=
  queues <- remove id (subscribers b) ;;
  Ok {| subscribers := queues; next_qid := next_qid b |}.

Definition subscriber_count (b : Broadcaster) : Z := py_len (subscribers b).

(** The operations a run of the service applies to the broadcaster. *)
Inductive op : Type :=
| Subscribe
| Publish (data : dict)
| Deliver (id : nat)
| Cleanup (id : nat).

Definition step (b : Broadcaster) (o : op) : result Broadcaster :=
  match o with
  | Subscribe => Ok (fst (subscribe b))
  | Publish data => publish b data
  | Deliver id =>
      match take id (subscribers b) with
      | Some (_, queues) =>
          Ok {| subscribers := queues; next_qid := next_qid b |}
      | None => Ok b
      end
  | Cleanup id => cleanup b id
  end.

Definition run (ops : list op) : result Broadcaster := for_each step ops init.

(** The queues of a registry built by [subscribe] have capacity 100 and
    never hold more. *)
Definition bounded (q : Queue) : Prop := maxsize q = 100 /\ qsize q <= 100.

End Broadcast.

(** ** The tables ([app/database.py]) *)

Module datetime.
(** A UTC instant: the calendar year and month the queries select by, and
    the position on the time line the retention cutoff compares. *)
Record t : Type := {
  year : Z;
  month : Z;
  posix_us : Z
}.
End datetime.

Module DailyReading.
Import Py.
Record t : Type := {
  id : Z;
  timestamp : datetime.t;
  mac_address : string;
  data : dict
}.
End DailyReading.

(** The statistic columns of the aggregate rows are [Float] and NOT NULL:
    a row of the table holds binary64 numbers, whatever number the
    collector assigned. *)
Module MonthlyAggregate.
Record t : Type := {
  id : Z;
  mac_address : string;
  year : Z;
  month : Z;
  metric_name : string;
  min_value : float;
  max_value : float;
  avg_value : float;
  count : Z
}.
End MonthlyAggregate.

Module YearlyAggregate.
Record t : Type := {
  id : Z;
  mac_address : string;
  year : Z;
  metric_name : string;
  min_value : float;
  max_value : float;
  avg_value : float;
  count : Z
}.
End YearlyAggregate.

Module Database.
Import Py.

Record Db : Type := {
  daily_readings : list DailyReading.t;
  monthly_aggregates : list MonthlyAggregate.t;
  yearly_aggregates : list YearlyAggregate.t
}.

(** The tables [init_db] creates. *)
Definition empty : Db := {|
  daily_readings := [];
  monthly_aggregates := [];
  yearly_aggregates := []
|}.

(** The integer primary key a new row gets: one more than the largest. *)
Definition next_id {Row} (row_id : Row -> Z) (rows : list Row) : Z :=
  1 + fold_right Z.max 0 (map row_id rows).

(** [Result.scalar_one_or_none()] *)
Definition scalar_one_or_none {Row} (rows : list Row) : result (option Row) :=
  match rows with
  | [] => Ok None
  | [row] => Ok (Some row)
  | _ => Raise MultipleResultsFound
  end.

(** The commit of a loaded object whose attributes were assigned: the row
    with its primary key is rewritten. *)
Definition write_back {Row} (row_id : Row -> Z) (row : Row) (rows : list Row)
  : list Row :=
  map (fun r => if row_id r =? row_id row then row else r) rows.

(** The bind processor of a [Float] column is [float(value)]; when it
    raises, the statement fails. *)
Definition bind_float (v : PyVal) : result float :=
  match x <- as_num v ;; to_float x with
  | Ok f => Ok f
  | Raise _ => Raise StatementError
  end.

(** What a NOT NULL [Float] column keeps of a bound float: SQLite stores
    nan as NULL, which the column refuses, and a zero of either sign as
    [0.0]. *)
Definition store_real (f : float) : result float :=
  if is_nan f then Raise IntegrityError
  else if (f =? zero)%float then Ok zero
  else Ok f.

(** The float a statistic column holds once the number [v] is written. *)
Definition store_float (v : PyVal) : result float :=
  f <- bind_float v ;; store_real f.

End Database.

(** ** The collector ([app/collector.py]) *)

Module Collector.
Import Py Converter Config Database.

(** The four statistics of one metric over a period. *)
Record stats : Type := {
  stat_min : PyVal;
  stat_max : PyVal;
  stat_avg : PyVal;
  stat_count : Z
}.

(** [round(sum(values) / len(values), 2)] *)
Definition rounded_mean (values : list PyVal) : result PyVal :=
  total <- py_sum values ;;
  mean <- py_truediv total (VInt (py_len values)) ;;
  py_round2 mean.

(** [min(values)], [max(values)], [round(sum(values) / len(values), 2)]
    and [len(values)], as both branches of the upsert compute them. *)
Definition compute_stats (values : list PyVal) : result stats :=
  mn <- py_min values ;;
  mx <- py_max values ;;
  avg <- rounded_mean values ;;
  Ok {| stat_min := mn; stat_max := mx; stat_avg := avg;
        stat_count := py_len values |}.

(** What the flush of a row writes into its statistic columns. *)
Record columns : Type := {
  col_min : float;
  col_max : float;
  col_avg : float;
  col_count : Z
}.

(** The flush of an aggregate row: the parameters of the statement are
    bound, then the statement runs. *)
Definition flush (s : stats) : result columns :=
  mn <- bind_float (stat_min s) ;;
  mx <- bind_float (stat_max s) ;;
  avg <- bind_float (stat_avg s) ;;
  mn <- store_real mn ;;
  mx <- store_real mx ;;
  avg <- store_real avg ;;
  Ok {| col_min := mn; col_max := mx; col_avg := avg;
        col_count := stat_count s |}.

(** The statistics of a metric as its row holds them. *)
Definition stored_stats (values : list PyVal) : result columns :=
  s <- compute_stats values ;; flush s.

(** [metrics.setdefault(key, []).append(value)] *)
Fixpoint setdefault_append (key : string) (value : PyVal)
  (metrics : list (string * list PyVal)) : list (string * list PyVal) :=
  match metrics with
  | [] => [(key, [value])]
  | (k, values) :: rest =>
      if String.eqb key k then (k, values ++ [value]) :: rest
      else (k, values) :: setdefault_append key value rest
  end.

(** The numeric values of the period, per metric, in the order read. *)
Definition collect_metrics (rows : list dict) : list (string * list PyVal) :=
  fold_left
    (fun metrics data =>
       fold_left (fun m kv => setdefault_append (fst kv) (snd kv) m)
                 (get_numeric_fields data) metrics)
    rows [].

(** The values a metric contributes to a period: from each reading, in
    the order read, the value of the metric in the reading's numeric field
    set, when it has one. *)
Definition values_of (metric : string) (rows : list dict) : list PyVal :=
  flat_map
    (fun data =>
       match dict_get metric (get_numeric_fields data) with
       | Some v => [v]
       | None => []
       end)
    rows.

(** Numbers whose sums stay inside binary64: fewer than [2^20] of them,
    and no int of [2^1000] or more in size. *)
Definition int_bound : Z := 2 ^ 1000.
Definition count_bound : Z := 2 ^ 20.

Definition small (v : PyVal) : Prop :=
  match v with
  | VInt z => Z.abs z < int_bound
  | _ => True
  end.

(** A float that is neither nan nor an infinity. *)
Definition finite (f : float) : bool :=
  match Prim2SF f with
  | S754_zero _ | S754_finite _ _ _ => true
  | _ => false
  end.

Definition not_nan (f : float) : Prop := Prim2SF f <> S754_nan.

(** The numbers of a reading in range: finite floats, and the ints that
    binary64 holds exactly. *)
Definition in_range (v : PyVal) : Prop :=
  match v with
  | VInt z => Z.abs z < 2 ^ 53
  | VFloat f => finite f = true
  | _ => True
  end.

(** Readings in range: fewer than [2^20] of them, every value in range. *)
Definition readings_in_range (rows : list dict) : Prop :=
  py_len rows < count_bound
  /\ forall data k v, In data rows -> In (k, v) data -> in_range v.

(** The upsert loop, shared by the monthly and the yearly table. *)
Section Upsert.
Context {Row : Type}.
(** The primary key of a row. *)
Variable row_id : Row -> Z.
(** The where clause that selects the row of a metric in the period. *)
Variable selects : string -> Row -> bool.
(** The new object the [else] branch adds to the session, as flushed. *)
Variable new_row : Z -> string -> columns -> Row.
(** The four assignments of the [if agg:] branch, as flushed. *)
Variable assign : Row -> columns -> Row.

(** One turn of the loop.  The session flushes the row of a turn before
    the query of the next turn, and the row of the last turn at the commit:
    before anything else is computed. *)
Definition upsert_metric (rows : list Row) (entry : string * list PyVal)
  : result (list Row) :=
  let '(metric_name, values) := entry in
  existing <- scalar_one_or_none (filter (selects metric_name) rows) ;;
  s <- compute_stats values ;;
  c <- flush s ;;
  match existing with
  | Some agg => Ok (write_back row_id (assign agg c) rows)
  | None => Ok (rows ++ [new_row (next_id row_id rows) metric_name c])
  end.

Definition upsert_aggregates (metrics : list (string * list PyVal))
  (rows : list Row) : result (list Row) :=
  for_each upsert_metric metrics rows.
End Upsert.

(** The constraints of a table, for any of the two: distinct primary keys,
    and at most one row per value of the unique key. *)
Definition table_ok {Row K} (row_id : Row -> Z) (row_key : Row -> K)
  (rows : list Row) : Prop :=
  NoDup (map row_id rows) /\ NoDup (map row_key rows).

(** The row of metric [m] is there and already holds the statistics [s]. *)
Definition settled {Row K} (row_key : Row -> K) (key_of : string -> K)
  (assign : Row -> columns -> Row) (m : string) (s : columns) (rows : list Row)
  : Prop :=
  exists r, In r rows /\ row_key r = key_of m /\ assign r s = r.

(** How a group of [collect_metrics] grows: the values it had, then the
    new ones. *)
Definition old_values (o : option (list PyVal)) : list PyVal :=
  match o with Some old => old | None => [] end.

Definition grouped (o : option (list PyVal)) (l : list PyVal)
  : option (list PyVal) :=
  match l with
  | [] => o
  | _ => Some (old_values o ++ l)
  end.

(** The running total after [k] values in range: an int of at most [k]
    times the bound, or a float that is not nan. *)
Definition total_ok (k : Z) (acc : PyVal) : Prop :=
  match acc with
  | VInt s => Z.abs s <= k * 2 ^ 53
  | VFloat t => not_nan t
  | _ => False
  end.

(** *** Monthly aggregates *)

(** [strftime("%Y", timestamp) == str(year)]: SQLite writes the year of
    the timestamp with four digits, Python the year as it is, so a year
    before 1000 matches nothing. *)
Definition year_is (year : Z) (ts : datetime.t) : bool :=
  (datetime.year ts =? year) && (1000 <=? year).

(** The readings of a device in the month of [year]-[month]; the month is
    compared as two digits on both sides. *)
Definition in_month (mac_address : string) (year month : Z)
  (r : DailyReading.t) : bool :=
  String.eqb (DailyReading.mac_address r) mac_address
  && year_is year (DailyReading.timestamp r)
  && (datetime.month (DailyReading.timestamp r) =? month).

Definition monthly_selects (mac_address : string) (year month : Z)
  (metric_name : string) (a : MonthlyAggregate.t) : bool :=
  String.eqb (MonthlyAggregate.mac_address a) mac_address
  && (MonthlyAggregate.year a =? year)
  && (MonthlyAggregate.month a =? month)
  && String.eqb (MonthlyAggregate.metric_name a) metric_name.

Definition monthly_new (mac_address : string) (year month : Z)
  (id : Z) (metric_name : string) (s : columns) : MonthlyAggregate.t := {|
  MonthlyAggregate.id := id;
  MonthlyAggregate.mac_address := mac_address;
  MonthlyAggregate.year := year;
  MonthlyAggregate.month := month;
  MonthlyAggregate.metric_name := metric_name;
  MonthlyAggregate.min_value := col_min s;
  MonthlyAggregate.max_value := col_max s;
  MonthlyAggregate.avg_value := col_avg s;
  MonthlyAggregate.count := col_count s
|}.

Definition monthly_assign (agg : MonthlyAggregate.t) (s : columns)
  : MonthlyAggregate.t := {|
  MonthlyAggregate.id := MonthlyAggregate.id agg;
  MonthlyAggregate.mac_address := MonthlyAggregate.mac_address agg;
  MonthlyAggregate.year := MonthlyAggregate.year agg;
  MonthlyAggregate.month := MonthlyAggregate.month agg;
  MonthlyAggregate.metric_name := MonthlyAggregate.metric_name agg;
  MonthlyAggregate.min_value := col_min s;
  MonthlyAggregate.max_value := col_max s;
  MonthlyAggregate.avg_value := col_avg s;
  MonthlyAggregate.count := col_count s
|}.

(** The [data] column of the readings the monthly query returns. *)
Definition monthly_rows (mac_address : string) (ts : datetime.t) (db : Db)
  : list dict :=
  map DailyReading.data
      (filter (in_month mac_address (datetime.year ts) (datetime.month ts))
              (daily_readings db)).

(** [update_monthly_aggregates]: an exception leaves the session
    uncommitted, so the result is either the new tables or the exception. *)
Definition update_monthly_aggregates (mac_address : string) (ts : datetime.t)
  (db : Db) : result Db :=
  let year := datetime.year ts in
  let month := datetime.month ts in
  let rows := monthly_rows mac_address ts db in
  match rows with
  | [] => Ok db
  | _ =>
      let metrics := collect_metrics rows in
      aggs <- upsert_aggregates MonthlyAggregate.id
                (monthly_selects mac_address year month)
                (monthly_new mac_address year month)
                monthly_assign metrics (monthly_aggregates db) ;;
      Ok {| daily_readings := daily_readings db;
            monthly_aggregates := aggs;
            yearly_aggregates := yearly_aggregates db |}
  end.

(** *** Yearly aggregates *)

Definition in_year (mac_address : string) (year : Z) (r : DailyReading.t)
  : bool :=
  String.eqb (DailyReading.mac_address r) mac_address
  && year_is year (DailyReading.timestamp r).

Definition yearly_selects (mac_address : string) (year : Z)
  (metric_name : string) (a : YearlyAggregate.t) : bool :=
  String.eqb (YearlyAggregate.mac_address a) mac_address
  && (YearlyAggregate.year a =? year)
  && String.eqb (YearlyAggregate.metric_name a) metric_name.

Definition yearly_new (mac_address : string) (year : Z)
  (id : Z) (metric_name : string) (s : columns) : YearlyAggregate.t := {|
  YearlyAggregate.id := id;
  YearlyAggregate.mac_address := mac_address;
  YearlyAggregate.year := year;
  YearlyAggregate.metric_name := metric_name;
  YearlyAggregate.min_value := col_min s;
  YearlyAggregate.max_value := col_max s;
  YearlyAggregate.avg_value := col_avg s;
  YearlyAggregate.count := col_count s
|}.

Definition yearly_assign (agg : YearlyAggregate.t) (s : columns)
  : YearlyAggregate.t := {|
  YearlyAggregate.id := YearlyAggregate.id agg;
  YearlyAggregate.mac_address := YearlyAggregate.mac_address agg;
  YearlyAggregate.year := YearlyAggregate.year agg;
  YearlyAggregate.metric_name := YearlyAggregate.metric_name agg;
  YearlyAggregate.min_value := col_min s;
  YearlyAggregate.max_value := col_max s;
  YearlyAggregate.avg_value := col_avg s;
  YearlyAggregate.count := col_count s
|}.

Definition yearly_rows (mac_address : string) (ts : datetime.t) (db : Db)
  : list dict :=
  map DailyReading.data
      (filter (in_year mac_address (datetime.year ts)) (daily_readings db)).

Definition update_yearly_aggregates (mac_address : string) (ts : datetime.t)
  (db : Db) : result Db :=
  let year := datetime.year ts in
  let rows := yearly_rows mac_address ts db in
  match rows with
  | [] => Ok db
  | _ =>
      let metrics := collect_metrics rows in
      aggs <- upsert_aggregates YearlyAggregate.id
                (yearly_selects mac_address year)
                (yearly_new mac_address year)
                yearly_assign metrics (yearly_aggregates db) ;;
      Ok {| daily_readings := daily_readings db;
            monthly_aggregates := monthly_aggregates db;
            yearly_aggregates := aggs |}
  end.

(** *** The constraints of the aggregate tables *)

(** The columns of the uniqueness constraint of each table. *)
Definition monthly_key (a : MonthlyAggregate.t) : string * Z * Z * string :=
  (MonthlyAggregate.mac_address a, MonthlyAggregate.year a,
   MonthlyAggregate.month a, MonthlyAggregate.metric_name a).

Definition yearly_key (a : YearlyAggregate.t) : string * Z * string :=
  (YearlyAggregate.mac_address a, YearlyAggregate.year a,
   YearlyAggregate.metric_name a).

(** Distinct primary keys, and no two rows with the same unique key. *)
Definition monthly_constraints (aggs : list MonthlyAggregate.t) : Prop :=
  NoDup (map MonthlyAggregate.id aggs) /\ NoDup (map monthly_key aggs).

Definition yearly_constraints (aggs : list YearlyAggregate.t) : Prop :=
  NoDup (map YearlyAggregate.id aggs) /\ NoDup (map yearly_key aggs).

Definition constraints_hold (db : Db) : Prop :=
  monthly_constraints (monthly_aggregates db)
  /\ yearly_constraints (yearly_aggregates db).

(** At most one aggregate row per device, period key and metric name. *)
Definition at_most_one_row (db : Db) : Prop :=
  (forall mac_address year month metric_name,
      (List.length (filter (monthly_selects mac_address year month metric_name)
                           (monthly_aggregates db)) <= 1)%nat)
  /\ (forall mac_address year metric_name,
         (List.length (filter (yearly_selects mac_address year metric_name)
                              (yearly_aggregates db)) <= 1)%nat).

(** *** Storing and purging *)

(** [store_daily_reading]: the reading is inserted with the current time,
    which is returned. *)
Definition store_daily_reading (converted : dict) (mac_address : string)
  (now : datetime.t) (db : Db) : datetime.t * Db :=
  let reading := {|
    DailyReading.id := next_id DailyReading.id (daily_readings db);
    DailyReading.timestamp := now;
    DailyReading.mac_address := mac_address;
    DailyReading.data := converted
  |} in
  (now, {| daily_readings := daily_readings db ++ [reading];
           monthly_aggregates := monthly_aggregates db;
           yearly_aggregates := yearly_aggregates db |}).

Definition microseconds_per_day : Z := 86400 * 1000000.

(** The rows the delete of [purge_old_readings] removes. *)
Definition expired (mac_address : string) (cutoff : Z) (r : DailyReading.t)
  : bool :=
  String.eqb (DailyReading.mac_address r) mac_address
  && (datetime.posix_us (DailyReading.timestamp r) <? cutoff).

(** A [timedelta] holds at most 999999999 days either way, and a
    [datetime] the instants from 0001-01-01 00:00:00 to 9999-12-31
    23:59:59.999999, here in microseconds since the epoch. *)
Definition timedelta_max_days : Z := 999999999.
Definition datetime_min_us : Z := -62135596800 * 1000000.
Definition datetime_max_us : Z := 253402300800 * 1000000 - 1.

(** [datetime.now(timezone.utc) - timedelta(days=retention_days)] *)
Definition cutoff_of (retention_days : Z) (now : datetime.t) : result Z :=
  if Z.abs retention_days <=? timedelta_max_days then
    let cutoff := datetime.posix_us now - retention_days * microseconds_per_day in
    if (datetime_min_us <=? cutoff) && (cutoff <=? datetime_max_us)
    then Ok cutoff
    else Raise OverflowError
  else Raise OverflowError.

(** [purge_old_readings]: returns the number of rows deleted. *)
Definition purge_old_readings (settings : Settings) (mac_address : string)
  (now : datetime.t) (db : Db) : result (Z * Db) :=
  cutoff <- cutoff_of (daily_retention_days settings) now ;;
  let kept := filter (fun r => negb (expired mac_address cutoff r))
                     (daily_readings db) in
  Ok (py_len (daily_readings db) - py_len kept,
      {| daily_readings := kept;
         monthly_aggregates := monthly_aggregates db;
         yearly_aggregates := yearly_aggregates db |}).

(** *** Fetching *)

(** What the GET of a tick comes back with: no response at all
    ([httpx.RequestError]), or a status code and a body, [None] when the
    body is not JSON. *)
Inductive http_outcome : Type :=
| NoResponse
| Response (status_code : Z) (body : option PyVal).

(** [Response.raise_for_status()]: an exception unless the status is 2xx. *)
Definition raise_for_status (status_code : Z) : result unit :=
  if (200 <=? status_code) && (status_code <? 300) then Ok tt
  else Raise (HTTPStatusError status_code).

(** [fetch_latest_reading]: the first element of a non-empty JSON array,
    and [None] for any other body. *)
Definition fetch_latest_reading (outcome : http_outcome) : result PyVal :=
  match outcome with
  | NoResponse => Raise RequestError
  | Response status_code body =>
      _ <- raise_for_status status_code ;;
      match body with
      | None => Raise JSONDecodeError
      | Some (VList (first :: _)) => Ok first
      | Some _ => Ok VNone
      end
  end.

(** *** The loop *)

Inductive level : Type := DEBUG | INFO | WARNING | ERROR.

(** What a tick does that the outside can observe, besides the tables and
    the subscriber queues: log records and sleeps. *)
Inductive event : Type :=
| Log (l : level) (message : string)
| Sleep (seconds : Z).

Record World : Type := {
  db : Db;
  broadcaster : Broadcast.Broadcaster;
  trace : list event
}.

(** A computation of the loop: it changes the world and returns a value or
    raises; what it did before raising stays done. *)
Definition M (A : Type) : Type := World -> result A * World.

Definition ret {A} (a : A) : M A := fun w => (Ok a, w).

Definition raise {A} (e : exn) : M A := fun w => (Raise e, w).

Definition mbind {A B} (m : M A) (k : A -> M B) : M B :=
  fun w =>
    match m w with
    | (Ok a, w') => k a w'
    | (Raise e, w') => (Raise e, w')
    end.

Notation "'let*' x ':=' m 'in' k" := (mbind m (fun x => k))
  (at level 10, x name, m at level 100, k at level 200).

(** [try: body  except Exception as e: handler(e)] *)
Definition try_except (body : M unit) (handler : exn -> M unit) : M unit :=
  fun w =>
    match body w with
    | (Ok tt, w') => (Ok tt, w')
    | (Raise e, w') => handler e w'
    end.

Definition lift {A} (r : result A) : M A := fun w => (r, w).

Definition emit (e : event) : M unit :=
  fun w => (Ok tt, {| db := db w; broadcaster := broadcaster w;
                      trace := trace w ++ [e] |}).

Definition log (l : level) (message : string) : M unit := emit (Log l message).

Definition sleep (seconds : Z) : M unit := emit (Sleep seconds).

(** A call that commits to the tables and returns a value. *)
Definition on_db {A} (f : Db -> A * Db) : M A :=
  fun w =>
    let '(a, db') := f (db w) in
    (Ok a, {| db := db'; broadcaster := broadcaster w; trace := trace w |}).

(** A call whose session is committed only when it does not raise. *)
Definition in_session (f : Db -> result Db) : M unit :=
  fun w =>
    match f (db w) with
    | Ok db' =>
        (Ok tt, {| db := db'; broadcaster := broadcaster w; trace := trace w |})
    | Raise e => (Raise e, w)
    end.

(** A call that returns a value, and whose session is committed only when
    it does not raise. *)
Definition in_session_returning {A} (f : Db -> result (A * Db)) : M A :=
  fun w =>
    match f (db w) with
    | Ok (a, db') =>
        (Ok a, {| db := db'; broadcaster := broadcaster w; trace := trace w |})
    | Raise e => (Raise e, w)
    end.

(** [await broadcaster.publish(converted)] *)
Definition publish (data : dict) : M unit :=
  fun w =>
    match Broadcast.publish (broadcaster w) data with
    | Ok b => (Ok tt, {| db := db w; broadcaster := b; trace := trace w |})
    | Raise e => (Raise e, w)
    end.

(** [raw.items()] needs [raw] to be a dict. *)
Definition convert (raw : PyVal) : result dict :=
  match raw with
  | VDict raw_data => convert_reading raw_data
  | _ => Raise AttributeError
  end.

(** What one tick reads from outside: the outcome of the GET and the
    clock at the two calls of [datetime.now]. *)
Record tick_input : Type := {
  outcome : http_outcome;
  now_store : datetime.t;
  now_purge : datetime.t
}.

(** The [try] block of the loop. *)
Definition collect (settings : Settings) (i : tick_input) : M unit :=
  let mac := awn_mac_address settings in
  let* raw := lift (fetch_latest_reading (outcome i)) in
  match raw with
  | VNone => log WARNING "No data returned from AWN API"
  | _ =>
      let* converted := lift (convert raw) in
      let* ts := on_db (store_daily_reading converted mac (now_store i)) in
      let* _ := in_session (update_monthly_aggregates mac ts) in
      let* _ := in_session (update_yearly_aggregates mac ts) in
      let* deleted :=
        in_session_returning (purge_old_readings settings mac (now_purge i)) in
      let* _ := if deleted =? 0 then ret tt
                else log INFO "Purged %d old daily readings" in
      let* _ := publish converted in
      log DEBUG "Collected and stored reading at %s"
  end.

(** The [except] clauses of the loop. *)
Definition on_exception (e : exn) : M unit :=
  match e with
  | HTTPStatusError status_code =>
      if status_code =? 429
      then let* _ := log WARNING "AWN API rate limited, backing off" in
           sleep 5
      else log ERROR "AWN API HTTP error: %s"
  | RequestError => log ERROR "AWN API request error: %s"
  | _ => log ERROR "Unexpected error in collection loop"
  end.

(** One turn of [while True]. *)
Definition tick (settings : Settings) (i : tick_input) : M unit :=
  let* _ := try_except (collect settings i) on_exception in
  sleep (collection_interval_seconds settings).

(** The turns of the loop over the inputs of as many ticks; an exception
    that left a tick would end the loop. *)
Fixpoint ticks (settings : Settings) (inputs : list tick_input) : M unit :=
  match inputs with
  | [] => ret tt
  | i :: rest => let* _ := tick settings i in ticks settings rest
  end.

Definition collection_loop (settings : Settings) (inputs : list tick_input)
  : M unit :=
  let* _ := log INFO "Starting collector: mac=%s, interval=%ds, retention=%dd" in
  ticks settings inputs.

(** A property of the tables that a computation of the loop keeps. *)
Definition keeps (I : Db -> Prop) {A} (m : M A) : Prop :=
  forall w r w', I (db w) -> m w = (r, w') -> I (db w').

(** What the world looks like after a tick that did nothing but log and
    sleep. *)
Definition after (w : World) (events : list event) : World :=
  {| db := db w; broadcaster := broadcaster w; trace := trace w ++ events |}.

End Collector.

(** ** What the specification says of an aggregate row *)

Module Statistics.
Import Py Database Collector.

(** The value of a number: an infinity, or the rational [m * 2^e]. *)
Inductive value : Type :=
| NegInfinity
| Finite (m e : Z)
| PosInfinity.

Definition spec_value (x : spec_float) : option value :=
  match x with
  | S754_nan => None
  | S754_infinity s => Some (if s then NegInfinity else PosInfinity)
  | S754_zero _ => Some (Finite 0 0)
  | S754_finite s m e => Some (Finite (if s then Z.neg m else Z.pos m) e)
  end.

Definition float_value (f : float) : option value := spec_value (Prim2SF f).

Definition num_value (x : num) : option value :=
  match x with
  | NInt z => Some (Finite z 0)
  | NFloat f => float_value f
  end.

(** A bool counts as 0 or 1; nan has no value. *)
Definition value_of (v : PyVal) : option value :=
  match v with
  | VBool b => Some (Finite (if b then 1 else 0) 0)
  | VInt z => Some (Finite z 0)
  | VFloat f => float_value f
  | _ => None
  end.

Definition has_value (v : PyVal) : Prop := exists x, value_of v = Some x.

(** [a < b], the two brought to the smaller exponent. *)
Definition value_ltb (a b : value) : bool :=
  match a, b with
  | NegInfinity, NegInfinity => false
  | NegInfinity, _ => true
  | _, NegInfinity => false
  | PosInfinity, _ => false
  | _, PosInfinity => true
  | Finite m1 e1, Finite m2 e2 =>
      let k := Z.min e1 e2 in
      m1 * 2 ^ (e1 - k) <? m2 * 2 ^ (e2 - k)
  end.

(** [a <= b] for two numbers that have a value. *)
Definition at_most (a b : PyVal) : Prop :=
  exists x y,
    value_of a = Some x /\ value_of b = Some y /\ value_ltb y x = false.

(** The minimum and the maximum: a value of the list that every value of
    the list is at least, or at most. *)
Definition is_minimum (v : PyVal) (values : list PyVal) : Prop :=
  In v values /\ Forall (fun w => at_most v w) values.

Definition is_maximum (v : PyVal) (values : list PyVal) : Prop :=
  In v values /\ Forall (fun w => at_most w v) values.

(** The arithmetic mean, in the arithmetic of Python numbers: the values
    added up from the left, and the total divided by their number. *)
Fixpoint total_from (acc : PyVal) (values : list PyVal) : result PyVal :=
  match values with
  | [] => Ok acc
  | v :: rest => acc' <- py_add acc v ;; total_from acc' rest
  end.

Definition arithmetic_mean (values : list PyVal) : result PyVal :=
  total <- total_from (VInt 0) values ;;
  py_truediv total (VInt (Z.of_nat (List.length values))).

Definition mean_rounded (values : list PyVal) : result PyVal :=
  mean <- arithmetic_mean values ;; py_round2 mean.

(** The four statistics of the values of a metric, as the columns of a row
    hold them. *)
Definition describes (values : list PyVal) (min_value max_value avg_value : float)
  (count : Z) : Prop :=
  (exists v, is_minimum v values /\ store_float v = Ok min_value)
  /\ (exists v, is_maximum v values /\ store_float v = Ok max_value)
  /\ (exists mean, mean_rounded values = Ok mean
                   /\ store_float mean = Ok avg_value)
  /\ count = Z.of_nat (List.length values).


Definition of_year (mac_address : string) (year : Z) (r : DailyReading.t)
  : bool :=
  String.eqb (DailyReading.mac_address r) mac_address
  && (datetime.year (DailyReading.timestamp r) =? year).


Definition yearly_row_of (mac_address : string) (year : Z)
  (metric : string) (values : list PyVal) (aggs : list YearlyAggregate.t)
  : Prop :=
  exists agg,
    In agg aggs
    /\ yearly_key agg = (mac_address, year, metric)
    /\ (forall a, In a aggs ->
                  yearly_key a = (mac_address, year, metric) -> a = agg)
    /\ describes values (YearlyAggregate.min_value agg)
         (YearlyAggregate.max_value agg) (YearlyAggregate.avg_value agg)
         (YearlyAggregate.count agg).

(** A number that is nan. *)
Definition is_nan_value (v : PyVal) : Prop :=
  exists f, v = VFloat f /\ is_nan f = true.

End Statistics.

(** ** Startup ([main.py]) *)

Module Main.
Import Py Config.

(** The truth value of a string: it is not empty. *)
Definition truthy (s : string) : bool := negb (String.eqb s "").

(** What [lifespan] does before it yields: whether the collector task is
    created, and the record logged. *)
Record startup : Type := {
  collector_started : bool;
  logged : Collector.event
}.

Definition lifespan_startup (settings : Settings) : startup :=
  if truthy (awn_api_key settings) && truthy (awn_mac_address settings)
  then {| collector_started := true;
          logged := Collector.Log Collector.INFO "Data collector started" |}
  else {| collector_started := false;
          logged := Collector.Log Collector.WARNING
            "AWN credentials not configured - collector disabled. Set AWN_API_KEY, AWN_APPLICATION_KEY, and AWN_MAC_ADDRESS in .env" |}.

End Main.

(** ** Sample data *)

Module Samples.
Import Py Config Broadcast Database Collector.

(** A reading, a queue that holds 100 of it, and an empty queue. *)
Definition sample : dict := [("temp_c", VFloat 22.22)].

Definition full_queue : Queue :=
  {| qid := 0; maxsize := 100; items := repeat sample 100 |}.

Definition empty_queue : Queue := {| qid := 1; maxsize := 100; items := [] |}.

(** Two readings of March 2026 with [temp_c] 22.22 and 16.5. *)
Definition march : datetime.t :=
  {| datetime.year := 2026; datetime.month := 3; datetime.posix_us := 0 |}.

Definition reading (id : Z) (temp_c : float) : DailyReading.t := {|
  DailyReading.id := id;
  DailyReading.timestamp := march;
  DailyReading.mac_address := "AA:BB";
  DailyReading.data := [("temp_c", VFloat temp_c)]
|}.

Definition two_readings : Db := {|
  daily_readings := [reading 1 22.22; reading 2 16.5];
  monthly_aggregates := [];
  yearly_aggregates := []
|}.

Definition temp_c_row : MonthlyAggregate.t := {|
  MonthlyAggregate.id := 1;
  MonthlyAggregate.mac_address := "AA:BB";
  MonthlyAggregate.year := 2026;
  MonthlyAggregate.month := 3;
  MonthlyAggregate.metric_name := "temp_c";
  MonthlyAggregate.min_value := 16.5;
  MonthlyAggregate.max_value := 22.22;
  MonthlyAggregate.avg_value := 19.36;
  MonthlyAggregate.count := 2
|}.

(** Readings of February and of March 2026, one of them of another
    device, and the rows of March and of the year that their recomputation
    writes for the device. *)
Definition february : datetime.t :=
  {| datetime.year := 2026; datetime.month := 2; datetime.posix_us := 0 |}.

Definition daily_row (id : Z) (mac_address : string) (ts : datetime.t)
  (data : dict) : DailyReading.t := {|
  DailyReading.id := id;
  DailyReading.timestamp := ts;
  DailyReading.mac_address := mac_address;
  DailyReading.data := data
|}.

Definition spring : Db := {|
  daily_readings :=
    [daily_row 1 "AA:BB" february
       [("temp_c", VFloat 30.5); ("humidity", VInt 70)];
     daily_row 2 "AA:BB" march
       [("temp_c", VFloat 16.5); ("humidity", VInt 40)];
     daily_row 3 "CC:DD" march [("temp_c", VFloat 99.5)];
     daily_row 4 "AA:BB" march
       [("temp_c", VFloat 22.22); ("humidity", VInt 41);
        ("date", VStr "2026-03-02")];
     daily_row 5 "AA:BB" march [("temp_c", VFloat 20)]];
  monthly_aggregates := [];
  yearly_aggregates := []
|}.


Definition spring_year_rows : list YearlyAggregate.t := [
  {| YearlyAggregate.id := 1;
     YearlyAggregate.mac_address := "AA:BB";
     YearlyAggregate.year := 2026;
     YearlyAggregate.metric_name := "temp_c";
     YearlyAggregate.min_value := 16.5;
     YearlyAggregate.max_value := 30.5;
     YearlyAggregate.avg_value := 22.3;
     YearlyAggregate.count := 4 |};
  {| YearlyAggregate.id := 2;
     YearlyAggregate.mac_address := "AA:BB";
     YearlyAggregate.year := 2026;
     YearlyAggregate.metric_name := "humidity";
     YearlyAggregate.min_value := 40;
     YearlyAggregate.max_value := 70;
     YearlyAggregate.avg_value := 50.33;
     YearlyAggregate.count := 3 |}
].

(** A reading whose [temp_c] is nan. *)
Definition nan_reading : Db := {|
  daily_readings := [daily_row 1 "AA:BB" march [("temp_c", VFloat nan)]];
  monthly_aggregates := [];
  yearly_aggregates := []
|}.

(** A tick whose GET is answered with status 429, and the world before
    the first tick. *)
Definition rate_limited : tick_input := {|
  outcome := Response 429 None;
  now_store := march;
  now_purge := march
|}.

Definition start : World :=
  {| db := Database.empty; broadcaster := Broadcast.init; trace := [] |}.

(** Settings with the API key and the device set, and no application key. *)
Definition no_application_key : Settings := {|
  awn_api_key := "api-key";
  awn_application_key := "";
  awn_mac_address := "AA:BB:CC:DD:EE:FF";
  collection_interval_seconds := 60;
  daily_retention_days := 7;
  database_url := "sqlite+aiosqlite:///./weather.db"
|}.

End Samples.

(** ** The converter, item by item *)

Module ConverterView.
Import Py Converter.

(** The key under which [convert_reading] writes the value of an input
    key: none for an excluded key, the renamed key of the table, or the key
    itself. *)
Definition output_key (key : string) : option string :=
  if set_mem key EXCLUDED_FIELDS then None
  else match dict_get key FIELD_CONVERSIONS with
       | Some (metric_key, _) => Some metric_key
       | None => Some key
       end.

(** The value [convert_reading] writes for an input item. *)
Definition output_value (key : string) (value : PyVal) : result PyVal :=
  match dict_get key FIELD_CONVERSIONS with
  | Some (_, Some fn) => if is_int_or_float value then fn value else Ok value
  | _ => Ok value
  end.

(** The output items of the input items, in the order of the input. *)
Fixpoint output_items (raw_data : dict) : result dict :=
  match raw_data with
  | [] => Ok []
  | (key, value) :: rest =>
      match output_key key with
      | None => output_items rest
      | Some out =>
          v <- output_value key value ;;
          items <- output_items rest ;;
          Ok ((out, v) :: items)
      end
  end.

(** The output keys of the input items. *)
Definition output_keys (raw_data : dict) : list string :=
  flat_map (fun kv => match output_key (fst kv) with
                      | Some out => [out]
                      | None => []
                      end) raw_data.

(** The test of [get_numeric_fields] on an item. *)
Definition is_numeric_field (kv : string * PyVal) : bool :=
  is_int_or_float (snd kv) && negb (set_mem (fst kv) NON_NUMERIC_FIELDS).

(** A raw reading of the station, with a metadata field. *)
Definition raw_sample : dict :=
  [("tempf", VFloat 72.0); ("windspeedmph", VInt 5);
   ("macAddress", VStr "AA:BB"); ("humidity", VInt 40);
   ("batteryVoltage", VFloat 3.1)].

End ConverterView.

(** ** The broadcaster over a run *)

Module BroadcastView.
Import Py Broadcast.

(** The queue of a subscriber in the registry. *)
Definition queue_of (id : nat) (queues : list Queue) : option Queue :=
  find (fun q => Nat.eqb (qid q) id) queues.

(** The registry of a running service: queues of capacity 100 that hold at
    most 100 items, with distinct identities, all handed out before
    [next_qid]. *)
Definition registry_ok (b : Broadcaster) : Prop :=
  Forall bounded (subscribers b)
  /\ NoDup (map qid (subscribers b))
  /\ Forall (fun q => (qid q < next_qid b)%nat) (subscribers b).

(** [publish] called for each reading of a list, in order. *)
Definition publish_many (b : Broadcaster) (readings : list dict)
  : result Broadcaster :=
  for_each publish readings b.

(** A queue after readings were published to it and none taken: what it
    held, then the readings, cut at 100. *)
Definition backlog (readings : list dict) (q : Queue) : Queue :=
  {| qid := qid q; maxsize := maxsize q;
     items := firstn 100 (items q ++ readings) |}.

(** What the loop of [subscribe] yields in its first [n] turns when
    nothing is published meanwhile. *)
Fixpoint deliveries (id : nat) (n : nat) (queues : list Queue) : list dict :=
  match n with
  | O => []
  | S n' =>
      match take id queues with
      | Some (data, queues') => data :: deliveries id n' queues'
      | None => []
      end
  end.

(** Three readings told apart by their temperature. *)
Definition reading_of (temp_c : float) : dict := [("temp_c", VFloat temp_c)].

Definition three_readings : list dict :=
  [reading_of 1; reading_of 2; reading_of 3].

End BroadcastView.

(** ** The collector: yearly rows, and the readings along a run *)

Module CollectorView.
Import Py Converter Config Database Collector Samples.

Definition temp_c_year_row : YearlyAggregate.t := {|
  YearlyAggregate.id := 1;
  YearlyAggregate.mac_address := "AA:BB";
  YearlyAggregate.year := 2026;
  YearlyAggregate.metric_name := "temp_c";
  YearlyAggregate.min_value := 16.5;
  YearlyAggregate.max_value := 22.22;
  YearlyAggregate.avg_value := 19.36;
  YearlyAggregate.count := 2
|}.

(** A row of February for the humidity, which the readings of March do
    not have. *)
Definition february_row : MonthlyAggregate.t := {|
  MonthlyAggregate.id := 7;
  MonthlyAggregate.mac_address := "AA:BB";
  MonthlyAggregate.year := 2026;
  MonthlyAggregate.month := 2;
  MonthlyAggregate.metric_name := "humidity";
  MonthlyAggregate.min_value := 30;
  MonthlyAggregate.max_value := 50;
  MonthlyAggregate.avg_value := 40;
  MonthlyAggregate.count := 2
|}.

(** The row of [temp_c] for March that a recomputation adds after it. *)
Definition march_row : MonthlyAggregate.t := {|
  MonthlyAggregate.id := 8;
  MonthlyAggregate.mac_address := "AA:BB";
  MonthlyAggregate.year := 2026;
  MonthlyAggregate.month := 3;
  MonthlyAggregate.metric_name := "temp_c";
  MonthlyAggregate.min_value := 16.5;
  MonthlyAggregate.max_value := 22.22;
  MonthlyAggregate.avg_value := 19.36;
  MonthlyAggregate.count := 2
|}.

Definition with_february : Db := {|
  daily_readings := daily_readings two_readings;
  monthly_aggregates := [february_row];
  yearly_aggregates := []
|}.

(** The readings table of a run: distinct primary keys, and every reading
    of the configured device. *)
Definition readings_ok (settings : Settings) (db : Db) : Prop :=
  NoDup (map DailyReading.id (daily_readings db))
  /\ Forall (fun r => DailyReading.mac_address r = awn_mac_address settings)
            (daily_readings db).

(** A status code that [raise_for_status] lets pass. *)
Definition is_success (status_code : Z) : Prop :=
  200 <= status_code < 300.

(** What a tick logs about the purge. *)
Definition purge_events (deleted : Z) : list event :=
  if deleted =? 0 then [] else [Log INFO "Purged %d old daily readings"].

(** The events of a run of ticks, given what each tick did before its
    closing sleep. *)
Definition paced (interval : Z) (per_tick : list (list event)) : list event :=
  List.concat (map (fun events => events ++ [Sleep interval]) per_tick).

(** A computation of the loop only adds to the trace. *)
Definition grows {A} (m : M A) : Prop :=
  forall w r w', m w = (r, w') -> exists events, trace w' = trace w ++ events.

(** Settings of a configured collector. *)
Definition configured : Settings := {|
  awn_api_key := "api-key";
  awn_application_key := "app-key";
  awn_mac_address := "AA:BB";
  collection_interval_seconds := 60;
  daily_retention_days := 7;
  database_url := "sqlite+aiosqlite:///./weather.db"
|}.



(** A tick that fetches the raw sample of the converter. *)
Definition fetches_sample : tick_input := {|
  outcome := Response 200 (Some (VList [VDict ConverterView.raw_sample]));
  now_store := march;
  now_purge := march
|}.

End CollectorView.

(** ** The query routes ([app/routes/daily.py]) *)

Module Routes.
Import Py Config Database Collector.

(** [mac_address or settings.awn_mac_address]: the query parameter when it
    is given and not empty, the configured device otherwise. *)
Definition device (settings : Settings) (mac_address : option string)
  : string :=
  match mac_address with
  | Some mac => if Main.truthy mac then mac else awn_mac_address settings
  | None => awn_mac_address settings
  end.

(** The where clauses of [get_daily_readings]: the device, and the bounds
    of the date range that are given. *)
Definition daily_where (mac : string) (start end_ : option datetime.t)
  (r : DailyReading.t) : bool :=
  String.eqb (DailyReading.mac_address r) mac
  && match start with
     | Some s => datetime.posix_us s <=? datetime.posix_us (DailyReading.timestamp r)
     | None => true
     end
  && match end_ with
     | Some e => datetime.posix_us (DailyReading.timestamp r) <=? datetime.posix_us e
     | None => true
     end.

Record PaginatedDailyResponse : Type := {
  items : list DailyReading.t;
  total : Z;
  limit : Z;
  offset : Z
}.

Section Daily.
(** What the engine returns for [ORDER BY timestamp DESC]; the order of
    readings with equal timestamps is the engine's choice. *)
Variable order_by_timestamp_desc : list DailyReading.t -> list DailyReading.t.

Definition get_daily_readings (settings : Settings) (db : Db)
  (mac_address : option string) (start end_ : option datetime.t)
  (limit offset : Z) : PaginatedDailyResponse :=
  let mac := device settings mac_address in
  let matching := filter (daily_where mac start end_) (daily_readings db) in
  {| items := firstn (Z.to_nat limit)
                (skipn (Z.to_nat offset) (order_by_timestamp_desc matching));
     total := py_len matching;
     limit := limit;
     offset := offset |}.

Definition get_latest_reading (settings : Settings) (db : Db)
  (mac_address : option string) : result (option DailyReading.t) :=
  let mac := device settings mac_address in
  scalar_one_or_none
    (firstn 1
       (order_by_timestamp_desc
          (filter (fun r => String.eqb (DailyReading.mac_address r) mac)
                  (daily_readings db)))).
End Daily.

(** Newest first. *)
Definition newer_or_equal (a b : DailyReading.t) : Prop :=
  datetime.posix_us (DailyReading.timestamp b)
  <= datetime.posix_us (DailyReading.timestamp a).

(** An engine that sorts by insertion, keeping the table order of equal
    timestamps. *)
Fixpoint insert_desc (r : DailyReading.t) (l : list DailyReading.t)
  : list DailyReading.t :=
  match l with
  | [] => [r]
  | x :: l' =>
      if datetime.posix_us (DailyReading.timestamp x)
         <? datetime.posix_us (DailyReading.timestamp r)
      then r :: x :: l'
      else x :: insert_desc r l'
  end.

Definition insertion_sort_desc (l : list DailyReading.t)
  : list DailyReading.t :=
  fold_right insert_desc [] l.

(** Three readings of one device, at the times 10, 30 and 20. *)
Definition at_time (id t : Z) : DailyReading.t := {|
  DailyReading.id := id;
  DailyReading.timestamp :=
    {| datetime.year := 2026; datetime.month := 3; datetime.posix_us := t |};
  DailyReading.mac_address := "AA:BB";
  DailyReading.data := []
|}.

Definition three_times : Db := {|
  daily_readings := [at_time 1 10; at_time 2 30; at_time 3 20];
  monthly_aggregates := [];
  yearly_aggregates := []
|}.

(** *** The aggregate routes ([app/routes/monthly.py], [yearly.py]) *)

(** [AggregateMetric]: the name and the statistics of a metric. *)
Record AggregateMetric : Type := {
  metric_name : string;
  min_value : float;
  max_value : float;
  avg_value : float;
  count : Z
}.

Record MonthlyAggregateResponse : Type := {
  monthly_mac_address : string;
  monthly_year : Z;
  monthly_month : Z;
  monthly_metrics : list AggregateMetric
}.

Record YearlyAggregateResponse : Type := {
  yearly_mac_address : string;
  yearly_year : Z;
  yearly_metrics : list AggregateMetric
}.

(** [grouped.setdefault(key, []).append(value)] for keys compared by
    [eqb]. *)
Fixpoint group_append {K V} (eqb : K -> K -> bool) (key : K) (value : V)
  (grouped : list (K * list V)) : list (K * list V) :=
  match grouped with
  | [] => [(key, [value])]
  | (k, values) :: rest =>
      if eqb key k then (k, values ++ [value]) :: rest
      else (k, values) :: group_append eqb key value rest
  end.

(** The loop that fills [grouped] from the rows. *)
Definition group_rows {K V Row} (eqb : K -> K -> bool) (key : Row -> K)
  (value : Row -> V) (rows : list Row) : list (K * list V) :=
  fold_left (fun grouped row => group_append eqb (key row) (value row) grouped)
            rows [].

(** What [grouped] holds once the rows [done] are in: the keys are pairwise
    distinct, each key has the values of its rows in their order, at least
    one, and every row has its key there. *)
Definition group_inv {K V Row} (eqb : K -> K -> bool) (key : Row -> K)
  (value : Row -> V) (done : list Row) (grouped : list (K * list V)) : Prop :=
  NoDup (map fst grouped)
  /\ (forall k vs,
         In (k, vs) grouped ->
         vs = map value (filter (fun r => eqb (key r) k) done) /\ vs <> [])
  /\ (forall r, In r done -> In (key r) (map fst grouped)).

(** The [AggregateMetric] built from a row: the floats of its columns. *)
Definition monthly_metric (row : MonthlyAggregate.t) : AggregateMetric := {|
  metric_name := MonthlyAggregate.metric_name row;
  min_value := MonthlyAggregate.min_value row;
  max_value := MonthlyAggregate.max_value row;
  avg_value := MonthlyAggregate.avg_value row;
  count := MonthlyAggregate.count row
|}.

Definition yearly_metric (row : YearlyAggregate.t) : AggregateMetric := {|
  metric_name := YearlyAggregate.metric_name row;
  min_value := YearlyAggregate.min_value row;
  max_value := YearlyAggregate.max_value row;
  avg_value := YearlyAggregate.avg_value row;
  count := YearlyAggregate.count row
|}.

(** The where clauses of [get_monthly_aggregates]: the device, the year
    (the given one, or else the current one) and the month when given. *)
Definition monthly_where (mac : string) (year : Z) (month : option Z)
  (a : MonthlyAggregate.t) : bool :=
  String.eqb (MonthlyAggregate.mac_address a) mac
  && (MonthlyAggregate.year a =? year)
  && match month with
     | Some m => MonthlyAggregate.month a =? m
     | None => true
     end.

Definition yearly_where (mac : string) (year : Z) (a : YearlyAggregate.t)
  : bool :=
  String.eqb (YearlyAggregate.mac_address a) mac
  && (YearlyAggregate.year a =? year).

Definition period_eqb (p q : Z * Z) : bool :=
  (fst p =? fst q) && (snd p =? snd q).

(** The year the query selects: [year], or the year of [datetime.now]. *)
Definition selected_year (year : option Z) (current_year : Z) : Z :=
  match year with
  | Some y => y
  | None => current_year
  end.

Section Aggregates.
(** What the engine returns for [ORDER BY year, month] and for
    [ORDER BY year]. *)
Variable order_by_year_month : list MonthlyAggregate.t -> list MonthlyAggregate.t.
Variable order_by_year : list YearlyAggregate.t -> list YearlyAggregate.t.

Definition get_monthly_aggregates (settings : Settings) (db : Db)
  (current_year : Z) (mac_address : option string) (year month : option Z)
  : list MonthlyAggregateResponse :=
  let mac := device settings mac_address in
  let rows :=
    order_by_year_month
      (filter (monthly_where mac (selected_year year current_year) month)
              (monthly_aggregates db)) in
  let grouped :=
    group_rows period_eqb
      (fun row => (MonthlyAggregate.year row, MonthlyAggregate.month row))
      monthly_metric rows in
  map (fun entry =>
         let '((year_val, month_val), metrics) := entry in
         {| monthly_mac_address := mac;
            monthly_year := year_val;
            monthly_month := month_val;
            monthly_metrics := metrics |})
      grouped.

Definition get_yearly_aggregates (settings : Settings) (db : Db)
  (current_year : Z) (mac_address : option string) (year : option Z)
  : list YearlyAggregateResponse :=
  let mac := device settings mac_address in
  let rows :=
    order_by_year
      (filter (yearly_where mac (selected_year year current_year))
              (yearly_aggregates db)) in
  let grouped :=
    group_rows Z.eqb YearlyAggregate.year yearly_metric rows in
  map (fun entry =>
         let '(year_val, metrics) := entry in
         {| yearly_mac_address := mac;
            yearly_year := year_val;
            yearly_metrics := metrics |})
      grouped.
End Aggregates.

(** Rows by period, the earlier first. *)
Definition period_le (a b : MonthlyAggregate.t) : Prop :=
  MonthlyAggregate.year a < MonthlyAggregate.year b
  \/ (MonthlyAggregate.year a = MonthlyAggregate.year b
      /\ MonthlyAggregate.month a <= MonthlyAggregate.month b).

(** The period of an entry of the monthly answer. *)
Definition period_of (e : MonthlyAggregateResponse) : Z * Z :=
  (monthly_year e, monthly_month e).

(** An engine for the examples: insertion sorts by period and by year. *)
Definition period_leb (a b : MonthlyAggregate.t) : bool :=
  (MonthlyAggregate.year a <? MonthlyAggregate.year b)
  || ((MonthlyAggregate.year a =? MonthlyAggregate.year b)
      && (MonthlyAggregate.month a <=? MonthlyAggregate.month b)).

Definition year_leb (a b : YearlyAggregate.t) : bool :=
  YearlyAggregate.year a <=? YearlyAggregate.year b.

Fixpoint insert_by {A} (leb : A -> A -> bool) (r : A) (l : list A) : list A :=
  match l with
  | [] => [r]
  | x :: l' => if leb r x then r :: l else x :: insert_by leb r l'
  end.

Definition sort_by {A} (leb : A -> A -> bool) (l : list A) : list A :=
  fold_right (insert_by leb) [] l.

(** Rows of two months of 2026, one of 2025 and one of another device, not
    in the order of the periods. *)
Definition march_humidity_row : MonthlyAggregate.t := {|
  MonthlyAggregate.id := 9;
  MonthlyAggregate.mac_address := "AA:BB";
  MonthlyAggregate.year := 2026;
  MonthlyAggregate.month := 3;
  MonthlyAggregate.metric_name := "humidity";
  MonthlyAggregate.min_value := 35;
  MonthlyAggregate.max_value := 55;
  MonthlyAggregate.avg_value := 45;
  MonthlyAggregate.count := 2
|}.

Definition last_year_row : MonthlyAggregate.t := {|
  MonthlyAggregate.id := 3;
  MonthlyAggregate.mac_address := "AA:BB";
  MonthlyAggregate.year := 2025;
  MonthlyAggregate.month := 12;
  MonthlyAggregate.metric_name := "humidity";
  MonthlyAggregate.min_value := 20;
  MonthlyAggregate.max_value := 60;
  MonthlyAggregate.avg_value := 40;
  MonthlyAggregate.count := 5
|}.

Definition other_device_row : MonthlyAggregate.t := {|
  MonthlyAggregate.id := 4;
  MonthlyAggregate.mac_address := "CC:DD";
  MonthlyAggregate.year := 2026;
  MonthlyAggregate.month := 3;
  MonthlyAggregate.metric_name := "temp_c";
  MonthlyAggregate.min_value := 1.5;
  MonthlyAggregate.max_value := 2.5;
  MonthlyAggregate.avg_value := 2;
  MonthlyAggregate.count := 2
|}.

Definition humidity_year_row : YearlyAggregate.t := {|
  YearlyAggregate.id := 2;
  YearlyAggregate.mac_address := "AA:BB";
  YearlyAggregate.year := 2026;
  YearlyAggregate.metric_name := "humidity";
  YearlyAggregate.min_value := 30;
  YearlyAggregate.max_value := 55;
  YearlyAggregate.avg_value := 42.5;
  YearlyAggregate.count := 4
|}.

Definition last_year_temp_row : YearlyAggregate.t := {|
  YearlyAggregate.id := 3;
  YearlyAggregate.mac_address := "AA:BB";
  YearlyAggregate.year := 2025;
  YearlyAggregate.metric_name := "temp_c";
  YearlyAggregate.min_value := 1.5;
  YearlyAggregate.max_value := 30.5;
  YearlyAggregate.avg_value := 15;
  YearlyAggregate.count := 9
|}.

Definition aggregated : Db := {|
  daily_readings := [];
  monthly_aggregates :=
    [CollectorView.march_row; last_year_row; CollectorView.february_row;
     other_device_row; march_humidity_row];
  yearly_aggregates :=
    [last_year_temp_row; CollectorView.temp_c_year_row; humidity_year_row]
|}.

End Routes.

(** * Properties *)

(** ** Results, loops and dicts *)

Module PyFacts.
Import Py.

Lemma bind_ok {A B} (r : result A) (k : A -> result B) (b : B) :
  bind r k = Ok b -> exists a, r = Ok a /\ k a = Ok b.
Proof.
  destruct r as [a|e]; simpl; intros H; [eauto | discriminate].
Qed.

Lemma for_each_app {A S} (body : S -> A -> result S) (xs ys : list A) (s : S) :
  for_each body (xs ++ ys) s = (s' <- for_each body xs s ;; for_each body ys s').
Proof.
  revert s. induction xs as [|x xs IH]; intros s; simpl; [reflexivity|].
  destruct (body s x) as [s'|e]; simpl; [apply IH | reflexivity].
Qed.

(** A property of the loop state that every turn keeps holds at the end. *)
Lemma for_each_invariant {A S} (P : S -> Prop) (body : S -> A -> result S) :
  (forall s x s', P s -> body s x = Ok s' -> P s') ->
  forall xs s s', P s -> for_each body xs s = Ok s' -> P s'.
Proof.
  intros Hbody xs. induction xs as [|x xs IH]; simpl; intros s s' Hs H.
  - now inversion H; subst.
  - apply bind_ok in H as (s1 & H1 & H2). eauto.
Qed.

Section DictFacts.
Context {V : Type}.
Implicit Types (d : list (string * V)) (k : string) (v : V).

Lemma dict_get_set_same k v d : dict_get k (dict_set k v d) = Some v.
Proof.
  induction d as [|[k' v'] d IH]; simpl.
  - now rewrite String.eqb_refl.
  - destruct (String.eqb k k') eqn:E; simpl; rewrite ?String.eqb_refl, ?E; auto.
Qed.

Lemma dict_get_set_other k k' v d :
  k <> k' -> dict_get k (dict_set k' v d) = dict_get k d.
Proof.
  intros Hne. induction d as [|[k1 v1] d IH]; simpl.
  - apply String.eqb_neq in Hne. now rewrite Hne.
  - destruct (String.eqb k' k1) eqn:E; simpl.
    + apply String.eqb_eq in E; subst k1.
      apply String.eqb_neq in Hne. now rewrite Hne.
    + now rewrite IH.
Qed.

Lemma dict_keys_set k v d :
  forall k', In k' (dict_keys (dict_set k v d)) -> k' = k \/ In k' (dict_keys d).
Proof.
  unfold dict_keys.
  induction d as [|[k1 v1] d IH]; simpl; intros k' H.
  - destruct H as [H|[]]; auto.
  - destruct (String.eqb k k1) eqn:E; simpl in H.
    + destruct H as [H|H]; auto.
    + destruct H as [H|H]; auto. destruct (IH _ H); auto.
Qed.

Lemma dict_get_In k v d : dict_get k d = Some v -> In (k, v) d.
Proof.
  induction d as [|[k' v'] d IH]; simpl; [discriminate|].
  destruct (String.eqb k k') eqn:E; intros H.
  - apply String.eqb_eq in E. inversion H; subst; auto.
  - auto.
Qed.

Lemma dict_get_None k d : ~ In k (dict_keys d) -> dict_get k d = None.
Proof.
  unfold dict_keys.
  induction d as [|[k' v'] d IH]; simpl; intros H; [reflexivity|].
  destruct (String.eqb k k') eqn:E.
  - apply String.eqb_eq in E. subst. tauto.
  - apply IH. tauto.
Qed.
End DictFacts.

Lemma set_mem_In k s : set_mem k s = true <-> In k s.
Proof.
  unfold set_mem. rewrite existsb_exists. split.
  - intros (x & Hx & E). apply String.eqb_eq in E. now subst.
  - intros H. exists k. split; [assumption | apply String.eqb_refl].
Qed.

End PyFacts.

(** ** The converter *)

Module ConverterSpec.
Import Py PyFacts Converter.

(** *** The table *)

Lemma metric_keys_checked :
  forallb (fun row => negb (set_mem (fst (snd row)) EXCLUDED_FIELDS))
          FIELD_CONVERSIONS = true.
Proof. vm_compute. reflexivity. Qed.

Lemma table_keys_checked :
  forallb (fun row => negb (set_mem (fst row) EXCLUDED_FIELDS))
          FIELD_CONVERSIONS = true.
Proof. vm_compute. reflexivity. Qed.

Lemma metric_key_not_excluded key metric_key fn :
  dict_get key FIELD_CONVERSIONS = Some (metric_key, fn) ->
  set_mem metric_key EXCLUDED_FIELDS = false.
Proof.
  intros H. apply dict_get_In in H.
  pose proof metric_keys_checked as C. rewrite forallb_forall in C.
  apply C in H. simpl in H. now apply negb_true_iff in H.
Qed.

Lemma table_key_not_excluded key row :
  dict_get key FIELD_CONVERSIONS = Some row ->
  set_mem key EXCLUDED_FIELDS = false.
Proof.
  intros H. apply dict_get_In in H.
  pose proof table_keys_checked as C. rewrite forallb_forall in C.
  apply C in H. simpl in H. now apply negb_true_iff in H.
Qed.

(** Every transform of the table is one of the four conversion functions. *)
Lemma table_transforms key metric_key fn :
  dict_get key FIELD_CONVERSIONS = Some (metric_key, Some fn) ->
  exists c, fn = fn_of c.
Proof.
  intros H. apply dict_get_In in H. unfold FIELD_CONVERSIONS in H.
  repeat (destruct H as [H|H];
          [ inversion H;
            first [ now exists FahrenheitToCelsius | now exists MphToKmh
                  | now exists InHgToHPa | now exists InchesToMm ] | ]).
  destruct H.
Qed.

(** *** What one item does to the output *)

Lemma convert_reading_item before item after :
  convert_reading (before ++ item :: after)
  = (converted <- convert_reading before ;;
     converted' <- convert_item converted item ;;
     for_each convert_item after converted').
Proof.
  unfold convert_reading. rewrite for_each_app. reflexivity.
Qed.

Lemma convert_item_transformed key metric_key fn value converted :
  dict_get key FIELD_CONVERSIONS = Some (metric_key, Some fn) ->
  is_int_or_float value = true ->
  convert_item converted (key, value)
  = (r <- fn value ;; Ok (dict_set metric_key r converted)).
Proof.
  intros Hk Hv. unfold convert_item.
  rewrite (table_key_not_excluded _ _ Hk), Hk, Hv. reflexivity.
Qed.

Lemma convert_item_untransformed key metric_key fn value converted :
  dict_get key FIELD_CONVERSIONS = Some (metric_key, Some fn) ->
  is_int_or_float value = false ->
  convert_item converted (key, value) = Ok (dict_set metric_key value converted).
Proof.
  intros Hk Hv. unfold convert_item.
  rewrite (table_key_not_excluded _ _ Hk), Hk, Hv. reflexivity.
Qed.

(** *** The four conversion functions and the documented formulas *)

Lemma float_of_32 : float_of_int 32 = Ok 32%float.
Proof. vm_compute. reflexivity. Qed.

Lemma float_of_5 : float_of_int 5 = Ok 5%float.
Proof. vm_compute. reflexivity. Qed.

Lemma float_of_9 : float_of_int 9 = Ok 9%float.
Proof. vm_compute. reflexivity. Qed.

Lemma as_num_numeric v : is_int_or_float v = true -> exists n, as_num v = Ok n.
Proof. destruct v; simpl; intros H; try discriminate; eauto. Qed.

Lemma fahrenheit_to_celsius_formula v n :
  as_num v = Ok n ->
  fahrenheit_to_celsius v = rounded_formula FahrenheitToCelsius v.
Proof.
  intros Hn.
  unfold rounded_formula, fahrenheit_to_celsius, py_sub, py_mul, py_truediv, arith.
  rewrite Hn. destruct n as [z|f]; cbn [bind as_num to_float representable].
  - change (Z.abs 9) with 9. change (9 =? 0) with false. cbv iota.
    destruct (Z.abs ((z - 32) * 5) <? float_max_int * 9); reflexivity.
  - rewrite float_of_32. cbn [bind as_num to_float].
    rewrite float_of_5. cbn [bind as_num to_float].
    rewrite float_of_9. cbn [bind num_is_zero]. reflexivity.
Qed.

Lemma scaled_formula (k : float) v n :
  as_num v = Ok n ->
  (a <- py_mul v (VFloat k) ;; py_round2 a)
  = match n with
    | NInt z =>
        if Z.abs z <? float_max_int
        then Ok (VFloat (round2_float (nearest_float z * k)))
        else Raise OverflowError
    | NFloat f => Ok (VFloat (round2_float (f * k)))
    end.
Proof.
  intros Hn. unfold py_mul, arith. rewrite Hn.
  destruct n as [z|f]; cbn [bind as_num to_float]; [|reflexivity].
  unfold float_of_int. destruct (Z.abs z <? float_max_int); reflexivity.
Qed.

Lemma conversion_formula c v :
  is_int_or_float v = true -> fn_of c v = rounded_formula c v.
Proof.
  intros Hv. destruct (as_num_numeric v Hv) as [n Hn].
  destruct c; cbn [fn_of].
  - now apply fahrenheit_to_celsius_formula with n.
  - unfold mph_to_kmh, rounded_formula.
    rewrite (scaled_formula _ v n Hn), Hn. now destruct n.
  - unfold inhg_to_hpa, rounded_formula.
    rewrite (scaled_formula _ v n Hn), Hn. now destruct n.
  - unfold inches_to_mm, rounded_formula.
    rewrite (scaled_formula _ v n Hn), Hn. now destruct n.
Qed.

(** *** What the specification states of the converter *)

(** C1. A key of the conversion table that has a transform (one of the four
    conversion functions), met with any numeric value (a float, an int or a
    bool), puts under the renamed key the documented formula of that
    conversion rounded to two decimals:
    converting the one field gives that one entry, and wherever the item
    stands in a raw reading, what it does to the output is that one
    assignment.  (On an int beyond the range of binary64 the formula itself
    raises [OverflowError], and so does the conversion.)  In particular
    [tempf = 72.0] gives [temp_c = 22.22], [windspeedmph = 5] gives
    [wind_speed_kmh = 8.05] and [baromrelin = 30.0] gives
    [barom_rel_hpa = 1015.92]. *)
Theorem convert_applies_documented_formula :
  (forall key metric_key fn,
      dict_get key FIELD_CONVERSIONS = Some (metric_key, Some fn) ->
      exists c, fn = fn_of c /\ forall value,
        is_int_or_float value = true ->
        convert_reading [(key, value)]
        = (r <- rounded_formula c value ;; Ok [(metric_key, r)])
        /\ forall before after,
            convert_reading (before ++ (key, value) :: after)
            = (converted <- convert_reading before ;;
               r <- rounded_formula c value ;;
               for_each convert_item after (dict_set metric_key r converted)))
  /\ convert_reading [("tempf", VFloat 72.0)] = Ok [("temp_c", VFloat 22.22)]
  /\ convert_reading [("windspeedmph", VInt 5)]
     = Ok [("wind_speed_kmh", VFloat 8.05)]
  /\ convert_reading [("baromrelin", VFloat 30.0)]
     = Ok [("barom_rel_hpa", VFloat 1015.92)].
Proof.
  split; [|repeat split; vm_compute; reflexivity].
  intros key metric_key fn Hk.
  destruct (table_transforms _ _ _ Hk) as [c ->]. exists c.
  split; [reflexivity|]. intros value Hv.
  assert (forall converted,
             convert_item converted (key, value)
             = (r <- rounded_formula c value ;;
                Ok (dict_set metric_key r converted))) as Hitem.
  { intros converted.
    rewrite (convert_item_transformed _ _ _ _ _ Hk Hv).
    now rewrite (conversion_formula c value Hv). }
  split.
  - unfold convert_reading. cbn [for_each]. rewrite Hitem.
    destruct (rounded_formula c value); reflexivity.
  - intros before after. rewrite convert_reading_item.
    destruct (convert_reading before) as [converted|e]; cbn [bind]; [|reflexivity].
    rewrite Hitem. destruct (rounded_formula c value); reflexivity.
Qed.

Lemma convert_applies_documented_formula_witness :
  exists c,
    convert_reading [("dailyrainin", VInt 2)]
    = (r <- rounded_formula c (VInt 2) ;; Ok [("daily_rain_mm", r)]).
Proof.
  destruct convert_applies_documented_formula as [H _].
  destruct (H "dailyrainin" "daily_rain_mm" inches_to_mm eq_refl) as [c Hc].
  exists c. exact (proj1 (proj2 Hc (VInt 2) eq_refl)).
Defined.

(** An int too large for a float makes the conversion raise. *)
Example convert_huge_int :
  convert_reading [("windspeedmph", VInt (10 ^ 400))] = Raise OverflowError.
Proof. vm_compute. reflexivity. Qed.

Lemma no_excluded_key_set key value converted :
  set_mem key EXCLUDED_FIELDS = false ->
  no_excluded_key converted -> no_excluded_key (dict_set key value converted).
Proof.
  intros Hk Hc k' Hin. apply dict_keys_set in Hin as [->|Hin]; auto.
Qed.

Lemma convert_item_no_excluded_key converted item converted' :
  no_excluded_key converted ->
  convert_item converted item = Ok converted' ->
  no_excluded_key converted'.
Proof.
  intros Hc. destruct item as [key value]. unfold convert_item.
  destruct (set_mem key EXCLUDED_FIELDS) eqn:Hex.
  - intros H. now inversion H; subst.
  - destruct (dict_get key FIELD_CONVERSIONS) as [[metric_key [fn|]]|] eqn:Hk.
    + pose proof (metric_key_not_excluded _ _ _ Hk) as Hm.
      destruct (is_int_or_float value).
      * intros H. apply bind_ok in H as (r & _ & H).
        inversion H; subst. now apply no_excluded_key_set.
      * intros H. inversion H; subst. now apply no_excluded_key_set.
    + pose proof (metric_key_not_excluded _ _ _ Hk) as Hm.
      intros H. inversion H; subst. now apply no_excluded_key_set.
    + intros H. inversion H; subst. now apply no_excluded_key_set.
Qed.

(** C7. Whatever the raw reading, no key of the excluded set (macAddress,
    device, loc, lastRain) is a key of the converted output. *)
Theorem excluded_keys_never_in_output raw_data converted key :
  In key EXCLUDED_FIELDS ->
  convert_reading raw_data = Ok converted ->
  ~ In key (dict_keys converted) /\ dict_get key converted = None.
Proof.
  intros Hex Hconv.
  assert (no_excluded_key converted) as Hinv.
  { refine (for_each_invariant no_excluded_key convert_item
              convert_item_no_excluded_key raw_data [] converted _ Hconv).
    intros k []. }
  assert (~ In key (dict_keys converted)) as Hnot.
  { intros Hin. apply Hinv in Hin.
    apply set_mem_In in Hex. congruence. }
  split; [assumption | now apply dict_get_None].
Qed.

Lemma excluded_keys_never_in_output_witness :
  dict_get "macAddress"
    [("temp_c", VFloat 22.22); ("wind_speed_kmh", VFloat 8.05)] = None.
Proof.
  refine (proj2 (excluded_keys_never_in_output
                   [("tempf", VFloat 72.0); ("windspeedmph", VInt 5);
                    ("macAddress", VStr "AA:BB")]
                   [("temp_c", VFloat 22.22); ("wind_speed_kmh", VFloat 8.05)]
                   "macAddress" _ _)).
  - simpl. left. reflexivity.
  - vm_compute. reflexivity.
Defined.

(** C8. A key of the conversion table that has a transform, met with a
    value that is not a number, puts the value itself under the renamed key:
    wherever the item stands in the raw reading, what it does to the output
    is that one assignment, and the transform is not applied. *)
Theorem non_numeric_value_passes_through key metric_key fn value :
  dict_get key FIELD_CONVERSIONS = Some (metric_key, Some fn) ->
  is_int_or_float value = false ->
  convert_reading [(key, value)] = Ok [(metric_key, value)]
  /\ (forall before after,
        convert_reading (before ++ (key, value) :: after)
        = (converted <- convert_reading before ;;
           for_each convert_item after (dict_set metric_key value converted)))
  /\ (forall before converted,
        convert_reading before = Ok converted ->
        exists out,
          convert_reading (before ++ [(key, value)]) = Ok out
          /\ dict_get metric_key out = Some value).
Proof.
  intros Hk Hv.
  pose proof (fun converted =>
                convert_item_untransformed _ _ _ _ converted Hk Hv) as Hitem.
  split; [|split].
  - unfold convert_reading. cbn [for_each]. rewrite Hitem. reflexivity.
  - intros before after. rewrite convert_reading_item.
    destruct (convert_reading before) as [converted|e]; cbn [bind]; [|reflexivity].
    rewrite Hitem. reflexivity.
  - intros before converted Hb. exists (dict_set metric_key value converted).
    rewrite convert_reading_item, Hb. cbn [bind]. rewrite Hitem.
    split; [reflexivity | apply dict_get_set_same].
Qed.

Lemma non_numeric_value_passes_through_witness :
  convert_reading [("tempf", VStr "n/a")] = Ok [("temp_c", VStr "n/a")].
Proof.
  refine (proj1 (non_numeric_value_passes_through
                   "tempf" "temp_c" fahrenheit_to_celsius (VStr "n/a") _ _)).
  - reflexivity.
  - reflexivity.
Defined.

End ConverterSpec.

(** ** The broadcaster *)

Module BroadcastSpec.
Import Py PyFacts Broadcast Samples.

Lemma publish_one_total data queue :
  publish_one data queue = Ok (if full queue then queue else enqueue queue data).
Proof.
  unfold publish_one, put_nowait. destruct (full queue); reflexivity.
Qed.

Lemma publish_all_total data queues :
  publish_all data queues
  = Ok (map (fun q => if full q then q else enqueue q data) queues).
Proof.
  induction queues as [|q queues IH]; simpl; [reflexivity|].
  rewrite publish_one_total, IH. reflexivity.
Qed.

Lemma publish_total b data :
  publish b data
  = Ok {| subscribers :=
            map (fun q => if full q then q else enqueue q data) (subscribers b);
          next_qid := next_qid b |}.
Proof. unfold publish. rewrite publish_all_total. reflexivity. Qed.

Lemma full_capacity_100 q :
  maxsize q = 100 -> full q = (100 <=? qsize q).
Proof. unfold full. intros ->. reflexivity. Qed.

Lemma qsize_enqueue q data : qsize (enqueue q data) = qsize q + 1.
Proof.
  unfold qsize, py_len, enqueue. simpl. rewrite length_app. simpl. lia.
Qed.

Lemma take_bounded id queues data queues' :
  Forall bounded queues -> take id queues = Some (data, queues') ->
  Forall bounded queues'.
Proof.
  revert queues'. induction queues as [|q queues IH]; simpl; intros queues' Hb H.
  - discriminate.
  - inversion Hb as [|? ? Hq Hrest]; subst.
    destruct (Nat.eqb (qid q) id).
    + unfold get in H. destruct (items q) as [|d rest] eqn:E; [discriminate|].
      inversion H; subst. constructor; [|assumption].
      destruct Hq as [Hm Hs]. unfold bounded, qsize, py_len in *.
      cbn [items maxsize]. rewrite E in Hs. cbn [List.length] in Hs.
      split; [assumption | lia].
    + destruct (take id queues) as [[d rest]|] eqn:E; [|discriminate].
      inversion H; subst. constructor; eauto.
Qed.

Lemma remove_bounded id queues queues' :
  Forall bounded queues -> remove id queues = Ok queues' ->
  Forall bounded queues'.
Proof.
  revert queues'. induction queues as [|q queues IH]; simpl; intros queues' Hb H.
  - discriminate.
  - inversion Hb as [|? ? Hq Hrest]; subst.
    destruct (Nat.eqb (qid q) id).
    + now inversion H; subst.
    + apply bind_ok in H as (rest & Hrem & H). inversion H; subst.
      constructor; eauto.
Qed.

Lemma step_bounded b o b' :
  Forall bounded (subscribers b) -> step b o = Ok b' ->
  Forall bounded (subscribers b').
Proof.
  intros Hb. destruct o as [|data|id|id]; simpl.
  - intros H. inversion H; subst. simpl.
    apply Forall_app. split; [assumption|].
    constructor; [|constructor]. split; [reflexivity|]. unfold qsize, py_len. simpl. lia.
  - rewrite publish_total. intros H. inversion H; subst. simpl.
    apply Forall_map. eapply Forall_impl; [|exact Hb].
    intros q [Hm Hs]. rewrite (full_capacity_100 q Hm).
    destruct (Z.leb_spec 100 (qsize q)); [now split|].
    split; [assumption|]. rewrite qsize_enqueue. lia.
  - destruct (take id (subscribers b)) as [[d queues]|] eqn:E.
    + intros H. inversion H; subst. simpl. eapply take_bounded; eauto.
    + intros H. now inversion H; subst.
  - unfold cleanup. intros H. apply bind_ok in H as (queues & Hrem & H).
    inversion H; subst. simpl. eapply remove_bounded; eauto.
Qed.

(** Every registry a run of the service reaches holds bounded queues. *)
Lemma run_bounded ops b : run ops = Ok b -> Forall bounded (subscribers b).
Proof.
  unfold run.
  apply (for_each_invariant (fun b => Forall bounded (subscribers b)) step).
  - intros s x s' Hs Hstep. eapply step_bounded; eauto.
  - constructor.
Qed.

(** C4. Whatever the registry of queues of capacity 100 and whatever the
    reading, [publish] returns without raising; each queue that holds fewer
    than 100 readings gets the reading appended, each queue that already
    holds 100 is left as it is, each of them whatever the state of the
    others; with no subscriber the broadcaster is unchanged. *)
Theorem publish_drops_only_for_full_queues b data :
  Forall (fun q => maxsize q = 100) (subscribers b) ->
  exists b',
    publish b data = Ok b'
    /\ subscribers b'
       = map (fun q => if qsize q <? 100 then enqueue q data else q)
             (subscribers b)
    /\ (forall q, In q (subscribers b) -> 100 <= qsize q ->
                  In q (subscribers b'))
    /\ (forall q, In q (subscribers b) -> qsize q < 100 ->
                  In (enqueue q data) (subscribers b'))
    /\ (subscribers b = [] -> b' = b).
Proof.
  intros Hcap. rewrite publish_total. eexists. split; [reflexivity|].
  assert (map (fun q => if full q then q else enqueue q data) (subscribers b)
          = map (fun q => if qsize q <? 100 then enqueue q data else q)
                (subscribers b)) as Hmap.
  { apply map_ext_in. intros q Hq.
    rewrite Forall_forall in Hcap. rewrite (full_capacity_100 q (Hcap q Hq)).
    destruct (Z.leb_spec 100 (qsize q)), (Z.ltb_spec (qsize q) 100);
      try reflexivity; lia. }
  simpl. rewrite Hmap. split; [reflexivity|]. repeat split.
  - intros q Hq Hfull. apply in_map_iff. exists q. split; [|assumption].
    destruct (Z.ltb_spec (qsize q) 100); [lia | reflexivity].
  - intros q Hq Hroom. apply in_map_iff. exists q. split; [|assumption].
    destruct (Z.ltb_spec (qsize q) 100); [reflexivity | lia].
  - intros Hnone. destruct b as [queues n]. simpl in *. subst queues. reflexivity.
Qed.

Lemma publish_drops_only_for_full_queues_witness :
  exists b',
    publish {| subscribers := [full_queue; empty_queue]; next_qid := 2 |} sample
    = Ok b'
    /\ subscribers b'
       = [full_queue; {| qid := 1; maxsize := 100; items := [sample] |}].
Proof.
  destruct (publish_drops_only_for_full_queues
              {| subscribers := [full_queue; empty_queue]; next_qid := 2 |}
              sample) as (b' & Hpub & Hsubs & _).
  - repeat constructor.
  - exists b'. split; [exact Hpub|]. rewrite Hsubs. reflexivity.
Defined.

(** After 100 publishes to a subscriber that takes nothing, the 101st is
    dropped and leaves the registry as it was. *)
Example publish_101st_dropped :
  forall b,
    run (Subscribe :: repeat (Publish sample) 100) = Ok b ->
    subscribers b = [full_queue] /\ publish b sample = Ok b.
Proof.
  intros b H. vm_compute in H. inversion H; subst. split; reflexivity.
Qed.

(** C10. [publish] leaves the registry itself as it was: the same queue
    objects in the same order with the same capacities, hence the same
    subscriber count; only the items of the queues can differ. *)
Theorem publish_preserves_registry b data :
  exists b',
    publish b data = Ok b'
    /\ map qid (subscribers b') = map qid (subscribers b)
    /\ map maxsize (subscribers b') = map maxsize (subscribers b)
    /\ subscriber_count b' = subscriber_count b
    /\ next_qid b' = next_qid b.
Proof.
  rewrite publish_total. eexists. split; [reflexivity|]. simpl.
  repeat split.
  - rewrite map_map. apply map_ext. intros q. now destruct (full q).
  - rewrite map_map. apply map_ext. intros q. now destruct (full q).
  - unfold subscriber_count, py_len. simpl. now rewrite length_map.
Qed.

End BroadcastSpec.

(** ** Binary64 facts *)

Module FloatFacts.
Import Py Collector.

(** *** Rounding never makes a nan *)

Lemma shr_1_nonneg mrs : 0 <= shr_m mrs -> 0 <= shr_m (shr_1 mrs).
Proof.
  destruct mrs as [m r s]. simpl.
  destruct m as [|[p|p|]|p]; simpl; lia.
Qed.

Lemma iter_shr_1_nonneg p : forall mrs,
  0 <= shr_m mrs -> 0 <= shr_m (iter_pos shr_1 p mrs).
Proof.
  induction p as [p IH|p IH|]; intros mrs H; simpl.
  - apply IH, IH. now apply shr_1_nonneg.
  - now apply IH, IH.
  - now apply shr_1_nonneg.
Qed.

Lemma shr_fexp_nonneg m e l :
  0 <= m -> 0 <= shr_m (fst (shr_fexp prec emax m e l)).
Proof.
  intros H. unfold shr_fexp, shr.
  assert (0 <= shr_m (shr_record_of_loc m l)) as H0.
  { destruct l as [|[| |]]; exact H. }
  destruct (_ - e); simpl; try assumption.
  now apply iter_shr_1_nonneg.
Qed.

Lemma round_nearest_even_nonneg m l : 0 <= m -> 0 <= round_nearest_even m l.
Proof.
  intros H. unfold round_nearest_even.
  destruct l as [|[| |]]; try destruct (Z.even m); lia.
Qed.

Lemma binary_round_aux_not_nan sx mx ex lx :
  0 <= mx -> binary_round_aux prec emax sx mx ex lx <> S754_nan.
Proof.
  intros H. unfold binary_round_aux.
  pose proof (shr_fexp_nonneg mx ex lx H) as H1.
  destruct (shr_fexp prec emax mx ex lx) as [mrs' e']. simpl in H1.
  pose proof (shr_fexp_nonneg _ e' loc_Exact
                (round_nearest_even_nonneg _ (loc_of_shr_record mrs') H1)) as H2.
  destruct (shr_fexp prec emax _ e' loc_Exact) as [mrs'' e'']. simpl in H2.
  destruct (shr_m mrs'') as [|m|m]; [discriminate| |lia].
  destruct (e'' <=? emax - prec); discriminate.
Qed.

Lemma binary_round_not_nan sx mx ex : binary_round prec emax sx mx ex <> S754_nan.
Proof.
  unfold binary_round. destruct (shl_align _ _ _) as [mz ez].
  apply binary_round_aux_not_nan. lia.
Qed.

Lemma binary_normalize_not_nan m e szero :
  binary_normalize prec emax m e szero <> S754_nan.
Proof.
  destruct m; simpl; [discriminate | apply binary_round_not_nan ..].
Qed.

(** *** nan, seen through [Prim2SF] *)

Lemma SFcompare_refl x : x <> S754_nan -> SFcompare x x = Some Eq.
Proof.
  destruct x as [s|s| |s m e]; simpl; intros H; try congruence.
  - now destruct s.
  - rewrite Z.compare_refl, Pos.compare_cont_refl. now destruct s.
Qed.

Lemma is_nan_spec f : is_nan f = true <-> Prim2SF f = S754_nan.
Proof.
  unfold is_nan. rewrite eqb_spec. unfold SFeqb. split.
  - intros H. destruct (Prim2SF f) as [s|s| |s m e] eqn:E; try reflexivity;
      rewrite SFcompare_refl in H by discriminate; discriminate.
  - intros ->. reflexivity.
Qed.

Lemma is_nan_false f : is_nan f = false <-> Prim2SF f <> S754_nan.
Proof.
  rewrite <- is_nan_spec. destruct (is_nan f); split; congruence.
Qed.

Lemma SF2Prim_not_nan x : x <> S754_nan -> Prim2SF (SF2Prim x) <> S754_nan.
Proof.
  intros H. destruct x as [[|]|[|]| |s m e]; try (vm_compute; discriminate);
    [congruence|].
  unfold SF2Prim.
  assert (Prim2SF (Z.ldexp (of_uint63 (Uint63Axioms.of_Z (Z.pos m))) e)
          <> S754_nan) as Hf.
  { unfold Z.ldexp. rewrite ldshiftexp_spec, of_uint63_spec. unfold SFldexp.
    pose proof (binary_normalize_not_nan
                  (Uint63Axioms.to_Z (Uint63Axioms.of_Z (Z.pos m))) 0 false) as Hn.
    destruct (binary_normalize _ _ _ _ _) as [s0|s0| |s0 m0 e0];
      try congruence; try discriminate.
    apply binary_round_not_nan. }
  destruct s; [|exact Hf].
  rewrite opp_spec. destruct (Prim2SF _); simpl; congruence.
Qed.


(** *** Sums and quotients of numbers that are not nan *)

Lemma finite_not_nan f : finite f = true -> not_nan f.
Proof. unfold finite, not_nan. now destruct (Prim2SF f). Qed.

Lemma add_not_nan f g : not_nan f -> finite g = true -> not_nan (f + g)%float.
Proof.
  unfold not_nan, finite. rewrite add_spec. unfold SF64add.
  destruct (Prim2SF f) as [s1|s1| |s1 m1 e1], (Prim2SF g) as [s2|s2| |s2 m2 e2];
    intros Hf Hg; try discriminate; try congruence; cbn [SFadd].
  - destruct s1, s2; discriminate.
  - apply binary_normalize_not_nan.
Qed.

Lemma add_finite_not_nan f g :
  finite f = true -> not_nan g -> not_nan (f + g)%float.
Proof.
  unfold not_nan, finite. rewrite add_spec. unfold SF64add.
  destruct (Prim2SF f) as [s1|s1| |s1 m1 e1], (Prim2SF g) as [s2|s2| |s2 m2 e2];
    intros Hf Hg; try discriminate; try congruence; cbn [SFadd].
  - destruct s1, s2; discriminate.
  - apply binary_normalize_not_nan.
Qed.

Lemma SFdiv_finite_not_nan sx mx ex sy my ey :
  SFdiv prec emax (S754_finite sx mx ex) (S754_finite sy my ey) <> S754_nan.
Proof.
  cbn [SFdiv]. unfold SFdiv_core_binary.
  set (m' := match _ - _ with Z.pos _ => _ | Z0 => _ | Z.neg _ => _ end).
  assert (0 <= m') as Hm.
  { unfold m'. destruct (_ - _); try lia. apply Z.shiftl_nonneg. lia. }
  pose proof (Z.div_pos m' (Z.pos my) Hm ltac:(lia)) as Hq.
  unfold Z.div in Hq. destruct (Z.div_eucl m' (Z.pos my)) as [q r].
  apply binary_round_aux_not_nan. exact Hq.
Qed.

Lemma div_not_nan f g :
  not_nan f -> (exists s m e, Prim2SF g = S754_finite s m e) ->
  not_nan (f / g)%float.
Proof.
  unfold not_nan. rewrite div_spec. unfold SF64div.
  intros Hf (s & m & e & ->).
  destruct (Prim2SF f) as [s1|s1| |s1 m1 e1]; try congruence;
    try (cbn [SFdiv]; discriminate).
  apply SFdiv_finite_not_nan.
Qed.

Lemma int_quotient_not_nan i j : j <> 0 -> not_nan (int_quotient i j).
Proof.
  unfold int_quotient, not_nan. intros Hj.
  destruct i; [vm_compute; discriminate| |];
    (destruct j; [congruence| |]); apply SF2Prim_not_nan, SFdiv_finite_not_nan.
Qed.

Lemma round2_float_not_nan x : not_nan x -> not_nan (round2_float x).
Proof.
  unfold not_nan, round2_float. intros H.
  destruct (Prim2SF x) as [s|s| |s m e] eqn:E; try (rewrite E; congruence).
  destruct (round_half_even _ _).
  - destruct s; vm_compute; discriminate.
  - apply SF2Prim_not_nan, SFdiv_finite_not_nan.
  - destruct s; vm_compute; discriminate.
Qed.

(** *** The float of an int below [2^53] *)

Lemma digits2_pos_iter_xO k p :
  Z.pos (digits2_pos (Pos.iter xO p k)) = Z.pos (digits2_pos p) + Z.pos k.
Proof.
  induction k as [|k IH] using Pos.peano_ind.
  - simpl. lia.
  - rewrite Pos.iter_succ. cbn [digits2_pos]. lia.
Qed.

(** A mantissa of 53 digits is kept as it is. *)
Lemma binary_round_aux_exact s m e :
  Z.pos (digits2_pos m) = 53 -> -1074 <= e <= 971 ->
  binary_round_aux prec emax s (Z.pos m) e loc_Exact = S754_finite s m e.
Proof.
  intros Hd He.
  assert (shr_fexp prec emax (Z.pos m) e loc_Exact
          = ({| shr_m := Z.pos m; shr_r := false; shr_s := false |}, e)) as Hs.
  { unfold shr_fexp, fexp, SpecFloat.emin, Zdigits2, prec, emax.
    rewrite Hd. replace (Z.max (53 + e - 53) (3 - 1024 - 53) - e) with 0 by lia.
    reflexivity. }
  unfold binary_round_aux. rewrite Hs.
  cbn [shr_m loc_of_shr_record round_nearest_even]. rewrite Hs. cbn [shr_m].
  unfold prec, emax. destruct (Z.leb_spec e (1024 - 53)); [reflexivity | lia].
Qed.

Lemma binary_round_small s p :
  Z.pos (digits2_pos p) <= 53 ->
  exists m e, binary_round prec emax s p 0 = S754_finite s m e
              /\ bounded prec emax m e = true.
Proof.
  intros Hd. unfold binary_round, shl_align, fexp, SpecFloat.emin.
  set (d := Z.pos (digits2_pos p)) in *.
  assert (1 <= d) by (unfold d; lia).
  replace (Z.max (d + 0 - prec) (3 - emax - prec) - 0) with (d - 53)
    by (unfold prec, emax; lia).
  destruct (d - 53) as [|k|k] eqn:E; try lia.
  - exists p, 0. split.
    + apply binary_round_aux_exact; fold d; lia.
    + unfold bounded, canonical_mantissa, fexp, SpecFloat.emin, prec, emax.
      fold d. apply andb_true_iff. split; [apply Z.eqb_eq | apply Z.leb_le]; lia.
  - replace (Z.max (d + 0 - prec) (3 - emax - prec)) with (d - 53)
      by (unfold prec, emax; lia).
    pose proof (digits2_pos_iter_xO k p) as Hk. fold d in Hk.
    exists (Pos.iter xO p k), (d - 53). split.
    + apply binary_round_aux_exact; lia.
    + unfold bounded, canonical_mantissa, fexp, SpecFloat.emin, prec, emax.
      rewrite Hk. apply andb_true_iff.
      split; [apply Z.eqb_eq | apply Z.leb_le]; lia.
Qed.

Lemma digits2_pos_small p : Z.pos p < 2 ^ 53 -> Z.pos (digits2_pos p) <= 53.
Proof.
  intros H.
  destruct (Z.le_gt_cases (Z.pos (digits2_pos p)) 53) as [L|G]; [assumption|].
  exfalso.
  assert (2 ^ 53 <= 2 ^ (Z.pos (digits2_pos p) - 1)).
  { apply Z.pow_le_mono_r; lia. }
  assert (2 ^ (Z.pos (digits2_pos p) - 1) <= Z.pos p).
  { clear. induction p as [p IH|p IH|]; cbn [digits2_pos].
    - rewrite Pos2Z.inj_succ.
      replace (Z.succ (Z.pos (digits2_pos p)) - 1)
        with (Z.succ (Z.pos (digits2_pos p) - 1)) by lia.
      rewrite Z.pow_succ_r by lia. lia.
    - rewrite Pos2Z.inj_succ.
      replace (Z.succ (Z.pos (digits2_pos p)) - 1)
        with (Z.succ (Z.pos (digits2_pos p) - 1)) by lia.
      rewrite Z.pow_succ_r by lia. lia.
    - simpl. lia. }
  lia.
Qed.

(** The float of an int below [2^53] in size is a finite number. *)
Lemma nearest_float_finite z :
  Z.abs z < 2 ^ 53 -> finite (nearest_float z) = true.
Proof.
  intros Hz. unfold finite, nearest_float.
  destruct z as [|p|p]; cbn [binary_normalize].
  - vm_compute. reflexivity.
  - destruct (binary_round_small false p (digits2_pos_small p Hz))
      as (m & e & -> & Hb).
    now rewrite Prim2SF_SF2Prim.
  - destruct (binary_round_small true p (digits2_pos_small p Hz))
      as (m & e & -> & Hb).
    now rewrite Prim2SF_SF2Prim.
Qed.

Lemma nearest_float_positive z :
  0 < z < 2 ^ 53 -> exists s m e, Prim2SF (nearest_float z) = S754_finite s m e.
Proof.
  intros Hz. unfold nearest_float.
  destruct z as [|p|p]; try lia. cbn [binary_normalize].
  destruct (binary_round_small false p (digits2_pos_small p ltac:(lia)))
    as (m & e & -> & Hb).
  rewrite Prim2SF_SF2Prim by exact Hb. eauto.
Qed.

Lemma nearest_float_not_nan z : not_nan (nearest_float z).
Proof. apply SF2Prim_not_nan, binary_normalize_not_nan. Qed.

End FloatFacts.

(** ** The order of numbers *)

Module OrderFacts.
Import Py PyFacts Statistics.

Lemma scale_split e j k : k <= j -> j <= e -> 2 ^ (e - k) = 2 ^ (e - j) * 2 ^ (j - k).
Proof.
  intros H1 H2. rewrite <- Z.pow_add_r by lia. f_equal. lia.
Qed.

Lemma finite_ltb_scaled m1 e1 m2 e2 k :
  k <= e1 -> k <= e2 ->
  value_ltb (Finite m1 e1) (Finite m2 e2)
  = (m1 * 2 ^ (e1 - k) <? m2 * 2 ^ (e2 - k)).
Proof.
  intros H1 H2. unfold value_ltb. cbv zeta.
  set (j := Z.min e1 e2).
  rewrite (scale_split e1 j k), (scale_split e2 j k) by (unfold j; lia).
  rewrite !Z.mul_assoc.
  assert (0 < 2 ^ (j - k)) as Hpos by (apply Z.pow_pos_nonneg; unfold j; lia).
  destruct (Z.ltb_spec (m1 * 2 ^ (e1 - j)) (m2 * 2 ^ (e2 - j))) as [L|L];
    symmetry.
  - apply Z.ltb_lt. now apply Z.mul_lt_mono_pos_r.
  - apply Z.ltb_ge. now apply Z.mul_le_mono_nonneg_r; [lia|].
Qed.

Lemma value_ltb_irrefl a : value_ltb a a = false.
Proof. destruct a; simpl; try reflexivity. apply Z.ltb_irrefl. Qed.

(** [a <= b] and [b <= c] give [a <= c]. *)
Lemma value_le_trans a b c :
  value_ltb b a = false -> value_ltb c b = false -> value_ltb c a = false.
Proof.
  destruct a as [|m1 e1|], b as [|m2 e2|], c as [|m3 e3|];
    try reflexivity; try discriminate.
  set (k := Z.min e1 (Z.min e2 e3)).
  rewrite (finite_ltb_scaled m2 e2 m1 e1 k), (finite_ltb_scaled m3 e3 m2 e2 k),
    (finite_ltb_scaled m3 e3 m1 e1 k) by (unfold k; lia).
  rewrite !Z.ltb_ge. lia.
Qed.

(** [a < b] and [b <= c]... : the strict order is that of [<=]. *)
Lemma value_lt_le_trans a b c :
  value_ltb a b = true -> value_ltb c b = false -> value_ltb c a = false.
Proof.
  destruct a as [|m1 e1|], b as [|m2 e2|], c as [|m3 e3|];
    try reflexivity; try discriminate.
  set (k := Z.min e1 (Z.min e2 e3)).
  rewrite (finite_ltb_scaled m1 e1 m2 e2 k), (finite_ltb_scaled m3 e3 m2 e2 k),
    (finite_ltb_scaled m3 e3 m1 e1 k) by (unfold k; lia).
  rewrite Z.ltb_lt, !Z.ltb_ge. lia.
Qed.

(** *** The order of two floats is the order of their values *)

Lemma digits2_pos_bounds m :
  2 ^ (Z.pos (digits2_pos m) - 1) <= Z.pos m < 2 ^ Z.pos (digits2_pos m).
Proof.
  induction m as [m IH|m IH|]; cbn [digits2_pos].
  - rewrite Pos2Z.inj_succ.
    replace (Z.succ (Z.pos (digits2_pos m)) - 1) with (Z.pos (digits2_pos m)) by lia.
    rewrite Z.pow_succ_r by lia.
    replace (Z.pos (digits2_pos m)) with (Z.succ (Z.pos (digits2_pos m) - 1)) at 1 by lia.
    rewrite Z.pow_succ_r by lia. lia.
  - rewrite Pos2Z.inj_succ.
    replace (Z.succ (Z.pos (digits2_pos m)) - 1) with (Z.pos (digits2_pos m)) by lia.
    rewrite Z.pow_succ_r by lia.
    replace (Z.pos (digits2_pos m)) with (Z.succ (Z.pos (digits2_pos m) - 1)) at 1 by lia.
    rewrite Z.pow_succ_r by lia. lia.
  - simpl. lia.
Qed.

(** A canonical mantissa: below [2^53], and at least [2^52] unless the
    exponent is the least one. *)
Lemma bounded_mantissa m e :
  bounded prec emax m e = true ->
  Z.pos m < 2 ^ 53 /\ -1074 <= e /\ (-1074 < e -> 2 ^ 52 <= Z.pos m).
Proof.
  unfold bounded, canonical_mantissa, fexp, SpecFloat.emin, prec, emax.
  intros H. apply andb_true_iff in H as [H _]. apply Z.eqb_eq in H.
  pose proof (digits2_pos_bounds m) as [Hlo Hhi].
  set (d := Z.pos (digits2_pos m)) in *.
  assert (d <= 53) as Hd by lia.
  split; [|split].
  - eapply Z.lt_le_trans; [exact Hhi|]. apply Z.pow_le_mono_r; lia.
  - lia.
  - intros He. assert (d = 53) as -> by lia. exact Hlo.
Qed.

Lemma larger_exponent_larger m1 e1 m2 e2 :
  bounded prec emax m1 e1 = true -> bounded prec emax m2 e2 = true ->
  e1 < e2 -> Z.pos m1 < Z.pos m2 * 2 ^ (e2 - e1).
Proof.
  intros B1 B2 He.
  destruct (bounded_mantissa _ _ B1) as (H1 & L1 & _).
  destruct (bounded_mantissa _ _ B2) as (_ & _ & H2).
  specialize (H2 ltac:(lia)).
  assert (2 <= 2 ^ (e2 - e1)).
  { change 2 with (2 ^ 1) at 1. apply Z.pow_le_mono_r; lia. }
  assert (2 ^ 53 = 2 ^ 52 * 2) as E by reflexivity.
  nia.
Qed.

Lemma zero_ltb_finite m e : value_ltb (Finite 0 0) (Finite m e) = (0 <? m).
Proof.
  cbn [value_ltb]. cbv zeta. rewrite Z.mul_0_l.
  assert (0 < 2 ^ (e - Z.min 0 e)) by (apply Z.pow_pos_nonneg; lia).
  destruct (Z.ltb_spec 0 m); [apply Z.ltb_lt | apply Z.ltb_ge]; nia.
Qed.

Lemma finite_ltb_zero m e : value_ltb (Finite m e) (Finite 0 0) = (m <? 0).
Proof.
  cbn [value_ltb]. cbv zeta. rewrite Z.mul_0_l.
  assert (0 < 2 ^ (e - Z.min e 0)) by (apply Z.pow_pos_nonneg; lia).
  destruct (Z.ltb_spec m 0); [apply Z.ltb_lt | apply Z.ltb_ge]; nia.
Qed.

Lemma compare_cont_Z m1 m2 :
  Pos.compare_cont Eq m1 m2 = (Z.pos m1 ?= Z.pos m2).
Proof.
  rewrite Pos.compare_cont_spec. simpl. now destruct (m1 ?= m2)%positive.
Qed.

Lemma SFltb_value x y vx vy :
  valid_binary x = true -> valid_binary y = true ->
  spec_value x = Some vx -> spec_value y = Some vy ->
  SFltb x y = value_ltb vx vy.
Proof.
  intros Vx Vy Ex Ey. unfold SFltb.
  destruct x as [s1|s1| |s1 m1 e1], y as [s2|s2| |s2 m2 e2];
    simpl in Ex, Ey; inversion Ex; inversion Ey; subst; clear Ex Ey;
    cbn [SFcompare].
  - reflexivity.
  - now destruct s2.
  - rewrite zero_ltb_finite. now destruct s2.
  - now destruct s1.
  - now destruct s1, s2.
  - now destruct s1, s2.
  - rewrite finite_ltb_zero. now destruct s1.
  - now destruct s1, s2.
  - simpl in Vx, Vy.
    assert (forall e k, k <= e -> 0 < 2 ^ (e - k)) as Hpow.
    { intros. apply Z.pow_pos_nonneg; lia. }
    rewrite compare_cont_Z.
    destruct (Z.compare_spec e1 e2) as [E|L|G].
    + subst e2. rewrite (finite_ltb_scaled _ e1 _ e1 e1) by lia.
      rewrite Z.sub_diag, !Z.mul_1_r.
      destruct s1, s2; destruct (Z.compare_spec (Z.pos m1) (Z.pos m2));
        cbv beta iota; symmetry; try (apply Z.ltb_lt; lia); apply Z.ltb_ge; lia.
    + pose proof (larger_exponent_larger _ _ _ _ Vx Vy L) as H.
      rewrite (finite_ltb_scaled _ e1 _ e2 e1) by lia.
      rewrite Z.sub_diag, Z.mul_1_r.
      pose proof (Hpow e2 e1 ltac:(lia)).
      destruct s1, s2; cbv beta iota; symmetry;
        try (apply Z.ltb_lt; nia); apply Z.ltb_ge; nia.
    + pose proof (larger_exponent_larger _ _ _ _ Vy Vx ltac:(lia)) as H.
      rewrite (finite_ltb_scaled _ e1 _ e2 e2) by lia.
      rewrite Z.sub_diag, Z.mul_1_r.
      pose proof (Hpow e1 e2 ltac:(lia)).
      destruct s1, s2; cbv beta iota; symmetry;
        try (apply Z.ltb_lt; nia); apply Z.ltb_ge; nia.
Qed.

Lemma float_ltb_value f g vf vg :
  float_value f = Some vf -> float_value g = Some vg ->
  (f <? g)%float = value_ltb vf vg.
Proof.
  intros Hf Hg. rewrite ltb_spec.
  apply SFltb_value; auto using Prim2SF_valid.
Qed.

(** *** Python's [<] on numbers is the order of their values *)

Lemma compare_float_int_value f z vf :
  float_value f = Some vf ->
  exists c, compare_float_int f z = Some c
            /\ value_ltb vf (Finite z 0) = match c with Lt => true | _ => false end
            /\ value_ltb (Finite z 0) vf = match c with Gt => true | _ => false end.
Proof.
  unfold float_value, spec_value, compare_float_int.
  destruct (Prim2SF f) as [s|s| |s m e]; intros E; inversion E; subst; clear E.
  - eexists. split; [reflexivity|]. cbn [value_ltb].
    rewrite Z.min_id, Z.sub_diag, !Z.mul_1_r.
    destruct (Z.compare_spec 0 z); split; try reflexivity;
      try (apply Z.ltb_lt; lia); apply Z.ltb_ge; lia.
  - eexists. split; [reflexivity|]. now destruct s.
  - set (v := if s then Z.neg m else Z.pos m).
    destruct (Z.leb_spec 0 e) as [He|He]; eexists; (split; [reflexivity|]).
    + rewrite (finite_ltb_scaled v e z 0 0), (finite_ltb_scaled z 0 v e 0) by lia.
      rewrite !Z.sub_0_r, Z.mul_1_r.
      destruct (Z.compare_spec (v * 2 ^ e) z); split; try reflexivity;
        try (apply Z.ltb_lt; lia); apply Z.ltb_ge; lia.
    + rewrite (finite_ltb_scaled v e z 0 e), (finite_ltb_scaled z 0 v e e) by lia.
      rewrite Z.sub_diag, Z.mul_1_r, Z.sub_0_l.
      destruct (Z.compare_spec v (z * 2 ^ (- e))); split; try reflexivity;
        try (apply Z.ltb_lt; lia); apply Z.ltb_ge; lia.
Qed.

Lemma num_lt_value x y vx vy :
  num_value x = Some vx -> num_value y = Some vy ->
  num_lt x y = value_ltb vx vy.
Proof.
  destruct x as [i|f], y as [j|g]; cbn [num_value num_lt]; intros Ex Ey.
  - inversion Ex; inversion Ey; subst. cbn [value_ltb].
    now rewrite Z.min_id, Z.sub_diag, !Z.mul_1_r.
  - inversion Ex; subst.
    destruct (compare_float_int_value g i vy Ey) as (c & -> & _ & H).
    rewrite H. now destruct c.
  - inversion Ey; subst.
    destruct (compare_float_int_value f j vx Ex) as (c & -> & H & _).
    rewrite H. now destruct c.
  - now apply float_ltb_value.
Qed.


(** *** [min] and [max] return the minimum and the maximum *)

Lemma as_num_value v x :
  value_of v = Some x -> exists n, as_num v = Ok n /\ num_value n = Some x.
Proof.
  destruct v; simpl; intros H; try discriminate; eauto.
Qed.

Lemma py_lt_value a b x y :
  value_of a = Some x -> value_of b = Some y ->
  py_lt a b = Ok (value_ltb x y).
Proof.
  intros Ha Hb. unfold py_lt.
  destruct (as_num_value a x Ha) as (n & -> & Hn).
  destruct (as_num_value b y Hb) as (n' & -> & Hn').
  cbn [bind]. now rewrite (num_lt_value n n' x y).
Qed.

Lemma at_most_refl v : has_value v -> at_most v v.
Proof. intros [x Hx]. exists x, x. auto using value_ltb_irrefl. Qed.

Lemma at_most_trans a b c : at_most a b -> at_most b c -> at_most a c.
Proof.
  intros (x & y & Hx & Hy & Hxy) (y' & z & Hy' & Hz & Hyz).
  rewrite Hy in Hy'. inversion Hy'; subst y'.
  exists x, z. repeat split; try assumption.
  now apply (value_le_trans x y z).
Qed.

(** The loop of [min]: the current value is at most every value seen. *)
Lemma min_loop rest : forall current seen m,
  Forall has_value rest -> has_value current ->
  In current seen -> Forall (fun w => at_most current w) seen ->
  for_each (pick py_lt) rest current = Ok m ->
  In m (seen ++ rest) /\ Forall (fun w => at_most m w) (seen ++ rest).
Proof.
  induction rest as [|item rest IH]; intros current seen m Hrest Hc Hin Hall H;
    cbn [for_each] in H.
  - inversion H; subst. now rewrite app_nil_r.
  - inversion Hrest as [|? ? Hi Hrest']; subst.
    destruct Hc as [x Hx], Hi as [y Hy].
    unfold pick in H at 1. rewrite (py_lt_value item current y x Hy Hx) in H.
    cbn [bind] in H.
    replace (seen ++ item :: rest) with ((seen ++ [item]) ++ rest)
      by (rewrite <- app_assoc; reflexivity).
    destruct (value_ltb y x) eqn:L.
    + apply (IH item (seen ++ [item]) m); try assumption.
      * now exists y.
      * apply in_or_app. right. now left.
      * apply Forall_app. split.
        -- eapply Forall_impl; [|exact Hall]. intros w (x' & z & Hx' & Hz & Hle).
           rewrite Hx in Hx'. inversion Hx'; subst x'.
           exists y, z. repeat split; try assumption.
           now apply (value_lt_le_trans y x z).
        -- constructor; [|constructor]. apply at_most_refl. now exists y.
    + apply (IH current (seen ++ [item]) m); try assumption.
      * now exists x.
      * apply in_or_app. now left.
      * apply Forall_app. split; [assumption|].
        constructor; [|constructor]. now exists x, y.
Qed.

(** The loop of [max]: every value seen is at most the current one. *)
Lemma max_loop rest : forall current seen m,
  Forall has_value rest -> has_value current ->
  In current seen -> Forall (fun w => at_most w current) seen ->
  for_each (pick py_gt) rest current = Ok m ->
  In m (seen ++ rest) /\ Forall (fun w => at_most w m) (seen ++ rest).
Proof.
  induction rest as [|item rest IH]; intros current seen m Hrest Hc Hin Hall H;
    cbn [for_each] in H.
  - inversion H; subst. now rewrite app_nil_r.
  - inversion Hrest as [|? ? Hi Hrest']; subst.
    destruct Hc as [x Hx], Hi as [y Hy].
    unfold pick in H at 1. unfold py_gt in H.
    rewrite (py_lt_value current item x y Hx Hy) in H.
    cbn [bind] in H.
    replace (seen ++ item :: rest) with ((seen ++ [item]) ++ rest)
      by (rewrite <- app_assoc; reflexivity).
    destruct (value_ltb x y) eqn:L.
    + apply (IH item (seen ++ [item]) m); try assumption.
      * now exists y.
      * apply in_or_app. right. now left.
      * apply Forall_app. split.
        -- eapply Forall_impl; [|exact Hall]. intros w Hw.
           apply (at_most_trans w current item); [assumption|].
           exists x, y. repeat split; try assumption.
           apply (value_lt_le_trans x y y L), value_ltb_irrefl.
        -- constructor; [|constructor]. apply at_most_refl. now exists y.
    + apply (IH current (seen ++ [item]) m); try assumption.
      * now exists x.
      * apply in_or_app. now left.
      * apply Forall_app. split; [assumption|].
        constructor; [|constructor]. now exists y, x.
Qed.

End OrderFacts.

(** ** Aggregation *)

Module AggregateSpec.
Import Py PyFacts Converter Config Database Collector Statistics Samples.

(** *** Primary keys and unique keys *)

Section Tables.
Context {Row K : Type}.
Variable row_id : Row -> Z.
Variable row_key : Row -> K.

Lemma next_id_above rows r : In r rows -> row_id r < next_id row_id rows.
Proof.
  unfold next_id.
  induction rows as [|r' rows IH]; cbn [map fold_right In]; intros H; [easy|].
  destruct H as [->|H]; [lia|]. specialize (IH H). lia.
Qed.

Lemma next_id_fresh rows : ~ In (next_id row_id rows) (map row_id rows).
Proof.
  intros H. apply in_map_iff in H as (r & E & Hr).
  pose proof (next_id_above rows r Hr). lia.
Qed.

(** With distinct primary keys, writing a row back changes that row only. *)
Lemma write_back_one rows agg agg' :
  NoDup (map row_id rows) -> In agg rows -> row_id agg' = row_id agg ->
  write_back row_id agg' rows
  = map (fun r => if row_id r =? row_id agg then agg' else r) rows
  /\ forall r, In r rows -> (row_id r =? row_id agg) = true -> r = agg.
Proof.
  intros Hnd Hin Hid. split.
  - unfold write_back. now rewrite Hid.
  - intros r Hr E. apply Z.eqb_eq in E.
    clear agg' Hid. induction rows as [|r0 rows IH]; [easy|].
    simpl in Hnd. inversion Hnd as [|? ? Hnot Hnd']; subst.
    destruct Hr as [->|Hr], Hin as [->|Hin]; auto.
    + exfalso. apply Hnot. rewrite E. now apply in_map.
    + exfalso. apply Hnot. rewrite <- E. now apply in_map.
Qed.

(** With distinct unique keys, at most one row has a given key. *)
Lemma unique_key_row rows r r' :
  NoDup (map row_key rows) -> In r rows -> In r' rows ->
  row_key r = row_key r' -> r = r'.
Proof.
  induction rows as [|r0 rows IH]; [easy|].
  simpl. intros Hnd Hr Hr' E. inversion Hnd as [|? ? Hnot Hnd']; subst.
  destruct Hr as [->|Hr], Hr' as [->|Hr']; auto.
  - exfalso. apply Hnot. rewrite E. now apply in_map.
  - exfalso. apply Hnot. rewrite <- E. now apply in_map.
Qed.

Lemma filter_unique_key (sel : Row -> bool) (k : K) rows :
  (forall r, sel r = true <-> row_key r = k) ->
  NoDup (map row_key rows) ->
  filter sel rows = [] \/ exists r, filter sel rows = [r].
Proof.
  intros Hsel. induction rows as [|r0 rows IH]; simpl; intros Hnd; [now left|].
  inversion Hnd as [|? ? Hnot Hnd']; subst.
  destruct (sel r0) eqn:E0.
  - right. exists r0. f_equal.
    destruct (filter sel rows) as [|r1 rest] eqn:F; [reflexivity|].
    exfalso. apply Hnot.
    assert (In r1 (filter sel rows)) as H1 by (rewrite F; now left).
    apply filter_In in H1 as [Hin Hs].
    apply Hsel in E0. apply Hsel in Hs. rewrite E0, <- Hs. now apply in_map.
  - now apply IH.
Qed.

End Tables.

(** *** The upsert loop on a table with a uniqueness constraint *)

Section UpsertFacts.
Context {Row K : Type}.
Variable row_id : Row -> Z.
Variable row_key : Row -> K.
Variable key_of : string -> K.
Variable selects : string -> Row -> bool.
Variable new_row : Z -> string -> columns -> Row.
Variable assign : Row -> columns -> Row.

(** The where clause selects by the columns of the uniqueness constraint. *)
Hypothesis selects_key :
  forall m r, selects m r = true <-> row_key r = key_of m.
Hypothesis key_of_inj : forall m m', key_of m = key_of m' -> m = m'.
Hypothesis new_row_id : forall i m s, row_id (new_row i m s) = i.
Hypothesis new_row_key : forall i m s, row_key (new_row i m s) = key_of m.
Hypothesis assign_id : forall r s, row_id (assign r s) = row_id r.
Hypothesis assign_key : forall r s, row_key (assign r s) = row_key r.
Hypothesis assign_assign : forall r s s', assign (assign r s) s' = assign r s'.
Hypothesis assign_new :
  forall i m s s', assign (new_row i m s) s' = new_row i m s'.

Local Abbreviation upsert := (upsert_metric row_id selects new_row assign).
Local Abbreviation upserts := (upsert_aggregates row_id selects new_row assign).

Lemma upsert_metric_cases rows m values s :
  table_ok row_id row_key rows -> stored_stats values = Ok s ->
  (filter (selects m) rows = []
   /\ upsert rows (m, values)
      = Ok (rows ++ [new_row (next_id row_id rows) m s]))
  \/ (exists agg,
         In agg rows /\ row_key agg = key_of m
         /\ upsert rows (m, values)
            = Ok (map (fun r => if row_id r =? row_id agg
                                then assign agg s else r) rows)
         /\ forall r, In r rows ->
                      (row_id r =? row_id agg) = true -> r = agg).
Proof.
  intros [Hids Hkeys] Hs. unfold upsert_metric.
  unfold stored_stats in Hs. apply bind_ok in Hs as (s0 & Hc & Hf).
  destruct (filter_unique_key row_key (selects m) (key_of m) rows
              (selects_key m) Hkeys) as [F|[agg F]]; rewrite F; simpl.
  - left. rewrite Hc. cbn [bind]. rewrite Hf. simpl. auto.
  - right. exists agg. rewrite Hc. cbn [bind]. rewrite Hf. simpl.
    assert (In agg (filter (selects m) rows)) as Hin by (rewrite F; now left).
    apply filter_In in Hin as [Hin Hsel]. apply selects_key in Hsel.
    destruct (write_back_one row_id rows agg (assign agg s) Hids Hin
                (assign_id agg s)) as [Hwb Honly].
    rewrite Hwb. auto.
Qed.

Lemma upsert_metric_stats rows m values rows' :
  upsert rows (m, values) = Ok rows' -> exists s, stored_stats values = Ok s.
Proof.
  unfold upsert_metric, stored_stats. intros H.
  apply bind_ok in H as (existing & _ & H).
  apply bind_ok in H as (s & Hs & H).
  apply bind_ok in H as (c & Hc & _). exists c. rewrite Hs. exact Hc.
Qed.

Lemma replaced_ids rows agg s :
  (forall r, In r rows -> (row_id r =? row_id agg) = true -> r = agg) ->
  map row_id (map (fun r => if row_id r =? row_id agg
                            then assign agg s else r) rows)
  = map row_id rows.
Proof.
  intros Honly. rewrite map_map. apply map_ext_in. intros r Hr.
  destruct (row_id r =? row_id agg) eqn:E; [|reflexivity].
  rewrite assign_id. now rewrite (Honly r Hr E).
Qed.

Lemma replaced_keys rows agg s :
  (forall r, In r rows -> (row_id r =? row_id agg) = true -> r = agg) ->
  map row_key (map (fun r => if row_id r =? row_id agg
                             then assign agg s else r) rows)
  = map row_key rows.
Proof.
  intros Honly. rewrite map_map. apply map_ext_in. intros r Hr.
  destruct (row_id r =? row_id agg) eqn:E; [|reflexivity].
  rewrite assign_key. now rewrite (Honly r Hr E).
Qed.

Lemma NoDup_snoc {A} (l : list A) (a : A) :
  NoDup l -> ~ In a l -> NoDup (l ++ [a]).
Proof.
  intros Hl Ha. induction l as [|x l IH]; simpl.
  - constructor; [easy | constructor].
  - inversion Hl as [|? ? Hx Hl']; subst. constructor.
    + rewrite in_app_iff. simpl. intros [H|[H|[]]]; [easy|].
      subst. apply Ha. now left.
    + apply IH; [assumption|]. intros H. apply Ha. now right.
Qed.

Lemma no_row_of_key rows m :
  filter (selects m) rows = [] -> ~ In (key_of m) (map row_key rows).
Proof.
  intros F H. apply in_map_iff in H as (r & E & Hr).
  assert (In r (filter (selects m) rows)) as Hin.
  { apply filter_In. split; [assumption | now apply selects_key]. }
  rewrite F in Hin. destruct Hin.
Qed.

(** One upsert keeps the constraints of the table. *)
Lemma upsert_table_ok rows entry rows' :
  table_ok row_id row_key rows -> upsert rows entry = Ok rows' -> table_ok row_id row_key rows'.
Proof.
  destruct entry as [m values]. intros Hok H.
  destruct (upsert_metric_stats _ _ _ _ H) as [s Hs].
  destruct (upsert_metric_cases rows m values s Hok Hs)
    as [[F E]|(agg & Hin & Hkey & E & Honly)];
    rewrite E in H; inversion H; subst; clear H; destruct Hok as [Hids Hkeys].
  - split; rewrite map_app; simpl; apply NoDup_snoc; try assumption.
    + rewrite new_row_id. apply next_id_fresh.
    + rewrite new_row_key. now apply no_row_of_key.
  - split; [rewrite replaced_ids | rewrite replaced_keys]; assumption.
Qed.

(** One upsert settles its metric. *)
Lemma upsert_settles rows m values rows' :
  table_ok row_id row_key rows -> upsert rows (m, values) = Ok rows' ->
  exists s, stored_stats values = Ok s /\ settled row_key key_of assign m s rows'.
Proof.
  intros Hok H.
  destruct (upsert_metric_stats _ _ _ _ H) as [s Hs]. exists s. split; [assumption|].
  destruct (upsert_metric_cases rows m values s Hok Hs)
    as [[F E]|(agg & Hin & Hkey & E & Honly)];
    rewrite E in H; inversion H; subst; clear H.
  - exists (new_row (next_id row_id rows) m s). repeat split.
    + apply in_or_app. right. now left.
    + apply new_row_key.
    + apply assign_new.
  - exists (assign agg s). repeat split.
    + apply in_map_iff. exists agg. now rewrite Z.eqb_refl.
    + now rewrite assign_key.
    + apply assign_assign.
Qed.

(** One upsert leaves the rows of the other metrics as they are. *)
Lemma upsert_keeps_settled rows m values rows' m' s' :
  table_ok row_id row_key rows -> m' <> m -> settled row_key key_of assign m' s' rows ->
  upsert rows (m, values) = Ok rows' -> settled row_key key_of assign m' s' rows'.
Proof.
  intros Hok Hne (r & Hr & Hk & Hfix) H.
  destruct (upsert_metric_stats _ _ _ _ H) as [s Hs].
  destruct (upsert_metric_cases rows m values s Hok Hs)
    as [[F E]|(agg & Hin & Hkey & E & Honly)];
    rewrite E in H; inversion H; subst; clear H.
  - exists r. repeat split; try assumption. apply in_or_app. now left.
  - exists r. repeat split; try assumption.
    apply in_map_iff. exists r. split; [|assumption].
    destruct (row_id r =? row_id agg) eqn:Eid; [|reflexivity].
    exfalso. apply Hne. apply key_of_inj.
    rewrite <- Hk, <- Hkey. now rewrite (Honly r Hr Eid).
Qed.

(** An upsert of a settled metric changes nothing. *)
Lemma upsert_fixed rows m values s :
  table_ok row_id row_key rows -> stored_stats values = Ok s -> settled row_key key_of assign m s rows ->
  upsert rows (m, values) = Ok rows.
Proof.
  intros Hok Hs (r & Hr & Hk & Hfix).
  destruct (upsert_metric_cases rows m values s Hok Hs)
    as [[F E]|(agg & Hin & Hkey & E & Honly)].
  - exfalso. apply (no_row_of_key rows m F). rewrite <- Hk. now apply in_map.
  - rewrite E. f_equal.
    assert (r = agg) as ->.
    { destruct Hok as [_ Hkeys].
      apply (unique_key_row row_key rows); try assumption. congruence. }
    rewrite <- (map_id rows) at 2. apply map_ext_in. intros r0 Hr0.
    destruct (row_id r0 =? row_id agg) eqn:Eid; [|reflexivity].
    rewrite (Honly r0 Hr0 Eid). exact Hfix.
Qed.

Lemma upserts_table_ok metrics rows rows' :
  table_ok row_id row_key rows -> upserts metrics rows = Ok rows' -> table_ok row_id row_key rows'.
Proof.
  unfold upsert_aggregates.
  apply (for_each_invariant (table_ok row_id row_key) upsert).
  intros s x s' Hs H. eapply upsert_table_ok; eauto.
Qed.

Lemma upserts_keep_settled metrics rows rows' m s :
  table_ok row_id row_key rows -> ~ In m (map fst metrics) -> settled row_key key_of assign m s rows ->
  upserts metrics rows = Ok rows' -> settled row_key key_of assign m s rows'.
Proof.
  unfold upsert_aggregates. revert rows.
  induction metrics as [|[m0 values0] metrics IH]; cbn [for_each map fst In];
    intros rows Hok Hm Hset H.
  - now inversion H; subst.
  - apply bind_ok in H as (rows1 & H1 & H2).
    apply (IH rows1); try assumption.
    + eapply upsert_table_ok; eauto.
    + tauto.
    + eapply upsert_keeps_settled; eauto.
Qed.

(** After the loop every metric of the period is settled. *)
Lemma upserts_settle metrics rows rows' :
  table_ok row_id row_key rows -> NoDup (map fst metrics) ->
  upserts metrics rows = Ok rows' ->
  forall m values, In (m, values) metrics ->
    exists s, stored_stats values = Ok s /\ settled row_key key_of assign m s rows'.
Proof.
  unfold upsert_aggregates. revert rows.
  induction metrics as [|[m0 values0] metrics IH]; cbn [for_each map fst In];
    intros rows Hok Hnd H m values Hin; [easy|].
  apply bind_ok in H as (rows1 & H1 & H2).
  inversion Hnd as [|? ? Hfresh Hnd']; subst.
  pose proof (upsert_table_ok _ _ _ Hok H1) as Hok1.
  destruct Hin as [E|Hin].
  - inversion E; subst.
    destruct (upsert_settles _ _ _ _ Hok H1) as (s & Hs & Hset).
    exists s. split; [assumption|].
    eapply upserts_keep_settled; eauto.
  - eapply IH; eauto.
Qed.

(** When every metric is settled the loop changes nothing. *)
Lemma upserts_fixed metrics rows :
  table_ok row_id row_key rows ->
  (forall m values, In (m, values) metrics ->
     exists s, stored_stats values = Ok s /\ settled row_key key_of assign m s rows) ->
  upserts metrics rows = Ok rows.
Proof.
  unfold upsert_aggregates. intros Hok.
  induction metrics as [|[m0 values0] metrics IH]; cbn [for_each];
    intros Hall; [reflexivity|].
  destruct (Hall m0 values0 (or_introl eq_refl)) as (s & Hs & Hset).
  rewrite (upsert_fixed rows m0 values0 s Hok Hs Hset). cbn [bind].
  apply IH. intros m values Hin. apply Hall. now right.
Qed.

(** The loop is idempotent. *)
Lemma upserts_idempotent metrics rows rows' :
  table_ok row_id row_key rows -> NoDup (map fst metrics) ->
  upserts metrics rows = Ok rows' -> upserts metrics rows' = Ok rows'.
Proof.
  intros Hok Hnd H. apply upserts_fixed.
  - eapply upserts_table_ok; eauto.
  - eapply upserts_settle; eauto.
Qed.

(** The loop returns when the statistics of every metric are defined. *)
Lemma upserts_total metrics rows :
  table_ok row_id row_key rows ->
  (forall m values, In (m, values) metrics ->
     exists s, stored_stats values = Ok s) ->
  exists rows', upserts metrics rows = Ok rows'.
Proof.
  unfold upsert_aggregates. revert rows.
  induction metrics as [|[m0 values0] metrics IH]; cbn [for_each];
    intros rows Hok Hall.
  - eauto.
  - destruct (Hall m0 values0 (or_introl eq_refl)) as [s Hs].
    assert (exists rows1, upsert rows (m0, values0) = Ok rows1) as [rows1 H1].
    { destruct (upsert_metric_cases rows m0 values0 s Hok Hs)
        as [[F E]|(agg & Hin & Hkey & E & Honly)]; rewrite E; eauto. }
    rewrite H1. cbn [bind]. apply IH.
    + eapply upsert_table_ok; eauto.
    + intros m values Hin. apply (Hall m values). now right.
Qed.

End UpsertFacts.

(** *** Grouping the values of a period by metric *)

Section Keys.
Context {V : Type}.
Implicit Types (d : list (string * V)) (k : string) (v : V).

Lemma dict_set_keys k v d :
  dict_keys (dict_set k v d)
  = if set_mem k (dict_keys d) then dict_keys d else dict_keys d ++ [k].
Proof.
  unfold dict_keys, set_mem.
  induction d as [|[k' v'] d IH]; simpl; [reflexivity|].
  destruct (String.eqb k k') eqn:E; simpl.
  - apply String.eqb_eq in E. now subst.
  - rewrite IH. now destruct (existsb (String.eqb k) (map fst d)).
Qed.

Lemma dict_set_NoDup k v d :
  NoDup (dict_keys d) -> NoDup (dict_keys (dict_set k v d)).
Proof.
  intros H. rewrite dict_set_keys.
  destruct (set_mem k (dict_keys d)) eqn:E; [assumption|].
  apply NoDup_snoc; [assumption|].
  intros Hin. apply set_mem_In in Hin. congruence.
Qed.

Lemma dict_set_In k v d k' v' :
  In (k', v') (dict_set k v d) -> (k', v') = (k, v) \/ In (k', v') d.
Proof.
  induction d as [|[k1 v1] d IH]; simpl.
  - intros [H|[]]; auto.
  - destruct (String.eqb k k1); simpl; intros [H|H]; auto.
    destruct (IH H); auto.
Qed.

Lemma In_dict_get k v d :
  NoDup (dict_keys d) -> In (k, v) d -> dict_get k d = Some v.
Proof.
  unfold dict_keys.
  induction d as [|[k1 v1] d IH]; simpl; intros Hnd Hin; [easy|].
  inversion Hnd as [|? ? Hnot Hnd']; subst.
  destruct Hin as [E|Hin].
  - inversion E; subst. now rewrite String.eqb_refl.
  - destruct (String.eqb k k1) eqn:E; [|auto].
    apply String.eqb_eq in E; subst k1.
    exfalso. apply Hnot. apply in_map_iff. now exists (k, v).
Qed.

End Keys.

Lemma fold_left_invariant {A B} (P : A -> Prop) (f : A -> B -> A) :
  (forall a b, P a -> P (f a b)) ->
  forall l a, P a -> P (fold_left f l a).
Proof.
  intros Hf l. induction l as [|b l IH]; simpl; auto.
Qed.

Lemma numeric_fields_NoDup data : NoDup (dict_keys (get_numeric_fields data)).
Proof.
  unfold get_numeric_fields.
  apply (fold_left_invariant (fun d : dict => NoDup (dict_keys d))).
  - intros d [k v] Hd.
    destruct (is_int_or_float v && negb (set_mem k NON_NUMERIC_FIELDS));
      [now apply dict_set_NoDup | assumption].
  - constructor.
Qed.

(** A numeric field of a reading is a numeric entry of the reading. *)
Lemma numeric_fields_fold data (acc : dict) k v :
  In (k, v)
     (fold_left
        (fun fields kv =>
           let '(k, v) := kv in
           if is_int_or_float v && negb (set_mem k NON_NUMERIC_FIELDS)
           then dict_set k v fields else fields) data acc) ->
  In (k, v) acc
  \/ (In (k, v) data /\ is_int_or_float v = true
      /\ set_mem k NON_NUMERIC_FIELDS = false).
Proof.
  revert acc. induction data as [|[k0 v0] data IH]; intros acc; cbn [fold_left].
  - now left.
  - intros Hin. apply IH in Hin as [Hin|(Hin & Hv & Hk)].
    + destruct (is_int_or_float v0 && negb (set_mem k0 NON_NUMERIC_FIELDS)) eqn:C;
        [|now left].
      apply dict_set_In in Hin as [E|Hin]; [|now left].
      inversion E; subst. apply andb_true_iff in C as [C1 C2].
      apply negb_true_iff in C2. right. repeat split; try assumption. now left.
    + right. repeat split; try assumption. now right.
Qed.

Lemma numeric_fields_entries data k v :
  In (k, v) (get_numeric_fields data) ->
  In (k, v) data /\ is_int_or_float v = true
  /\ set_mem k NON_NUMERIC_FIELDS = false.
Proof.
  intros Hin. apply numeric_fields_fold in Hin as [[]|H]. exact H.
Qed.

Lemma setdefault_append_same k v ms :
  dict_get k (setdefault_append k v ms)
  = Some (old_values (dict_get k ms) ++ [v]).
Proof.
  induction ms as [|[k' vs] ms IH]; simpl.
  - now rewrite String.eqb_refl.
  - destruct (String.eqb k k') eqn:E; simpl; rewrite E; auto.
Qed.

Lemma setdefault_append_other k k' v ms :
  k <> k' -> dict_get k (setdefault_append k' v ms) = dict_get k ms.
Proof.
  intros Hne. induction ms as [|[k1 vs] ms IH]; simpl.
  - apply String.eqb_neq in Hne. now rewrite Hne.
  - destruct (String.eqb k' k1) eqn:E; simpl.
    + apply String.eqb_eq in E; subst k1.
      apply String.eqb_neq in Hne. now rewrite Hne.
    + now rewrite IH.
Qed.

Lemma setdefault_append_keys k v ms :
  dict_keys (setdefault_append k v ms)
  = if set_mem k (dict_keys ms) then dict_keys ms else dict_keys ms ++ [k].
Proof.
  unfold dict_keys, set_mem.
  induction ms as [|[k' vs] ms IH]; simpl; [reflexivity|].
  destruct (String.eqb k k') eqn:E; simpl; [reflexivity|].
  rewrite IH. now destruct (existsb (String.eqb k) (map fst ms)).
Qed.

Lemma setdefault_append_NoDup k v ms :
  NoDup (dict_keys ms) -> NoDup (dict_keys (setdefault_append k v ms)).
Proof.
  intros H. rewrite setdefault_append_keys.
  destruct (set_mem k (dict_keys ms)) eqn:E; [assumption|].
  apply NoDup_snoc; [assumption|].
  intros Hin. apply set_mem_In in Hin. congruence.
Qed.

(** The values one reading adds to the groups. *)
Lemma group_fields metric (fields : dict) ms :
  NoDup (dict_keys fields) ->
  dict_get metric
    (fold_left (fun m kv => setdefault_append (fst kv) (snd kv) m) fields ms)
  = match dict_get metric fields with
    | Some v => Some (old_values (dict_get metric ms) ++ [v])
    | None => dict_get metric ms
    end.
Proof.
  revert ms. induction fields as [|[k v] fields IH]; intros ms Hnd; [reflexivity|].
  unfold dict_keys in Hnd. simpl in Hnd.
  inversion Hnd as [|? ? Hnot Hnd']; subst.
  cbn [fold_left fst snd dict_get]. rewrite (IH _ Hnd').
  destruct (String.eqb metric k) eqn:E.
  - apply String.eqb_eq in E; subst k.
    rewrite (dict_get_None metric fields Hnot).
    apply setdefault_append_same.
  - apply String.eqb_neq in E.
    now rewrite (setdefault_append_other metric k v ms E).
Qed.

Lemma group_rows metric rows ms :
  dict_get metric
    (fold_left
       (fun metrics data =>
          fold_left (fun m kv => setdefault_append (fst kv) (snd kv) m)
                    (get_numeric_fields data) metrics)
       rows ms)
  = grouped (dict_get metric ms) (values_of metric rows).
Proof.
  revert ms. induction rows as [|data rows IH]; intros ms; [reflexivity|].
  cbn [fold_left values_of flat_map]. rewrite IH.
  rewrite (group_fields metric _ ms (numeric_fields_NoDup data)).
  fold (values_of metric rows).
  destruct (dict_get metric (get_numeric_fields data)) as [v|]; [|reflexivity].
  cbn [app]. destruct (values_of metric rows) as [|v' vs]; cbn [grouped old_values].
  - reflexivity.
  - now rewrite <- app_assoc.
Qed.

(** The groups [collect_metrics] builds: each metric with a value in the
    period, once, with the values it contributes. *)
Lemma collect_metrics_get metric rows :
  dict_get metric (collect_metrics rows)
  = match values_of metric rows with
    | [] => None
    | values => Some values
    end.
Proof.
  unfold collect_metrics. rewrite group_rows. simpl.
  now destruct (values_of metric rows).
Qed.

Lemma collect_metrics_NoDup rows : NoDup (map fst (collect_metrics rows)).
Proof.
  unfold collect_metrics.
  apply (fold_left_invariant
           (fun ms : list (string * list PyVal) => NoDup (dict_keys ms))).
  - intros ms data Hms.
    apply (fold_left_invariant
             (fun ms : list (string * list PyVal) => NoDup (dict_keys ms)));
      [|assumption].
    intros ms' kv Hms'. now apply setdefault_append_NoDup.
  - constructor.
Qed.

Lemma collect_metrics_In metric values rows :
  In (metric, values) (collect_metrics rows) <->
  values = values_of metric rows /\ values <> [].
Proof.
  pose proof (collect_metrics_get metric rows) as G. split.
  - intros Hin.
    rewrite (In_dict_get metric values _ (collect_metrics_NoDup rows) Hin) in G.
    destruct (values_of metric rows); inversion G; subst. split; [reflexivity | easy].
  - intros [-> Hne]. apply dict_get_In.
    rewrite G. now destruct (values_of metric rows).
Qed.

(** *** The statistics are defined on values in range *)

Lemma bounds :
  1 <= count_bound /\ count_bound <= 2 ^ 53
  /\ count_bound * 2 ^ 53 < float_max_int
  /\ 2 ^ 53 <= int_bound.
Proof. vm_compute. repeat split; discriminate. Qed.

Lemma numeric_as_num v : is_int_or_float v = true -> exists n, as_num v = Ok n.
Proof. destruct v; simpl; intros H; try discriminate; eauto. Qed.

Lemma py_lt_total a b :
  is_int_or_float a = true -> is_int_or_float b = true ->
  exists r, py_lt a b = Ok r.
Proof.
  intros Ha Hb. unfold py_lt.
  destruct (numeric_as_num a Ha) as [x ->], (numeric_as_num b Hb) as [y ->].
  simpl. eauto.
Qed.

Lemma pick_total better current item :
  (forall a b, is_int_or_float a = true -> is_int_or_float b = true ->
               exists r, better a b = Ok r) ->
  is_int_or_float current = true -> is_int_or_float item = true ->
  exists c, pick better current item = Ok c /\ (c = item \/ c = current).
Proof.
  intros Hb Hc Hi. unfold pick. destruct (Hb item current Hi Hc) as [r ->].
  simpl. destruct r; eauto.
Qed.

(** The loop of [min] and [max] returns one of the values. *)
Lemma extremum_total better rest current :
  (forall a b, is_int_or_float a = true -> is_int_or_float b = true ->
               exists r, better a b = Ok r) ->
  Forall (fun v => is_int_or_float v = true) (current :: rest) ->
  exists m, for_each (pick better) rest current = Ok m
            /\ In m (current :: rest).
Proof.
  intros Hb. revert current.
  induction rest as [|item rest IH]; intros current Hall; cbn [for_each].
  - exists current. split; [reflexivity | now left].
  - inversion Hall as [|? ? Hc Hrest]; subst.
    inversion Hrest as [|? ? Hi Hrest']; subst.
    destruct (pick_total better current item Hb Hc Hi) as (c & -> & Hcases).
    cbn [bind].
    assert (Forall (fun v => is_int_or_float v = true) (c :: rest)) as Hall'.
    { constructor; [|assumption]. now destruct Hcases; subst. }
    destruct (IH c Hall') as (m & Hm & Hin). exists m. split; [assumption|].
    destruct Hin as [->|Hin]; [|now right; right].
    destruct Hcases; subst; [right; now left | now left].
Qed.

Lemma py_min_total values :
  values <> [] -> Forall (fun v => is_int_or_float v = true) values ->
  exists m, py_min values = Ok m /\ In m values.
Proof.
  destruct values as [|v rest]; [easy|]. intros _ Hall.
  apply extremum_total; [|assumption]. apply py_lt_total.
Qed.

Lemma py_max_total values :
  values <> [] -> Forall (fun v => is_int_or_float v = true) values ->
  exists m, py_max values = Ok m /\ In m values.
Proof.
  destruct values as [|v rest]; [easy|]. intros _ Hall.
  apply extremum_total; [|assumption].
  intros a b Ha Hb. unfold py_gt. now apply py_lt_total.
Qed.

Lemma float_of_int_below z :
  Z.abs z < float_max_int -> float_of_int z = Ok (nearest_float z).
Proof.
  intros H. unfold float_of_int.
  destruct (Z.ltb_spec (Z.abs z) float_max_int); [reflexivity | lia].
Qed.

(** One addition of the sum: the total stays an int in bounds, or a float
    that is not nan. *)
Lemma py_add_total k acc item :
  0 <= k < count_bound -> total_ok k acc ->
  is_int_or_float item = true -> in_range item ->
  exists acc', py_add acc item = Ok acc' /\ total_ok (k + 1) acc'.
Proof.
  intros Hk Hacc Hnum Hrange.
  destruct bounds as (C1 & C2 & BC & _).
  assert (k * 2 ^ 53 <= count_bound * 2 ^ 53) as Hkb.
  { apply Z.mul_le_mono_nonneg_r; lia. }
  assert (2 ^ 53 <= count_bound * 2 ^ 53) as Hb.
  { rewrite <- (Z.mul_1_l (2 ^ 53)) at 1. apply Z.mul_le_mono_nonneg_r; lia. }
  unfold py_add, arith.
  destruct acc as [| |s|f| | |]; try contradiction; cbn [total_ok] in Hacc;
    destruct item as [|b|z|g| | |]; try discriminate; cbn [in_range] in Hrange;
    cbn [as_num bind to_float].
  - eexists. split; [reflexivity|]. cbn [total_ok]. destruct b; lia.
  - eexists. split; [reflexivity|]. cbn [total_ok]. lia.
  - rewrite float_of_int_below by lia. cbn [bind].
    eexists. split; [reflexivity|]. cbn [total_ok].
    apply FloatFacts.add_not_nan; [apply FloatFacts.nearest_float_not_nan | assumption].
  - rewrite float_of_int_below by (destruct b; simpl; lia). cbn [bind].
    eexists. split; [reflexivity|]. cbn [total_ok].
    apply FloatFacts.add_not_nan; [assumption|].
    apply FloatFacts.nearest_float_finite. destruct b; simpl; lia.
  - rewrite float_of_int_below by lia. cbn [bind].
    eexists. split; [reflexivity|]. cbn [total_ok].
    apply FloatFacts.add_not_nan; [assumption|].
    now apply FloatFacts.nearest_float_finite.
  - eexists. split; [reflexivity|]. cbn [total_ok].
    now apply FloatFacts.add_not_nan.
Qed.

Lemma py_sum_loop_total values k acc :
  0 <= k -> k + py_len values < count_bound + 1 -> total_ok k acc ->
  Forall (fun v => is_int_or_float v = true /\ in_range v) values ->
  exists total, for_each py_add values acc = Ok total
                /\ total_ok (k + py_len values) total.
Proof.
  revert k acc. unfold py_len.
  induction values as [|item values IH]; intros k acc Hk Hlen Hacc Hall;
    cbn [for_each List.length].
  - exists acc. split; [reflexivity|]. now replace (k + Z.of_nat 0) with k by lia.
  - inversion Hall as [|? ? [Hnum Hrange] Hrest]; subst.
    cbn [List.length] in Hlen.
    destruct (py_add_total k acc item) as (acc' & -> & Hacc'); try assumption; [lia|].
    cbn [bind].
    destruct (IH (k + 1) acc') as (total & Ht & Hok); try assumption; try lia.
    exists total. split; [assumption|].
    now replace (k + Z.of_nat (S (List.length values)))
      with (k + 1 + Z.of_nat (List.length values)) by lia.
Qed.

(** The rounded mean of values in range is a float that is not nan. *)
Lemma rounded_mean_total values :
  values <> [] -> py_len values < count_bound ->
  Forall (fun v => is_int_or_float v = true /\ in_range v) values ->
  exists avg, rounded_mean values = Ok (VFloat avg) /\ not_nan avg.
Proof.
  intros Hne Hlen Hall. unfold rounded_mean, py_sum.
  assert (0 < py_len values) as Hpos.
  { unfold py_len. destruct values; [easy | cbn [List.length]; lia]. }
  destruct (py_sum_loop_total values 0 (VInt 0)) as (total & -> & Hok);
    try assumption; try lia.
  { cbn [total_ok]. simpl. lia. }
  cbn [bind]. rewrite Z.add_0_l in Hok.
  destruct bounds as (C1 & C2 & BC & _).
  assert (py_len values * 2 ^ 53 < py_len values * float_max_int) as Hlt.
  { apply Z.mul_lt_mono_pos_l; [assumption|].
    assert (2 ^ 53 <= count_bound * 2 ^ 53).
    { rewrite <- (Z.mul_1_l (2 ^ 53)) at 1. apply Z.mul_le_mono_nonneg_r; lia. }
    lia. }
  assert (py_len values < float_max_int) as Hn.
  { assert (count_bound <= count_bound * 2 ^ 53).
    { rewrite <- (Z.mul_1_r count_bound) at 1. apply Z.mul_le_mono_nonneg_l; lia. }
    lia. }
  unfold py_truediv.
  destruct total as [| |s|f| | |]; try contradiction; cbn [total_ok] in Hok;
    cbn [as_num bind to_float].
  - destruct (Z.eqb_spec (py_len values) 0) as [E|_]; [lia|].
    destruct (Z.ltb_spec (Z.abs s) (float_max_int * Z.abs (py_len values)))
      as [_|L].
    + cbn [bind py_round2 as_num]. eexists. split; [reflexivity|].
      apply FloatFacts.round2_float_not_nan, FloatFacts.int_quotient_not_nan. lia.
    + exfalso. rewrite (Z.abs_eq (py_len values)) in L by lia. lia.
  - rewrite float_of_int_below by lia. cbn [bind num_is_zero].
    destruct (Z.eqb_spec (py_len values) 0) as [E|_]; [lia|].
    cbn [bind py_round2 as_num]. eexists. split; [reflexivity|].
    apply FloatFacts.round2_float_not_nan, FloatFacts.div_not_nan; [assumption|].
    apply FloatFacts.nearest_float_positive. lia.
Qed.

(** The values a metric contributes are numbers of the readings, at most
    one per reading. *)
Lemma values_of_entries metric rows v :
  In v (values_of metric rows) ->
  exists data, In data rows /\ In (metric, v) data
               /\ is_int_or_float v = true.
Proof.
  unfold values_of. intros H. apply in_flat_map in H as (data & Hd & Hv).
  destruct (dict_get metric (get_numeric_fields data)) as [v'|] eqn:G;
    [|destruct Hv].
  destruct Hv as [->|[]]. apply dict_get_In in G.
  apply numeric_fields_entries in G as (Hin & Hnum & _). eauto.
Qed.

Lemma values_of_numbers metric rows :
  Forall (fun v => is_int_or_float v = true) (values_of metric rows).
Proof.
  apply Forall_forall. intros v Hv.
  now apply values_of_entries in Hv as (data & _ & _ & Hnum).
Qed.

Lemma values_of_length metric rows :
  py_len (values_of metric rows) <= py_len rows.
Proof.
  unfold py_len, values_of.
  induction rows as [|data rows IH]; cbn [flat_map List.length].
  - lia.
  - rewrite length_app. cbn [List.length].
    destruct (dict_get metric (get_numeric_fields data)); cbn [List.length]; lia.
Qed.

Lemma values_of_in_range metric rows :
  readings_in_range rows ->
  py_len (values_of metric rows) < count_bound
  /\ Forall (fun v => is_int_or_float v = true /\ in_range v)
            (values_of metric rows).
Proof.
  intros [Hlen Hrange]. split.
  - pose proof (values_of_length metric rows). lia.
  - apply Forall_forall. intros v Hv.
    apply values_of_entries in Hv as (data & Hd & Hin & Hnum). split; eauto.
Qed.

Lemma compute_stats_fields values s :
  compute_stats values = Ok s ->
  py_min values = Ok (stat_min s) /\ py_max values = Ok (stat_max s)
  /\ rounded_mean values = Ok (stat_avg s) /\ stat_count s = py_len values.
Proof.
  unfold compute_stats. intros H.
  apply bind_ok in H as (mn & Hmn & H).
  apply bind_ok in H as (mx & Hmx & H).
  apply bind_ok in H as (avg & Havg & H).
  inversion H; subst. simpl. auto.
Qed.

(** *** The statistics a row holds *)

Lemma py_min_is_minimum values m :
  Forall has_value values -> py_min values = Ok m -> is_minimum m values.
Proof.
  destruct values as [|v rest]; [discriminate|]. intros Hall H.
  inversion Hall as [|? ? Hv Hrest]; subst. cbn [py_min] in H.
  apply (OrderFacts.min_loop rest v [v] m); try assumption; [now left|].
  constructor; [|constructor]. now apply OrderFacts.at_most_refl.
Qed.

Lemma py_max_is_maximum values m :
  Forall has_value values -> py_max values = Ok m -> is_maximum m values.
Proof.
  destruct values as [|v rest]; [discriminate|]. intros Hall H.
  inversion Hall as [|? ? Hv Hrest]; subst. cbn [py_max] in H.
  apply (OrderFacts.max_loop rest v [v] m); try assumption; [now left|].
  constructor; [|constructor]. now apply OrderFacts.at_most_refl.
Qed.

(** The mean the collector computes is the arithmetic mean, rounded. *)
Lemma total_from_for_each values : forall acc,
  total_from acc values = for_each py_add values acc.
Proof.
  induction values as [|v rest IH]; intros acc; cbn [total_from for_each];
    [reflexivity|].
  destruct (py_add acc v); cbn [bind]; auto.
Qed.

Lemma rounded_mean_is_mean_rounded values :
  rounded_mean values = mean_rounded values.
Proof.
  unfold rounded_mean, mean_rounded, arithmetic_mean, py_sum, py_len.
  rewrite total_from_for_each.
  destruct (for_each py_add values (VInt 0)) as [total|e]; cbn [bind];
    [|reflexivity].
  now destruct (py_truediv total _).
Qed.

(** What a flush writes is the stored float of each statistic. *)
Lemma store_float_bind v f g :
  bind_float v = Ok f -> store_real f = Ok g -> store_float v = Ok g.
Proof. unfold store_float. intros -> H. exact H. Qed.

Lemma flush_fields s c :
  flush s = Ok c ->
  store_float (stat_min s) = Ok (col_min c)
  /\ store_float (stat_max s) = Ok (col_max c)
  /\ store_float (stat_avg s) = Ok (col_avg c)
  /\ col_count c = stat_count s.
Proof.
  unfold flush. intros H.
  apply bind_ok in H as (mn & Hmn & H).
  apply bind_ok in H as (mx & Hmx & H).
  apply bind_ok in H as (avg & Havg & H).
  apply bind_ok in H as (mn' & Hmn' & H).
  apply bind_ok in H as (mx' & Hmx' & H).
  apply bind_ok in H as (avg' & Havg' & H).
  inversion H; subst. cbn [col_min col_max col_avg col_count].
  repeat split; eapply store_float_bind; eassumption.
Qed.

Lemma flush_of_fields s mn mx avg :
  store_float (stat_min s) = Ok mn -> store_float (stat_max s) = Ok mx ->
  store_float (stat_avg s) = Ok avg ->
  flush s = Ok {| col_min := mn; col_max := mx; col_avg := avg;
                  col_count := stat_count s |}.
Proof.
  unfold store_float, flush. intros H1 H2 H3.
  apply bind_ok in H1 as (f1 & -> & H1).
  apply bind_ok in H2 as (f2 & -> & H2).
  apply bind_ok in H3 as (f3 & -> & H3).
  cbn [bind]. now rewrite H1, H2, H3.
Qed.

(** *** A nan among the values *)

Lemma is_nan_not_nan f : is_nan f = true <-> ~ not_nan f.
Proof.
  rewrite FloatFacts.is_nan_spec. unfold not_nan. split; [auto|].
  intros H. destruct (Prim2SF f); try reflexivity; exfalso; apply H; discriminate.
Qed.

Lemma nan_add_l f g : is_nan f = true -> is_nan (f + g)%float = true.
Proof.
  rewrite !FloatFacts.is_nan_spec, add_spec. intros ->. reflexivity.
Qed.

Lemma nan_add_r f g : is_nan g = true -> is_nan (f + g)%float = true.
Proof.
  rewrite !FloatFacts.is_nan_spec, add_spec. intros ->. unfold SF64add.
  now destruct (Prim2SF f).
Qed.

Lemma nan_div_l f g : is_nan f = true -> is_nan (f / g)%float = true.
Proof.
  rewrite !FloatFacts.is_nan_spec, div_spec. intros ->. reflexivity.
Qed.

Lemma nan_round2 f : is_nan f = true -> is_nan (round2_float f) = true.
Proof.
  rewrite !FloatFacts.is_nan_spec. unfold round2_float. intros H. now rewrite H.
Qed.

(** A total that is nan stays nan, and a nan makes the total nan. *)
Lemma py_add_nan acc item r :
  is_nan_value acc \/ is_nan_value item ->
  py_add acc item = Ok r -> is_nan_value r.
Proof.
  unfold py_add, arith. intros Hnan H.
  apply bind_ok in H as (x & Hx & H). apply bind_ok in H as (y & Hy & H).
  destruct Hnan as [(f & -> & Hf)|(g & -> & Hg)].
  - cbn [as_num] in Hx. inversion Hx; subst x.
    destruct y as [j|g]; cbn [to_float bind] in H.
    + destruct (float_of_int j) as [g|]; cbn [bind] in H; inversion H; subst.
      eexists. split; [reflexivity | now apply nan_add_l].
    + inversion H; subst. eexists. split; [reflexivity | now apply nan_add_l].
  - cbn [as_num] in Hy. inversion Hy; subst y.
    destruct x as [i|f]; cbn [to_float bind] in H.
    + destruct (float_of_int i) as [f|]; cbn [bind] in H; inversion H; subst.
      eexists. split; [reflexivity | now apply nan_add_r].
    + inversion H; subst. eexists. split; [reflexivity | now apply nan_add_r].
Qed.

Lemma py_sum_nan values : forall acc total,
  is_nan_value acc \/ Exists is_nan_value values ->
  for_each py_add values acc = Ok total -> is_nan_value total.
Proof.
  induction values as [|item rest IH]; intros acc total Hnan H;
    cbn [for_each] in H.
  - inversion H; subst. destruct Hnan as [Hn|Hn]; [assumption | inversion Hn].
  - apply bind_ok in H as (acc' & Ha & H).
    apply (IH acc' total); [|assumption].
    destruct Hnan as [Hn|Hn].
    + left. apply (py_add_nan acc item acc' (or_introl Hn) Ha).
    + inversion Hn as [? ? Hi|]; subst; [|now right].
      left. apply (py_add_nan acc item acc' (or_intror Hi) Ha).
Qed.

Lemma rounded_mean_nan values avg :
  Exists is_nan_value values -> rounded_mean values = Ok avg ->
  is_nan_value avg.
Proof.
  unfold rounded_mean, py_sum. intros Hnan H.
  apply bind_ok in H as (total & Ht & H).
  apply bind_ok in H as (mean & Hm & H).
  destruct (py_sum_nan values (VInt 0) total (or_intror Hnan) Ht)
    as (t & -> & Hnt).
  unfold py_truediv in Hm. cbn [as_num bind to_float] in Hm.
  destruct (float_of_int (py_len values)) as [g|]; cbn [bind] in Hm;
    [|discriminate].
  destruct (num_is_zero _); [discriminate|]. inversion Hm; subst mean.
  cbn [py_round2 as_num bind] in H. inversion H; subst avg.
  eexists. split; [reflexivity|]. now apply nan_round2, nan_div_l.
Qed.

Lemma store_float_nan v : is_nan_value v -> store_float v = Raise IntegrityError.
Proof.
  intros (f & -> & Hf). unfold store_float, bind_float, store_real.
  cbn [as_num to_float bind]. now rewrite Hf.
Qed.

(** A recomputation that returns has met no nan. *)
Lemma stored_stats_no_nan values c :
  stored_stats values = Ok c -> ~ Exists is_nan_value values.
Proof.
  unfold stored_stats. intros H Hnan.
  apply bind_ok in H as (s & Hs & Hf).
  destruct (compute_stats_fields _ _ Hs) as (_ & _ & Havg & _).
  destruct (flush_fields _ _ Hf) as (_ & _ & Hst & _).
  rewrite (store_float_nan _ (rounded_mean_nan _ _ Hnan Havg)) in Hst.
  discriminate.
Qed.

Lemma number_has_value v :
  is_int_or_float v = true -> ~ is_nan_value v -> has_value v.
Proof.
  destruct v as [|b|z|f| | |]; simpl; intros H Hn; try discriminate;
    unfold has_value; cbn [value_of]; eauto.
  unfold float_value. destruct (Prim2SF f) eqn:E; cbn [spec_value]; eauto.
  exfalso. apply Hn. exists f. split; [reflexivity|]. now apply FloatFacts.is_nan_spec.
Qed.

Lemma no_nan_values values :
  Forall (fun v => is_int_or_float v = true) values ->
  ~ Exists is_nan_value values -> Forall has_value values.
Proof.
  intros Hnum Hn. apply Forall_forall. intros v Hv.
  apply number_has_value.
  - now apply (proj1 (Forall_forall _ _) Hnum).
  - intros Hv'. apply Hn. apply Exists_exists. eauto.
Qed.

(** What a row holds after its upsert. *)
Lemma stored_stats_describes values c :
  Forall (fun v => is_int_or_float v = true) values ->
  stored_stats values = Ok c ->
  describes values (col_min c) (col_max c) (col_avg c) (col_count c).
Proof.
  intros Hnum H.
  pose proof (no_nan_values values Hnum (stored_stats_no_nan _ _ H)) as Hval.
  unfold stored_stats in H. apply bind_ok in H as (s & Hs & Hf).
  destruct (compute_stats_fields _ _ Hs) as (Hmn & Hmx & Havg & Hn).
  destruct (flush_fields _ _ Hf) as (Smn & Smx & Savg & Sn).
  repeat split.
  - exists (stat_min s). split; [now apply py_min_is_minimum | assumption].
  - exists (stat_max s). split; [now apply py_max_is_maximum | assumption].
  - exists (stat_avg s). split; [|assumption].
    now rewrite <- rounded_mean_is_mean_rounded.
  - now rewrite Sn, Hn.
Qed.


(** A number in range is stored as it is bound. *)
Lemma store_real_not_nan f : not_nan f -> exists g, store_real f = Ok g.
Proof.
  intros H. unfold store_real.
  rewrite (proj2 (FloatFacts.is_nan_false f) H).
  destruct (f =? zero)%float; eauto.
Qed.

Lemma store_float_in_range v :
  is_int_or_float v = true -> in_range v -> exists f, store_float v = Ok f.
Proof.
  destruct bounds as (_ & _ & BC & _).
  assert (2 ^ 53 < float_max_int) as B by (vm_compute; reflexivity).
  unfold store_float, bind_float.
  destruct v as [|b|z|f| | |]; simpl; intros Hnum Hrange; try discriminate.
  - rewrite float_of_int_below by (destruct b; simpl; lia). cbn [bind].
    apply store_real_not_nan, FloatFacts.nearest_float_not_nan.
  - rewrite float_of_int_below by lia. cbn [bind].
    apply store_real_not_nan, FloatFacts.nearest_float_not_nan.
  - apply store_real_not_nan. now apply FloatFacts.finite_not_nan.
Qed.

(** On a non-empty list of numbers in range the four statistics exist and
    are stored. *)
Lemma stored_stats_total values :
  values <> [] -> py_len values < count_bound ->
  Forall (fun v => is_int_or_float v = true /\ in_range v) values ->
  exists c, stored_stats values = Ok c.
Proof.
  intros Hne Hlen Hall. unfold stored_stats, compute_stats.
  assert (Forall (fun v => is_int_or_float v = true) values) as Hnum.
  { eapply Forall_impl; [|exact Hall]. now intros v [H _]. }
  rewrite Forall_forall in Hall.
  destruct (py_min_total values Hne Hnum) as (mn & -> & Hmn).
  destruct (py_max_total values Hne Hnum) as (mx & -> & Hmx).
  rewrite Forall_forall in Hnum.
  assert (Forall (fun v => is_int_or_float v = true /\ in_range v) values)
    as Hall' by now apply Forall_forall.
  destruct (rounded_mean_total values Hne Hlen Hall') as (avg & -> & Havg).
  cbn [bind].
  destruct (store_float_in_range mn (Hnum mn Hmn) (proj2 (Hall mn Hmn)))
    as [fmn Hfmn].
  destruct (store_float_in_range mx (Hnum mx Hmx) (proj2 (Hall mx Hmx)))
    as [fmx Hfmx].
  assert (exists favg, store_float (VFloat avg) = Ok favg) as [favg Hfavg].
  { unfold store_float, bind_float. cbn [as_num to_float bind].
    now apply store_real_not_nan. }
  eexists. apply (flush_of_fields _ fmn fmx favg); assumption.
Qed.

(** *** The monthly table *)

Section Monthly.
Variable mac_address : string.
Variables year month : Z.

Lemma monthly_selects_key m a :
  monthly_selects mac_address year month m a = true
  <-> monthly_key a = (mac_address, year, month, m).
Proof.
  unfold monthly_selects, monthly_key.
  rewrite !andb_true_iff, !String.eqb_eq, !Z.eqb_eq. split.
  - intros [[[-> ->] ->] ->]. reflexivity.
  - intros E. inversion E. auto.
Qed.

Lemma monthly_key_of_inj (m m' : string) :
  (mac_address, year, month, m) = (mac_address, year, month, m') -> m = m'.
Proof. intros E. now inversion E. Qed.



End Monthly.


Lemma monthly_upserts_ok mac_address ts metrics aggs aggs' :
  monthly_constraints aggs ->
  upsert_aggregates MonthlyAggregate.id
    (monthly_selects mac_address (datetime.year ts) (datetime.month ts))
    (monthly_new mac_address (datetime.year ts) (datetime.month ts))
    monthly_assign metrics aggs = Ok aggs' ->
  monthly_constraints aggs'.
Proof.
  apply (upserts_table_ok MonthlyAggregate.id monthly_key
           (fun m => (mac_address, datetime.year ts, datetime.month ts, m)));
    try reflexivity.
  apply monthly_selects_key.
Qed.


Lemma update_monthly_inv mac_address ts db db' :
  update_monthly_aggregates mac_address ts db = Ok db' ->
  (monthly_rows mac_address ts db = [] /\ db' = db)
  \/ (monthly_rows mac_address ts db <> []
      /\ daily_readings db' = daily_readings db
      /\ yearly_aggregates db' = yearly_aggregates db
      /\ upsert_aggregates MonthlyAggregate.id
           (monthly_selects mac_address (datetime.year ts) (datetime.month ts))
           (monthly_new mac_address (datetime.year ts) (datetime.month ts))
           monthly_assign
           (collect_metrics (monthly_rows mac_address ts db))
           (monthly_aggregates db)
         = Ok (monthly_aggregates db')).
Proof.
  unfold update_monthly_aggregates.
  destruct (monthly_rows mac_address ts db) as [|data rows] eqn:R.
  - intros H. inversion H; subst. now left.
  - intros H. apply bind_ok in H as (aggs & Hu & H). inversion H; subst.
    right. simpl. repeat split; try assumption. easy.
Qed.

Lemma monthly_rows_update mac_address ts db db' :
  daily_readings db' = daily_readings db ->
  monthly_rows mac_address ts db' = monthly_rows mac_address ts db.
Proof. unfold monthly_rows. now intros ->. Qed.

(** The laws of the upsert loop hold of the monthly table. *)
Ltac monthly_laws :=
  first [ apply monthly_selects_key
        | apply monthly_key_of_inj
        | intros; reflexivity ].

Lemma monthly_upserts_total mac_address ts metrics aggs :
  monthly_constraints aggs ->
  (forall m values, In (m, values) metrics ->
     exists s, stored_stats values = Ok s) ->
  exists aggs',
    upsert_aggregates MonthlyAggregate.id
      (monthly_selects mac_address (datetime.year ts) (datetime.month ts))
      (monthly_new mac_address (datetime.year ts) (datetime.month ts))
      monthly_assign metrics aggs = Ok aggs'.
Proof.
  apply (upserts_total MonthlyAggregate.id monthly_key
           (fun m => (mac_address, datetime.year ts, datetime.month ts, m)));
    monthly_laws.
Qed.


Lemma monthly_upserts_idempotent mac_address ts metrics aggs aggs' :
  monthly_constraints aggs -> NoDup (map fst metrics) ->
  upsert_aggregates MonthlyAggregate.id
    (monthly_selects mac_address (datetime.year ts) (datetime.month ts))
    (monthly_new mac_address (datetime.year ts) (datetime.month ts))
    monthly_assign metrics aggs = Ok aggs' ->
  upsert_aggregates MonthlyAggregate.id
    (monthly_selects mac_address (datetime.year ts) (datetime.month ts))
    (monthly_new mac_address (datetime.year ts) (datetime.month ts))
    monthly_assign metrics aggs' = Ok aggs'.
Proof.
  apply (upserts_idempotent MonthlyAggregate.id monthly_key
           (fun m => (mac_address, datetime.year ts, datetime.month ts, m)));
    monthly_laws.
Qed.

(** A metric with a value in a reading has values in the period. *)
Lemma values_of_present metric rows data v :
  In data rows -> dict_get metric (get_numeric_fields data) = Some v ->
  In (metric, values_of metric rows) (collect_metrics rows).
Proof.
  intros Hin Hget. apply collect_metrics_In. split; [reflexivity|].
  intros E. assert (In v (values_of metric rows)) as Hv.
  { unfold values_of. apply in_flat_map. exists data.
    split; [assumption|]. rewrite Hget. now left. }
  rewrite E in Hv. destruct Hv.
Qed.

Lemma values_of_nan_present metric rows :
  Exists is_nan_value (values_of metric rows) ->
  In (metric, values_of metric rows) (collect_metrics rows).
Proof.
  intros Hnan. apply collect_metrics_In. split; [reflexivity|].
  intros E. rewrite E in Hnan. inversion Hnan.
Qed.

(** The monthly recomputation returns on readings in range. *)
Lemma update_monthly_returns mac_address ts db :
  monthly_constraints (monthly_aggregates db) ->
  readings_in_range (monthly_rows mac_address ts db) ->
  exists db', update_monthly_aggregates mac_address ts db = Ok db'.
Proof.
  intros Hok Hrange. unfold update_monthly_aggregates.
  destruct (monthly_rows mac_address ts db) as [|data rest] eqn:R; [eauto|].
  rewrite <- R in *.
  destruct (monthly_upserts_total mac_address ts
              (collect_metrics (monthly_rows mac_address ts db))
              (monthly_aggregates db) Hok) as [aggs Haggs].
  - intros m values Hin. apply collect_metrics_In in Hin as [-> Hne].
    destruct (values_of_in_range m _ Hrange) as [Hlen Hall].
    now apply stored_stats_total.
  - rewrite Haggs. cbn [bind]. eauto.
Qed.



(** *** The yearly table *)

Lemma yearly_selects_key mac_address year m a :
  yearly_selects mac_address year m a = true
  <-> yearly_key a = (mac_address, year, m).
Proof.
  unfold yearly_selects, yearly_key.
  rewrite !andb_true_iff, !String.eqb_eq, !Z.eqb_eq. split.
  - intros [[-> ->] ->]. reflexivity.
  - intros E. inversion E. auto.
Qed.

Lemma yearly_key_of_inj (mac_address : string) (year : Z) (m m' : string) :
  (mac_address, year, m) = (mac_address, year, m') -> m = m'.
Proof. intros E. now inversion E. Qed.

Ltac yearly_laws :=
  first [ apply yearly_selects_key
        | apply yearly_key_of_inj
        | intros; reflexivity ].

Lemma yearly_upserts_ok mac_address ts metrics aggs aggs' :
  yearly_constraints aggs ->
  upsert_aggregates YearlyAggregate.id
    (yearly_selects mac_address (datetime.year ts))
    (yearly_new mac_address (datetime.year ts))
    yearly_assign metrics aggs = Ok aggs' ->
  yearly_constraints aggs'.
Proof.
  apply (upserts_table_ok YearlyAggregate.id yearly_key
           (fun m => (mac_address, datetime.year ts, m)));
    yearly_laws.
Qed.

Lemma yearly_upserts_idempotent mac_address ts metrics aggs aggs' :
  yearly_constraints aggs -> NoDup (map fst metrics) ->
  upsert_aggregates YearlyAggregate.id
    (yearly_selects mac_address (datetime.year ts))
    (yearly_new mac_address (datetime.year ts))
    yearly_assign metrics aggs = Ok aggs' ->
  upsert_aggregates YearlyAggregate.id
    (yearly_selects mac_address (datetime.year ts))
    (yearly_new mac_address (datetime.year ts))
    yearly_assign metrics aggs' = Ok aggs'.
Proof.
  apply (upserts_idempotent YearlyAggregate.id yearly_key
           (fun m => (mac_address, datetime.year ts, m)));
    yearly_laws.
Qed.

Lemma update_yearly_inv mac_address ts db db' :
  update_yearly_aggregates mac_address ts db = Ok db' ->
  (yearly_rows mac_address ts db = [] /\ db' = db)
  \/ (yearly_rows mac_address ts db <> []
      /\ daily_readings db' = daily_readings db
      /\ monthly_aggregates db' = monthly_aggregates db
      /\ upsert_aggregates YearlyAggregate.id
           (yearly_selects mac_address (datetime.year ts))
           (yearly_new mac_address (datetime.year ts))
           yearly_assign
           (collect_metrics (yearly_rows mac_address ts db))
           (yearly_aggregates db)
         = Ok (yearly_aggregates db')).
Proof.
  unfold update_yearly_aggregates.
  destruct (yearly_rows mac_address ts db) as [|data rows] eqn:R.
  - intros H. inversion H; subst. now left.
  - intros H. apply bind_ok in H as (aggs & Hu & H). inversion H; subst.
    right. simpl. repeat split; try assumption. easy.
Qed.

(** *** Recomputing twice, and the constraints along a run *)

Lemma update_monthly_idempotent mac_address ts db db1 :
  monthly_constraints (monthly_aggregates db) ->
  update_monthly_aggregates mac_address ts db = Ok db1 ->
  update_monthly_aggregates mac_address ts db1 = Ok db1.
Proof.
  intros Hok Hup.
  destruct (update_monthly_inv _ _ _ _ Hup)
    as [[Hnone ->]|(Hsome & Hdaily & Hyearly & Hu)]; [assumption|].
  pose proof (monthly_rows_update mac_address ts db db1 Hdaily) as Hrows.
  unfold update_monthly_aggregates. rewrite Hrows.
  destruct (monthly_rows mac_address ts db) as [|data rows] eqn:R; [easy|].
  rewrite (monthly_upserts_idempotent mac_address ts _ _ _ Hok
             (collect_metrics_NoDup _) Hu).
  cbn [bind]. now destruct db1.
Qed.

Lemma update_yearly_idempotent mac_address ts db db1 :
  yearly_constraints (yearly_aggregates db) ->
  update_yearly_aggregates mac_address ts db = Ok db1 ->
  update_yearly_aggregates mac_address ts db1 = Ok db1.
Proof.
  intros Hok Hup.
  destruct (update_yearly_inv _ _ _ _ Hup)
    as [[Hnone ->]|(Hsome & Hdaily & Hmonthly & Hu)]; [assumption|].
  assert (yearly_rows mac_address ts db1 = yearly_rows mac_address ts db) as Hrows.
  { unfold yearly_rows. now rewrite Hdaily. }
  unfold update_yearly_aggregates. rewrite Hrows.
  destruct (yearly_rows mac_address ts db) as [|data rows] eqn:R; [easy|].
  rewrite (yearly_upserts_idempotent mac_address ts _ _ _ Hok
             (collect_metrics_NoDup _) Hu).
  cbn [bind]. now destruct db1.
Qed.

Lemma update_monthly_constraints mac_address ts db db' :
  constraints_hold db ->
  update_monthly_aggregates mac_address ts db = Ok db' ->
  constraints_hold db'.
Proof.
  intros [Hm Hy] Hup.
  destruct (update_monthly_inv _ _ _ _ Hup)
    as [[_ ->]|(_ & _ & Hyearly & Hu)]; [now split|].
  split; [eapply monthly_upserts_ok; eauto | now rewrite Hyearly].
Qed.

Lemma update_yearly_constraints mac_address ts db db' :
  constraints_hold db ->
  update_yearly_aggregates mac_address ts db = Ok db' ->
  constraints_hold db'.
Proof.
  intros [Hm Hy] Hup.
  destruct (update_yearly_inv _ _ _ _ Hup)
    as [[_ ->]|(_ & _ & Hmonthly & Hu)]; [now split|].
  split; [now rewrite Hmonthly | eapply yearly_upserts_ok; eauto].
Qed.

Lemma constraints_at_most_one_row db : constraints_hold db -> at_most_one_row db.
Proof.
  intros [[_ Hm] [_ Hy]]. split.
  - intros mac_address year month metric_name.
    destruct (filter_unique_key monthly_key _ _ (monthly_aggregates db)
                (monthly_selects_key mac_address year month metric_name) Hm)
      as [->|[a ->]]; simpl; lia.
  - intros mac_address year metric_name.
    destruct (filter_unique_key yearly_key _ _ (yearly_aggregates db)
                (yearly_selects_key mac_address year metric_name) Hy)
      as [->|[a ->]]; simpl; lia.
Qed.

Section Keeps.
Variable I : Db -> Prop.

Lemma keeps_ret {A} (a : A) : keeps I (ret a).
Proof. intros w r w' Hw H. now inversion H; subst. Qed.

Lemma keeps_lift {A} (x : result A) : keeps I (lift x).
Proof. intros w r w' Hw H. now inversion H; subst. Qed.

Lemma keeps_emit e : keeps I (emit e).
Proof. intros w r w' Hw H. now inversion H; subst. Qed.

Lemma keeps_mbind {A B} (m : M A) (k : A -> M B) :
  keeps I m -> (forall a, keeps I (k a)) -> keeps I (mbind m k).
Proof.
  intros Hm Hk w r w' Hw. unfold mbind.
  destruct (m w) as [[a|e] w1] eqn:E; intros H.
  - eapply Hk; [|exact H]. eapply Hm; eauto.
  - inversion H; subst. eapply Hm; eauto.
Qed.

Lemma keeps_try_except body handler :
  keeps I body -> (forall e, keeps I (handler e)) ->
  keeps I (try_except body handler).
Proof.
  intros Hb Hh w r w' Hw. unfold try_except.
  destruct (body w) as [[[]|e] w1] eqn:E; intros H.
  - inversion H; subst. eapply Hb; eauto.
  - eapply Hh; [|exact H]. eapply Hb; eauto.
Qed.

Lemma keeps_on_db {A} (f : Db -> A * Db) :
  (forall d, I d -> I (snd (f d))) -> keeps I (on_db f).
Proof.
  intros Hf w r w' Hw. unfold on_db. specialize (Hf (db w) Hw).
  destruct (f (db w)) as [a d']. intros H. now inversion H; subst.
Qed.

Lemma keeps_in_session (f : Db -> result Db) :
  (forall d d', I d -> f d = Ok d' -> I d') -> keeps I (in_session f).
Proof.
  intros Hf w r w' Hw. unfold in_session.
  destruct (f (db w)) as [d'|e] eqn:E; intros H; inversion H; subst; simpl; eauto.
Qed.

Lemma keeps_in_session_returning {A} (f : Db -> result (A * Db)) :
  (forall d a d', I d -> f d = Ok (a, d') -> I d') ->
  keeps I (in_session_returning f).
Proof.
  intros Hf w r w' Hw. unfold in_session_returning.
  destruct (f (db w)) as [[a d']|e] eqn:E; intros H; inversion H; subst;
    simpl; eauto.
Qed.

Lemma keeps_publish data : keeps I (publish data).
Proof.
  intros w r w' Hw. unfold publish.
  destruct (Broadcast.publish (broadcaster w) data); intros H;
    now inversion H; subst.
Qed.

End Keeps.

(** A purge that returns has deleted readings and nothing else. *)
Lemma purge_old_readings_inv settings mac_address now db deleted db' :
  purge_old_readings settings mac_address now db = Ok (deleted, db') ->
  exists cutoff,
    cutoff_of (daily_retention_days settings) now = Ok cutoff
    /\ daily_readings db'
       = filter (fun r => negb (expired mac_address cutoff r)) (daily_readings db)
    /\ monthly_aggregates db' = monthly_aggregates db
    /\ yearly_aggregates db' = yearly_aggregates db
    /\ deleted = py_len (daily_readings db) - py_len (daily_readings db').
Proof.
  unfold purge_old_readings. intros H.
  apply bind_ok in H as (cutoff & Hc & H). inversion H; subst.
  exists cutoff. simpl. auto.
Qed.

Lemma purge_keeps_constraints settings mac_address now d deleted d' :
  constraints_hold d ->
  purge_old_readings settings mac_address now d = Ok (deleted, d') ->
  constraints_hold d'.
Proof.
  intros Hd H.
  apply purge_old_readings_inv in H as (cutoff & _ & _ & Hm & Hy & _).
  unfold constraints_hold. now rewrite Hm, Hy.
Qed.

(** The steps of a tick after the reading is converted. *)
Ltac keeps_steps store_keeps monthly_keeps yearly_keeps purge_keeps :=
  apply keeps_mbind; [apply keeps_lift|]; intros converted;
  apply keeps_mbind; [apply keeps_on_db; store_keeps|]; intros ts;
  apply keeps_mbind; [apply keeps_in_session; monthly_keeps|]; intros _;
  apply keeps_mbind; [apply keeps_in_session; yearly_keeps|]; intros _;
  apply keeps_mbind; [apply keeps_in_session_returning; purge_keeps|];
  intros deleted;
  apply keeps_mbind;
    [destruct (deleted =? 0); [apply keeps_ret | apply keeps_emit]|];
  intros _; apply keeps_mbind; [apply keeps_publish|]; intros _;
  apply keeps_emit.

Lemma tick_keeps_constraints settings i : keeps constraints_hold (tick settings i).
Proof.
  unfold tick, collect, log, sleep.
  apply keeps_mbind; [|intros; apply keeps_emit].
  apply keeps_try_except.
  - apply keeps_mbind; [apply keeps_lift|]. intros raw.
    destruct raw; [apply keeps_emit|..];
      keeps_steps ltac:(intros ? Hd; exact Hd)
                  ltac:(intros ? ?; apply update_monthly_constraints)
                  ltac:(intros ? ?; apply update_yearly_constraints)
                  ltac:(intros ? ? ?; apply purge_keeps_constraints).
  - intros e. unfold on_exception, log, sleep.
    destruct e; try apply keeps_emit.
    destruct (status_code =? 429); [|apply keeps_emit].
    apply keeps_mbind; [apply keeps_emit | intros; apply keeps_emit].
Qed.

Lemma ticks_keep_constraints settings inputs :
  keeps constraints_hold (ticks settings inputs).
Proof.
  induction inputs as [|i inputs IH]; cbn [ticks].
  - apply keeps_ret.
  - apply keeps_mbind; [apply tick_keeps_constraints | intros; apply IH].
Qed.

(** C3. Recomputing the aggregates of a period a second time over the same
    readings leaves the tables exactly as the first recomputation made them;
    a recomputation keeps the constraints of the tables; and so after any
    run of the collection loop from the empty tables there is at most one
    aggregate row per device, period key and metric name. *)
Theorem recompute_idempotent_one_row_per_key :
  (forall mac_address ts db db1,
      constraints_hold db ->
      (update_monthly_aggregates mac_address ts db = Ok db1 ->
       update_monthly_aggregates mac_address ts db1 = Ok db1
       /\ constraints_hold db1 /\ at_most_one_row db1)
      /\ (update_yearly_aggregates mac_address ts db = Ok db1 ->
          update_yearly_aggregates mac_address ts db1 = Ok db1
          /\ constraints_hold db1 /\ at_most_one_row db1))
  /\ (forall settings inputs b r w',
         collection_loop settings inputs
           {| db := Database.empty; broadcaster := b; trace := [] |} = (r, w') ->
         at_most_one_row (db w')).
Proof.
  split.
  - intros mac_address ts db db1 Hok. split; intros Hup.
    + pose proof (update_monthly_constraints _ _ _ _ Hok Hup) as Hok1.
      repeat split; try apply Hok1.
      * apply (update_monthly_idempotent _ _ db); [apply Hok | assumption].
      * now apply constraints_at_most_one_row.
      * now apply constraints_at_most_one_row.
    + pose proof (update_yearly_constraints _ _ _ _ Hok Hup) as Hok1.
      repeat split; try apply Hok1.
      * apply (update_yearly_idempotent _ _ db); [apply Hok | assumption].
      * now apply constraints_at_most_one_row.
      * now apply constraints_at_most_one_row.
  - intros settings inputs b r w' H. apply constraints_at_most_one_row.
    assert (keeps constraints_hold (collection_loop settings inputs)) as K.
    { unfold collection_loop, log.
      apply keeps_mbind; [apply keeps_emit | intros; apply ticks_keep_constraints]. }
    apply (K _ _ _) with (2 := H). simpl. repeat split; constructor.
Qed.

Lemma recompute_idempotent_one_row_per_key_witness :
  update_monthly_aggregates "AA:BB" march
    {| daily_readings := daily_readings two_readings;
       monthly_aggregates := [temp_c_row];
       yearly_aggregates := [] |}
  = Ok {| daily_readings := daily_readings two_readings;
          monthly_aggregates := [temp_c_row];
          yearly_aggregates := [] |}.
Proof.
  destruct recompute_idempotent_one_row_per_key as [H _].
  destruct (H "AA:BB" march two_readings
              {| daily_readings := daily_readings two_readings;
                 monthly_aggregates := [temp_c_row];
                 yearly_aggregates := [] |}) as [Hm _].
  - repeat split; constructor.
  - apply Hm. vm_compute. reflexivity.
Defined.

End AggregateSpec.

(** ** The collection loop *)

Module LoopSpec.
Import Py Config Database Collector Samples.

Lemma emit_after e w : emit e w = (Ok tt, after w [e]).
Proof. reflexivity. Qed.

Lemma after_after w es es' : after (after w es) es' = after w (es ++ es').
Proof. unfold after. simpl. now rewrite app_assoc. Qed.

(** The handlers of the loop never raise. *)
Lemma on_exception_returns e w : exists w', on_exception e w = (Ok tt, w').
Proof.
  unfold on_exception, log, sleep, mbind.
  destruct e; try (eexists; apply emit_after).
  destruct (status_code =? 429); [|eexists; apply emit_after].
  rewrite emit_after. eexists. apply emit_after.
Qed.

(** No exception leaves a tick. *)
Lemma tick_returns settings i w : exists w', tick settings i w = (Ok tt, w').
Proof.
  unfold tick, mbind, try_except, sleep.
  destruct (collect settings i w) as [[[]|e] w1].
  - eexists. apply emit_after.
  - destruct (on_exception_returns e w1) as [w2 ->]. eexists. apply emit_after.
Qed.

Lemma fetch_rate_limited body :
  fetch_latest_reading (Response 429 body) = Raise (HTTPStatusError 429).
Proof. reflexivity. Qed.

(** C5. A tick whose GET is answered with status 429 raises nothing: it
    logs the warning, sleeps 5 seconds, does none of the other steps (the
    tables and the subscriber queues are as before, nothing else is logged)
    and then sleeps the configured interval; the loop goes on with the next
    tick from there. *)
Theorem rate_limit_backs_off settings i body w :
  outcome i = Response 429 body ->
  let w' :=
    after w [Log WARNING "AWN API rate limited, backing off";
             Sleep 5;
             Sleep (collection_interval_seconds settings)] in
  tick settings i w = (Ok tt, w')
  /\ forall rest, ticks settings (i :: rest) w = ticks settings rest w'.
Proof.
  intros Hout w'.
  assert (tick settings i w = (Ok tt, w')) as Htick.
  { unfold tick, try_except, collect, lift.
    rewrite Hout, fetch_rate_limited.
    cbv [mbind on_exception log sleep Z.eqb Pos.eqb].
    rewrite !emit_after, !after_after. reflexivity. }
  split; [exact Htick|].
  intros rest. cbn [ticks]. unfold mbind at 1. now rewrite Htick.
Qed.

Lemma rate_limit_backs_off_witness :
  tick Config.defaults rate_limited start
  = (Ok tt,
     {| db := Database.empty; broadcaster := Broadcast.init;
        trace := [Log WARNING "AWN API rate limited, backing off";
                  Sleep 5; Sleep 60] |}).
Proof.
  exact (proj1 (rate_limit_backs_off Config.defaults rate_limited None start
                  eq_refl)).
Defined.

End LoopSpec.

(** ** Startup *)

Module MainSpec.
Import Config Main Samples.

(** C6 (what the code does). The collector is started although the
    application key is absent: startup tests the API key and the device
    only. *)
Theorem collector_started_without_application_key :
  awn_application_key no_application_key = ""
  /\ collector_started (lifespan_startup no_application_key) = true.
Proof. split; reflexivity. Qed.

(** Without the API key or without the device the collector is not
    started. *)
Lemma collector_needs_api_key_and_device settings :
  awn_api_key settings = "" \/ awn_mac_address settings = "" ->
  collector_started (lifespan_startup settings) = false.
Proof.
  unfold lifespan_startup, truthy. intros [->| ->]; simpl; [reflexivity|].
  now destruct (negb (String.eqb (awn_api_key settings) "")).
Qed.

End MainSpec.

(** ** More on the converter *)

Module ConverterProps.
Import Py PyFacts Converter ConverterView ConverterSpec.

Lemma convert_item_view converted key value :
  convert_item converted (key, value)
  = match output_key key with
    | None => Ok converted
    | Some out =>
        v <- output_value key value ;; Ok (dict_set out v converted)
    end.
Proof.
  unfold convert_item, output_key, output_value.
  destruct (set_mem key EXCLUDED_FIELDS); [reflexivity|].
  destruct (dict_get key FIELD_CONVERSIONS) as [[metric_key [fn|]]|];
    try reflexivity.
  destruct (is_int_or_float value); reflexivity.
Qed.

Lemma dict_set_fresh {V} (k : string) (v : V) (d : list (string * V)) :
  ~ In k (dict_keys d) -> dict_set k v d = d ++ [(k, v)].
Proof.
  unfold dict_keys. induction d as [|[k' v'] d IH]; simpl; intros H; [reflexivity|].
  destruct (String.eqb k k') eqn:E.
  - apply String.eqb_eq in E. subst. tauto.
  - rewrite IH; [reflexivity | tauto].
Qed.

Lemma for_each_convert_items raw_data converted :
  NoDup (dict_keys converted ++ output_keys raw_data) ->
  for_each convert_item raw_data converted
  = (items <- output_items raw_data ;; Ok (converted ++ items)).
Proof.
  revert converted.
  induction raw_data as [|[key value] rest IH]; intros converted Hnd;
    cbn [for_each output_items].
  - cbn [bind]. now rewrite app_nil_r.
  - rewrite convert_item_view.
    unfold output_keys in Hnd. cbn [flat_map fst] in Hnd.
    fold (output_keys rest) in Hnd.
    destruct (output_key key) as [out|]; cbn [bind].
    + destruct (output_value key value) as [v|e]; cbn [bind]; [|reflexivity].
      assert (~ In out (dict_keys converted)) as Hfresh.
      { intros Hin. apply NoDup_remove_2 in Hnd. apply Hnd.
        apply in_or_app. now left. }
      rewrite (dict_set_fresh out v converted Hfresh). rewrite IH.
      * destruct (output_items rest); cbn [bind]; [|reflexivity].
        now rewrite <- app_assoc.
      * unfold dict_keys in *. rewrite map_app. cbn [map fst].
        rewrite <- app_assoc. exact Hnd.
    + apply IH. exact Hnd.
Qed.

(** X1. When no two items of the raw reading are written under the same
    output key, the converted reading has exactly one item per input item
    that is not excluded, in the order of the input: each under its output
    key (the renamed key of the table, or the key itself when the table does
    not know it) with its output value. *)
Theorem convert_reading_item_by_item raw_data :
  NoDup (output_keys raw_data) ->
  convert_reading raw_data = output_items raw_data.
Proof.
  intros Hnd. unfold convert_reading.
  rewrite for_each_convert_items by exact Hnd.
  now destruct (output_items raw_data).
Qed.

Lemma convert_reading_item_by_item_witness :
  convert_reading raw_sample
  = Ok [("temp_c", VFloat 22.22); ("wind_speed_kmh", VFloat 8.05);
        ("humidity", VInt 40); ("batteryVoltage", VFloat 3.1)].
Proof.
  rewrite (convert_reading_item_by_item raw_sample).
  - vm_compute. reflexivity.
  - vm_compute. repeat constructor; simpl; intuition discriminate.
Defined.

(** X2. An item whose key is not excluded and has no transform in the
    table (a key the table only renames, such as [humidity], or a key the
    table does not know) keeps its value as it is, number or not: wherever
    the item stands in the raw reading, what it does to the output is the
    assignment of that value under the output key, and the output key of an
    unknown key is the key itself. *)
Theorem untransformed_value_kept key out value :
  output_key key = Some out ->
  (forall metric_key fn,
      dict_get key FIELD_CONVERSIONS <> Some (metric_key, Some fn)) ->
  convert_reading [(key, value)] = Ok [(out, value)]
  /\ (forall before after,
        convert_reading (before ++ (key, value) :: after)
        = (converted <- convert_reading before ;;
           for_each convert_item after (dict_set out value converted)))
  /\ (dict_get key FIELD_CONVERSIONS = None -> out = key).
Proof.
  intros Hout Hno.
  assert (output_value key value = Ok value) as Hval.
  { unfold output_value.
    destruct (dict_get key FIELD_CONVERSIONS) as [[m [fn|]]|]; try reflexivity.
    now destruct (Hno m fn). }
  assert (forall converted,
             convert_item converted (key, value)
             = Ok (dict_set out value converted)) as Hitem.
  { intros converted. now rewrite convert_item_view, Hout, Hval. }
  split; [|split].
  - unfold convert_reading. cbn [for_each]. now rewrite Hitem.
  - intros before after. rewrite convert_reading_item.
    destruct (convert_reading before) as [converted|e]; cbn [bind]; [|reflexivity].
    now rewrite Hitem.
  - intros Hnone. unfold output_key in Hout. rewrite Hnone in Hout.
    destruct (set_mem key EXCLUDED_FIELDS); [discriminate|]. now inversion Hout.
Qed.

Lemma untransformed_value_kept_witness :
  convert_reading [("humidity", VFloat 45.678)]
  = Ok [("humidity", VFloat 45.678)].
Proof.
  refine (proj1 (untransformed_value_kept "humidity" "humidity"
                   (VFloat 45.678) eq_refl _)).
  intros metric_key fn. vm_compute. discriminate.
Defined.

Lemma small_margin : (Collector.int_bound + 32) * 5 < float_max_int.
Proof. vm_compute. reflexivity. Qed.

Lemma small_representable c v n :
  Collector.small v -> as_num v = Ok n -> representable c n = true.
Proof.
  pose proof small_margin as M. intros Hs Hn.
  destruct v as [|b|z|f| | |]; try discriminate; inversion Hn; subst;
    cbn [representable]; [|destruct c; apply Z.ltb_lt; simpl in Hs; lia|reflexivity].
  assert (1 <= Collector.int_bound) as B1 by (vm_compute; discriminate).
  destruct c, b; apply Z.ltb_lt; simpl; lia.
Qed.

Lemma output_value_overflow key value :
  (exists v, output_value key value = Ok v)
  \/ output_value key value = Raise OverflowError.
Proof.
  unfold output_value.
  destruct (dict_get key FIELD_CONVERSIONS) as [[m [fn|]]|] eqn:Hk; eauto.
  destruct (is_int_or_float value) eqn:Hv; eauto.
  destruct (table_transforms _ _ _ Hk) as [c ->].
  rewrite (conversion_formula c value Hv). unfold rounded_formula.
  destruct (as_num_numeric value Hv) as [n ->]. cbn [bind].
  destruct (representable c n); eauto.
Qed.

Lemma output_value_small key value :
  Collector.small value -> exists v, output_value key value = Ok v.
Proof.
  intros Hs. unfold output_value.
  destruct (dict_get key FIELD_CONVERSIONS) as [[m [fn|]]|] eqn:Hk; eauto.
  destruct (is_int_or_float value) eqn:Hv; eauto.
  destruct (table_transforms _ _ _ Hk) as [c ->].
  rewrite (conversion_formula c value Hv). unfold rounded_formula.
  destruct (as_num_numeric value Hv) as [n Hn]. rewrite Hn. cbn [bind].
  rewrite (small_representable c value n Hs Hn). eauto.
Qed.

(** X3. The only exception [convert_reading] raises is [OverflowError],
    and it raises none when no value of the raw reading is an int of
    [2^1000] or more in size: strings, nulls, lists, floats (nan and the
    infinities too) and bools never make the conversion fail. *)
Theorem convert_reading_raises_only_overflow raw_data :
  ((exists converted, convert_reading raw_data = Ok converted)
   \/ convert_reading raw_data = Raise OverflowError)
  /\ (Forall (fun kv => Collector.small (snd kv)) raw_data ->
      exists converted, convert_reading raw_data = Ok converted).
Proof.
  unfold convert_reading. generalize (@nil (string * PyVal)) as converted.
  induction raw_data as [|[key value] rest IH]; intros converted;
    cbn [for_each]; [split; eauto|].
  rewrite convert_item_view. split.
  - destruct (output_key key) as [out|]; cbn [bind]; [|apply IH].
    destruct (output_value_overflow key value) as [[v ->]| ->]; cbn [bind];
      [apply IH | now right].
  - intros Hall. inversion Hall as [|? ? Hs Hrest]; subst.
    destruct (output_key key) as [out|]; cbn [bind]; [|now apply IH].
    destruct (output_value_small key value Hs) as [v ->]. cbn [bind].
    now apply IH.
Qed.

Lemma convert_reading_raises_only_overflow_witness :
  exists converted,
    convert_reading [("tempf", VFloat nan); ("solarradiation", VStr "n/a");
                     ("uv", VBool true)] = Ok converted.
Proof.
  apply (proj2 (convert_reading_raises_only_overflow
                  [("tempf", VFloat nan); ("solarradiation", VStr "n/a");
                   ("uv", VBool true)])).
  repeat constructor.
Defined.

(** X4. Excluded items have no part in the conversion: the converted
    reading is that of the raw reading without them. *)
Theorem excluded_items_ignored raw_data :
  convert_reading raw_data
  = convert_reading
      (filter (fun kv => negb (set_mem (fst kv) EXCLUDED_FIELDS)) raw_data).
Proof.
  unfold convert_reading. generalize (@nil (string * PyVal)) as converted.
  induction raw_data as [|[key value] rest IH]; intros converted; [reflexivity|].
  cbn [filter fst].
  destruct (set_mem key EXCLUDED_FIELDS) eqn:E; cbn [negb for_each].
  - unfold convert_item at 1. rewrite E. cbn [bind]. apply IH.
  - destruct (convert_item converted (key, value)); cbn [bind];
      [apply IH | reflexivity].
Qed.

(** Every key of the output is the output key of some input key. *)
Lemma output_keys_are_targets raw_data converted :
  convert_reading raw_data = Ok converted ->
  forall k, In k (dict_keys converted) -> exists key, output_key key = Some k.
Proof.
  unfold convert_reading.
  apply (for_each_invariant
           (fun d : dict => forall k, In k (dict_keys d) ->
                                      exists key, output_key key = Some k)
           convert_item); [|intros k []].
  intros d [key value] d' Hd. rewrite convert_item_view.
  destruct (output_key key) as [out|] eqn:Hout.
  - intros H. apply bind_ok in H as (v & _ & H). inversion H; subst.
    intros k Hk. apply dict_keys_set in Hk as [->|Hk]; eauto.
  - intros H. inversion H; subst. exact Hd.
Qed.

Lemma renamed_keys_checked :
  forallb (fun row =>
             match dict_get (fst (snd row)) FIELD_CONVERSIONS with
             | Some (metric_key, _) => String.eqb metric_key (fst (snd row))
             | None => true
             end) FIELD_CONVERSIONS = true.
Proof. vm_compute. reflexivity. Qed.

(** X5. A key that the table renames to another name never is a key of
    the converted reading: after the conversion no imperial field name such
    as [tempf] or [windspeedmph] is left, whatever the raw reading. *)
Theorem renamed_keys_never_in_output raw_data converted key metric_key fn :
  dict_get key FIELD_CONVERSIONS = Some (metric_key, fn) ->
  metric_key <> key ->
  convert_reading raw_data = Ok converted ->
  ~ In key (dict_keys converted).
Proof.
  intros Hk Hne Hconv Hin.
  destruct (output_keys_are_targets _ _ Hconv key Hin) as [key0 H0].
  unfold output_key in H0.
  destruct (set_mem key0 EXCLUDED_FIELDS); [discriminate|].
  destruct (dict_get key0 FIELD_CONVERSIONS) as [[m0 fn0]|] eqn:H1.
  - inversion H0; subst m0.
    pose proof renamed_keys_checked as C. rewrite forallb_forall in C.
    specialize (C _ (dict_get_In _ _ _ H1)). cbn [fst snd] in C.
    rewrite Hk in C. apply String.eqb_eq in C. contradiction.
  - inversion H0; subst key0. congruence.
Qed.

Lemma renamed_keys_never_in_output_witness :
  ~ In "tempf" (dict_keys [("tempf_backup", VInt 1); ("temp_c", VFloat 22.22)]).
Proof.
  apply (renamed_keys_never_in_output
           [("tempf_backup", VInt 1); ("tempf", VFloat 72.0)]
           [("tempf_backup", VInt 1); ("temp_c", VFloat 22.22)]
           "tempf" "temp_c" (Some fahrenheit_to_celsius)).
  - reflexivity.
  - discriminate.
  - vm_compute. reflexivity.
Defined.

Lemma numeric_fields_fold_fresh data (acc : dict) :
  NoDup (dict_keys acc ++ dict_keys data) ->
  fold_left
    (fun fields kv =>
       let '(k, v) := kv in
       if is_int_or_float v && negb (set_mem k NON_NUMERIC_FIELDS)
       then dict_set k v fields else fields) data acc
  = acc ++ filter is_numeric_field data.
Proof.
  revert acc. induction data as [|[k v] data IH]; intros acc Hnd;
    cbn [fold_left filter].
  - now rewrite app_nil_r.
  - unfold dict_keys in Hnd. cbn [map fst] in Hnd.
    unfold is_numeric_field at 1. cbn [fst snd].
    destruct (is_int_or_float v && negb (set_mem k NON_NUMERIC_FIELDS)).
    + assert (~ In k (dict_keys acc)) as Hfresh.
      { intros Hin. apply NoDup_remove_2 in Hnd. apply Hnd.
        apply in_or_app. now left. }
      rewrite (dict_set_fresh k v acc Hfresh), IH.
      * now rewrite <- app_assoc.
      * unfold dict_keys. rewrite map_app. cbn [map fst].
        rewrite <- app_assoc. exact Hnd.
    + apply IH. unfold dict_keys.
      apply NoDup_remove_1 in Hnd. exact Hnd.
Qed.

(** X6. On a dict (distinct keys) [get_numeric_fields] is the filter that
    keeps, in order, the items whose value is an int, a float or a bool and
    whose key is none of [date], [date_utc], [tz]; so those three keys never
    are in the result, even with a numeric value. *)
Theorem numeric_fields_is_filter data :
  NoDup (dict_keys data) ->
  get_numeric_fields data = filter is_numeric_field data
  /\ forall key, In key NON_NUMERIC_FIELDS ->
                 dict_get key (get_numeric_fields data) = None.
Proof.
  intros Hnd.
  assert (get_numeric_fields data = filter is_numeric_field data) as E.
  { unfold get_numeric_fields. now rewrite numeric_fields_fold_fresh. }
  split; [exact E|].
  intros key Hkey. apply dict_get_None. rewrite E. unfold dict_keys.
  intros Hin. apply in_map_iff in Hin as ([k v] & Hk & Hf). cbn [fst] in Hk.
  subst k. apply filter_In in Hf as [_ Hf]. unfold is_numeric_field in Hf.
  cbn [fst snd] in Hf. apply andb_true_iff in Hf as [_ Hf].
  apply negb_true_iff in Hf. apply set_mem_In in Hkey. congruence.
Qed.

Lemma numeric_fields_is_filter_witness :
  get_numeric_fields [("temp_c", VFloat 22.22); ("date_utc", VInt 1700000000);
                      ("tz", VStr "UTC"); ("humidity", VInt 40)]
  = [("temp_c", VFloat 22.22); ("humidity", VInt 40)].
Proof.
  refine (proj1 (numeric_fields_is_filter
                   [("temp_c", VFloat 22.22); ("date_utc", VInt 1700000000);
                    ("tz", VStr "UTC"); ("humidity", VInt 40)] _)).
  vm_compute. repeat constructor; simpl; intuition discriminate.
Defined.

End ConverterProps.

(** ** More on the broadcaster *)

Module BroadcastProps.
Import Py PyFacts Broadcast BroadcastView BroadcastSpec Samples.

Lemma take_ids id queues data queues' :
  take id queues = Some (data, queues') -> map qid queues' = map qid queues.
Proof.
  revert queues'. induction queues as [|q queues IH]; simpl; intros queues' H.
  - discriminate.
  - destruct (Nat.eqb (qid q) id).
    + unfold get in H. destruct (items q); [discriminate|].
      now inversion H; subst.
    + destruct (take id queues) as [[d rest]|]; [|discriminate].
      inversion H; subst. simpl. f_equal. now apply IH.
Qed.

Lemma remove_sublist id queues queues' :
  remove id queues = Ok queues' ->
  forall q, In q queues' -> In q queues.
Proof.
  revert queues'. induction queues as [|q0 queues IH]; simpl; intros queues' H.
  - discriminate.
  - destruct (Nat.eqb (qid q0) id).
    + inversion H; subst. intros q Hq. now right.
    + apply bind_ok in H as (rest & Hrem & H). inversion H; subst.
      intros q [->|Hq]; [now left | right; eauto].
Qed.

Lemma remove_NoDup id queues queues' :
  remove id queues = Ok queues' ->
  NoDup (map qid queues) -> NoDup (map qid queues').
Proof.
  revert queues'. induction queues as [|q0 queues IH]; simpl; intros queues' H Hnd.
  - discriminate.
  - inversion Hnd as [|? ? Hnot Hnd']; subst.
    destruct (Nat.eqb (qid q0) id).
    + now inversion H; subst.
    + apply bind_ok in H as (rest & Hrem & H). inversion H; subst.
      simpl. constructor; [|now apply IH].
      intros Hin. apply Hnot. apply in_map_iff in Hin as (q & E & Hq).
      apply in_map_iff. exists q. split; [assumption|].
      eapply remove_sublist; eauto.
Qed.

Lemma step_registry_ok b o b' :
  registry_ok b -> step b o = Ok b' -> registry_ok b'.
Proof.
  intros (Hb & Hnd & Hlt) Hstep.
  split; [eapply step_bounded; eauto|].
  destruct o as [|data|id|id]; simpl in Hstep.
  - inversion Hstep; subst. simpl. split.
    + rewrite map_app. simpl. apply AggregateSpec.NoDup_snoc; [assumption|].
      intros Hin. apply in_map_iff in Hin as (q & E & Hq).
      rewrite Forall_forall in Hlt. specialize (Hlt q Hq). lia.
    + apply Forall_app. split.
      * eapply Forall_impl; [|exact Hlt]. simpl. intros q Hq. lia.
      * constructor; [simpl; lia | constructor].
  - rewrite publish_total in Hstep. inversion Hstep; subst. simpl. split.
    + rewrite map_map.
      replace (map (fun q => qid (if full q then q else enqueue q data))
                   (subscribers b)) with (map qid (subscribers b)); [assumption|].
      apply map_ext. intros q. now destruct (full q).
    + apply Forall_map. eapply Forall_impl; [|exact Hlt].
      intros q Hq. now destruct (full q).
  - destruct (take id (subscribers b)) as [[d queues]|] eqn:E;
      inversion Hstep; subst; simpl; [|now split].
    pose proof (take_ids _ _ _ _ E) as Hids. split.
    + now rewrite Hids.
    + apply Forall_forall. intros q Hq.
      assert (In (qid q) (map qid (subscribers b))) as Hin.
      { rewrite <- Hids. now apply in_map. }
      apply in_map_iff in Hin as (q0 & E0 & Hq0).
      rewrite Forall_forall in Hlt. rewrite <- E0. now apply Hlt.
  - unfold cleanup in Hstep. apply bind_ok in Hstep as (queues & Hrem & H).
    inversion H; subst. simpl. split.
    + eapply remove_NoDup; eauto.
    + apply Forall_forall. intros q Hq. rewrite Forall_forall in Hlt.
      apply Hlt. eapply remove_sublist; eauto.
Qed.

(** X7. Whatever subscribers come and go and whatever is published and
    delivered, the registry holds queues of capacity 100 that never hold
    more than 100 readings, and no queue is registered twice. *)
Theorem reachable_registry_ok ops b : run ops = Ok b -> registry_ok b.
Proof.
  unfold run. apply (for_each_invariant registry_ok step).
  - intros s x s' Hs Hstep. eapply step_registry_ok; eauto.
  - repeat split; constructor.
Qed.

Lemma reachable_registry_ok_witness :
  registry_ok {| subscribers :=
                   [{| qid := 1; maxsize := 100; items := [sample; sample] |}];
                 next_qid := 2 |}.
Proof.
  apply (reachable_registry_ok
           [Subscribe; Subscribe; Publish sample; Cleanup 0; Publish sample]).
  vm_compute. reflexivity.
Defined.

Lemma remove_unregistered id queues :
  queue_of id queues = None -> remove id queues = Raise ValueError.
Proof.
  unfold queue_of. induction queues as [|q queues IH]; simpl; [reflexivity|].
  destruct (Nat.eqb (qid q) id); [discriminate|].
  intros H. now rewrite (IH H).
Qed.

Lemma filter_others_fresh id queues :
  ~ In id (map qid queues) ->
  filter (fun q => negb (Nat.eqb (qid q) id)) queues = queues.
Proof.
  induction queues as [|q queues IH]; simpl; intros H; [reflexivity|].
  destruct (Nat.eqb_spec (qid q) id) as [E|_]; [tauto|].
  simpl. f_equal. apply IH. tauto.
Qed.

Lemma remove_registered id queues q :
  NoDup (map qid queues) -> queue_of id queues = Some q ->
  remove id queues
  = Ok (filter (fun q => negb (Nat.eqb (qid q) id)) queues)
  /\ (List.length (filter (fun q => negb (Nat.eqb (qid q) id)) queues) + 1
      = List.length queues)%nat.
Proof.
  unfold queue_of. induction queues as [|q0 queues IH]; simpl; intros Hnd H.
  - discriminate.
  - inversion Hnd as [|? ? Hnot Hnd']; subst.
    destruct (Nat.eqb_spec (qid q0) id) as [E|Hne]; simpl.
    + subst id. rewrite (filter_others_fresh _ _ Hnot). split; [reflexivity | lia].
    + destruct (IH Hnd' H) as [-> Hlen]. simpl. split; [reflexivity | lia].
Qed.

Lemma queue_of_filter_others id queues :
  queue_of id (filter (fun q => negb (Nat.eqb (qid q) id)) queues) = None.
Proof.
  unfold queue_of. induction queues as [|q queues IH]; simpl; [reflexivity|].
  destruct (Nat.eqb (qid q) id) eqn:E; simpl; [assumption|]. now rewrite E.
Qed.

(** X8. The cleanup of a subscriber removes its queue and nothing else:
    the other queues stay, in order and with their items, the subscriber
    count goes down by one, and the queue is no longer in the registry.  For
    a queue that is not registered [list.remove] raises [ValueError]. *)
Theorem cleanup_removes_that_queue b id :
  NoDup (map qid (subscribers b)) ->
  match queue_of id (subscribers b) with
  | Some _ =>
      exists b',
        cleanup b id = Ok b'
        /\ subscribers b'
           = filter (fun q => negb (Nat.eqb (qid q) id)) (subscribers b)
        /\ queue_of id (subscribers b') = None
        /\ subscriber_count b' = subscriber_count b - 1
  | None => cleanup b id = Raise ValueError
  end.
Proof.
  intros Hnd. unfold cleanup.
  destruct (queue_of id (subscribers b)) as [q|] eqn:Hq.
  - destruct (remove_registered id _ q Hnd Hq) as [-> Hlen]. cbn [bind].
    eexists. split; [reflexivity|]. simpl. repeat split.
    + apply queue_of_filter_others.
    + unfold subscriber_count, py_len. simpl. lia.
  - now rewrite (remove_unregistered id _ Hq).
Qed.

Lemma cleanup_removes_that_queue_witness :
  exists b',
    cleanup {| subscribers := [full_queue; empty_queue]; next_qid := 2 |} 0
    = Ok b'
    /\ subscribers b' = [empty_queue].
Proof.
  pose proof (cleanup_removes_that_queue
                {| subscribers := [full_queue; empty_queue]; next_qid := 2 |} 0)
    as H.
  destruct H as (b' & Hc & Hs & _).
  - vm_compute. repeat constructor; simpl; intuition discriminate.
  - exists b'. split; [exact Hc|]. rewrite Hs. reflexivity.
Defined.

Lemma firstn_firstn_app {A} (n : nat) (l l' : list A) :
  firstn n (firstn n l ++ l') = firstn n (l ++ l').
Proof.
  revert l. induction n as [|n IH]; intros l; [reflexivity|].
  destruct l as [|x l]; [reflexivity|]. simpl. now rewrite IH.
Qed.

Lemma bounded_length q : bounded q -> (List.length (items q) <= 100)%nat.
Proof. intros [_ H]. unfold qsize, py_len in H. lia. Qed.

Lemma backlog_nil q : bounded q -> backlog [] q = q.
Proof.
  intros Hq. unfold backlog. rewrite app_nil_r.
  rewrite firstn_all2 by now apply bounded_length. now destruct q.
Qed.

Lemma publish_one_backlog data q :
  bounded q -> (if full q then q else enqueue q data) = backlog [data] q.
Proof.
  intros Hq. pose proof (bounded_length q Hq) as Hlen. destruct Hq as [Hm Hs].
  rewrite (full_capacity_100 q Hm). unfold backlog, enqueue.
  unfold qsize, py_len in *.
  destruct (Z.leb_spec 100 (Z.of_nat (List.length (items q)))) as [Hfull|Hroom].
  - rewrite firstn_app.
    replace (100 - List.length (items q))%nat with 0%nat by lia.
    rewrite firstn_all2 by lia. simpl. rewrite app_nil_r. now destruct q.
  - rewrite firstn_all2; [reflexivity|]. rewrite length_app. simpl. lia.
Qed.

Lemma backlog_backlog data readings q :
  backlog readings (backlog [data] q) = backlog (data :: readings) q.
Proof.
  unfold backlog. cbn [items qid maxsize]. f_equal.
  rewrite firstn_firstn_app, <- app_assoc. reflexivity.
Qed.

Lemma publish_many_backlog readings b :
  Forall bounded (subscribers b) ->
  publish_many b readings
  = Ok {| subscribers := map (backlog readings) (subscribers b);
          next_qid := next_qid b |}.
Proof.
  unfold publish_many. revert b.
  induction readings as [|data readings IH]; intros b Hb; cbn [for_each].
  - f_equal. destruct b as [queues n]. simpl in *. f_equal.
    rewrite <- (map_id queues) at 1. apply map_ext_in. intros q Hq.
    rewrite Forall_forall in Hb. symmetry. now apply backlog_nil, Hb.
  - rewrite publish_total. cbn [bind].
    assert (map (fun q => if full q then q else enqueue q data) (subscribers b)
            = map (backlog [data]) (subscribers b)) as E.
    { apply map_ext_in. intros q Hq. rewrite Forall_forall in Hb.
      now apply publish_one_backlog, Hb. }
    rewrite E, IH.
    + simpl. rewrite map_map. f_equal. f_equal.
      apply map_ext. intros q. apply backlog_backlog.
    + simpl. apply Forall_map. eapply Forall_impl; [|exact Hb].
      intros q Hq. rewrite <- (publish_one_backlog data q Hq).
      destruct Hq as [Hm Hs]. rewrite (full_capacity_100 q Hm).
      destruct (Z.leb_spec 100 (qsize q)); [now split|].
      split; [assumption|]. rewrite qsize_enqueue. lia.
Qed.

(** X9. A subscriber that takes nothing keeps the oldest readings: after
    any number of publishes each queue holds what it held followed by the
    published readings in publish order, cut at 100, so what is dropped are
    the newest readings, never the waiting ones; and publishing a list of
    readings never raises. *)
Theorem backlog_keeps_the_oldest b readings :
  Forall bounded (subscribers b) ->
  exists b',
    publish_many b readings = Ok b'
    /\ next_qid b' = next_qid b
    /\ subscribers b'
       = map (fun q => {| qid := qid q; maxsize := maxsize q;
                          items := firstn 100 (items q ++ readings) |})
             (subscribers b).
Proof.
  intros Hb. rewrite (publish_many_backlog readings b Hb).
  eexists. split; [reflexivity|]. split; reflexivity.
Qed.

Lemma backlog_keeps_the_oldest_witness :
  exists b',
    publish_many
      {| subscribers :=
           [{| qid := 0; maxsize := 100; items := repeat sample 99 |}];
         next_qid := 1 |} three_readings = Ok b'
    /\ subscribers b'
       = [{| qid := 0; maxsize := 100;
             items := repeat sample 99 ++ [reading_of 1] |}].
Proof.
  destruct (backlog_keeps_the_oldest
              {| subscribers :=
                   [{| qid := 0; maxsize := 100; items := repeat sample 99 |}];
                 next_qid := 1 |} three_readings) as (b' & Hp & _ & Hs).
  - repeat constructor. vm_compute. discriminate.
  - exists b'. split; [exact Hp|]. rewrite Hs. vm_compute. reflexivity.
Defined.

Lemma take_oldest id queues q :
  queue_of id queues = Some q ->
  match items q with
  | [] => take id queues = None
  | data :: rest =>
      exists queues',
        take id queues = Some (data, queues')
        /\ queue_of id queues'
           = Some {| qid := qid q; maxsize := maxsize q; items := rest |}
  end.
Proof.
  unfold queue_of. induction queues as [|q0 queues IH]; simpl; [discriminate|].
  destruct (Nat.eqb (qid q0) id) eqn:E.
  - intros H. inversion H; subst q0. unfold get.
    destruct (items q) as [|data rest]; [reflexivity|].
    eexists. split; [reflexivity|]. simpl. now rewrite E.
  - intros H. specialize (IH H).
    destruct (items q) as [|data rest].
    + now rewrite IH.
    + destruct IH as (queues' & -> & Hq). eexists. split; [reflexivity|].
      simpl. now rewrite E.
Qed.

Lemma deliveries_firstn id n queues q :
  queue_of id queues = Some q -> deliveries id n queues = firstn n (items q).
Proof.
  revert queues q. induction n as [|n IH]; intros queues q Hq; [reflexivity|].
  cbn [deliveries]. pose proof (take_oldest id queues q Hq) as Ht.
  destruct (items q) as [|data rest] eqn:E.
  - now rewrite Ht.
  - destruct Ht as (queues' & -> & Hq'). simpl. f_equal.
    now rewrite (IH queues' _ Hq').
Qed.

Lemma queue_of_fresh_last id queues q :
  ~ In id (map qid queues) -> qid q = id ->
  queue_of id (queues ++ [q]) = Some q.
Proof.
  unfold queue_of. intros Hfresh Hq.
  induction queues as [|q0 queues IH]; simpl.
  - subst id. now rewrite Nat.eqb_refl.
  - simpl in Hfresh. destruct (Nat.eqb_spec (qid q0) id) as [E|_]; [tauto|].
    apply IH. tauto.
Qed.

Lemma next_qid_fresh b :
  registry_ok b -> ~ In (next_qid b) (map qid (subscribers b)).
Proof.
  intros (_ & _ & Hlt) Hin. apply in_map_iff in Hin as (q & E & Hq).
  rewrite Forall_forall in Hlt. specialize (Hlt q Hq). lia.
Qed.

Lemma subscribed_bounded b :
  Forall bounded (subscribers b) ->
  Forall bounded (subscribers (fst (subscribe b))).
Proof.
  intros Hb. simpl. apply Forall_app. split; [assumption|].
  constructor; [|constructor]. split; [reflexivity|].
  unfold qsize, py_len. simpl. lia.
Qed.

(** X10. A new subscriber starts with an empty queue, and what its loop
    then yields are the readings published after it subscribed, in publish
    order: all of them when they are at most 100, the first 100 otherwise.
    Nothing published before is replayed. *)
Theorem new_subscriber_gets_readings_in_order b readings b' :
  registry_ok b ->
  publish_many (fst (subscribe b)) readings = Ok b' ->
  queue_of (snd (subscribe b)) (subscribers (fst (subscribe b)))
  = Some {| qid := next_qid b; maxsize := 100; items := [] |}
  /\ deliveries (snd (subscribe b)) (List.length readings) (subscribers b')
     = firstn 100 readings.
Proof.
  intros Hok Hpub.
  pose proof (next_qid_fresh b Hok) as Hfresh.
  destruct Hok as (Hb & _ & _).
  rewrite (publish_many_backlog readings _ (subscribed_bounded b Hb)) in Hpub.
  inversion Hpub; subst b'. clear Hpub. cbn [subscribe fst snd subscribers].
  split; [now apply queue_of_fresh_last|].
  rewrite map_app. cbn [map].
  rewrite (deliveries_firstn (next_qid b) _ _
             (backlog readings
                {| qid := next_qid b; maxsize := 100; items := [] |})).
  - cbn [backlog items app]. rewrite firstn_firstn.
    destruct (Nat.le_ge_cases (List.length readings) 100) as [H|H].
    + rewrite Nat.min_l by assumption. rewrite firstn_all.
      now rewrite firstn_all2 by assumption.
    + now rewrite Nat.min_r by assumption.
  - apply queue_of_fresh_last; [|reflexivity].
    rewrite map_map. intros Hin. apply Hfresh.
    apply in_map_iff in Hin as (q & E & Hq). apply in_map_iff. now exists q.
Qed.

Lemma new_subscriber_gets_readings_in_order_witness :
  deliveries 0 3 [{| qid := 0; maxsize := 100; items := three_readings |}]
  = three_readings.
Proof.
  refine (proj2 (new_subscriber_gets_readings_in_order
                   Broadcast.init three_readings
                   {| subscribers :=
                        [{| qid := 0; maxsize := 100; items := three_readings |}];
                      next_qid := 1 |} _ _)).
  - repeat split; constructor.
  - vm_compute. reflexivity.
Defined.

Lemma remove_last id queues q :
  ~ In id (map qid queues) -> qid q = id ->
  remove id (queues ++ [q]) = Ok queues.
Proof.
  intros Hfresh Hq. induction queues as [|q0 queues IH]; simpl.
  - subst id. now rewrite Nat.eqb_refl.
  - simpl in Hfresh. destruct (Nat.eqb_spec (qid q0) id) as [E|_]; [tauto|].
    rewrite IH by tauto. reflexivity.
Qed.

(** X11. A subscriber that comes and goes leaves no trace on the others:
    after it subscribed, readings were published and its cleanup ran, the
    registry holds the queues it would hold had the subscriber never been
    there, and the cleanup raises nothing. *)
Theorem subscriber_leaves_no_trace b readings b2 :
  registry_ok b ->
  publish_many (fst (subscribe b)) readings = Ok b2 ->
  exists b3 b',
    cleanup b2 (snd (subscribe b)) = Ok b3
    /\ publish_many b readings = Ok b'
    /\ subscribers b3 = subscribers b'.
Proof.
  intros Hok Hpub.
  pose proof (next_qid_fresh b Hok) as Hfresh.
  destruct Hok as (Hb & _ & _).
  rewrite (publish_many_backlog readings _ (subscribed_bounded b Hb)) in Hpub.
  inversion Hpub; subst b2. clear Hpub.
  rewrite (publish_many_backlog readings b Hb).
  unfold cleanup. cbn [subscribe fst snd subscribers next_qid].
  rewrite map_app. cbn [map]. rewrite remove_last.
  - cbn [bind]. eexists. eexists. split; [reflexivity|]. split; reflexivity.
  - rewrite map_map. intros Hin. apply Hfresh.
    apply in_map_iff in Hin as (q & E & Hq). apply in_map_iff. now exists q.
  - reflexivity.
Qed.

Lemma subscriber_leaves_no_trace_witness :
  exists b3 b',
    cleanup {| subscribers :=
                 [{| qid := 0; maxsize := 100; items := three_readings |}];
               next_qid := 1 |} 0 = Ok b3
    /\ publish_many Broadcast.init three_readings = Ok b'
    /\ subscribers b3 = subscribers b'.
Proof.
  apply (subscriber_leaves_no_trace Broadcast.init three_readings).
  - repeat split; constructor.
  - vm_compute. reflexivity.
Defined.

End BroadcastProps.

(** ** More on the aggregates *)

Module AggregateProps.
Import Py PyFacts Converter Config Database Collector Statistics Samples.
Import CollectorView AggregateSpec.

Lemma yearly_assign_fields a s :
  yearly_assign a s = a ->
  YearlyAggregate.min_value a = col_min s
  /\ YearlyAggregate.max_value a = col_max s
  /\ YearlyAggregate.avg_value a = col_avg s
  /\ YearlyAggregate.count a = col_count s.
Proof. intros E. rewrite <- E. simpl. auto. Qed.

Lemma yearly_upserts_total mac_address ts metrics aggs :
  yearly_constraints aggs ->
  (forall m values, In (m, values) metrics ->
     exists s, stored_stats values = Ok s) ->
  exists aggs',
    upsert_aggregates YearlyAggregate.id
      (yearly_selects mac_address (datetime.year ts))
      (yearly_new mac_address (datetime.year ts))
      yearly_assign metrics aggs = Ok aggs'.
Proof.
  apply (upserts_total YearlyAggregate.id yearly_key
           (fun m => (mac_address, datetime.year ts, m)));
    yearly_laws.
Qed.

Lemma yearly_upserts_settle mac_address ts metrics aggs aggs' :
  yearly_constraints aggs -> NoDup (map fst metrics) ->
  upsert_aggregates YearlyAggregate.id
    (yearly_selects mac_address (datetime.year ts))
    (yearly_new mac_address (datetime.year ts))
    yearly_assign metrics aggs = Ok aggs' ->
  forall m values, In (m, values) metrics ->
    exists s, stored_stats values = Ok s
      /\ settled yearly_key (fun m => (mac_address, datetime.year ts, m))
           yearly_assign m s aggs'.
Proof.
  apply (upserts_settle YearlyAggregate.id yearly_key
           (fun m => (mac_address, datetime.year ts, m)));
    yearly_laws.
Qed.

(** For a year of four digits the query selects the readings of the
    device in the year. *)
Lemma yearly_rows_of_year mac_address ts db :
  1000 <= datetime.year ts ->
  yearly_rows mac_address ts db
  = map DailyReading.data
        (filter (of_year mac_address (datetime.year ts)) (daily_readings db)).
Proof.
  intros Hy. unfold yearly_rows. f_equal. apply filter_ext.
  intros r. unfold in_year, of_year, year_is.
  destruct (Z.leb_spec 1000 (datetime.year ts)); [|lia].
  now rewrite andb_true_r.
Qed.

Lemma yearly_settled_row mac_address ts metric values s aggs :
  yearly_constraints aggs ->
  Forall (fun v => is_int_or_float v = true) values ->
  stored_stats values = Ok s ->
  settled yearly_key (fun m => (mac_address, datetime.year ts, m))
    yearly_assign metric s aggs ->
  yearly_row_of mac_address (datetime.year ts) metric values aggs.
Proof.
  intros [_ Hkeys] Hnum Hs (agg & Hin & Hkey & Hfix). exists agg.
  split; [assumption|]. split; [assumption|]. split.
  - intros a Ha Hk. apply (unique_key_row yearly_key aggs); congruence.
  - destruct (yearly_assign_fields _ _ Hfix) as (-> & -> & -> & ->).
    now apply stored_stats_describes.
Qed.

(** The yearly recomputation returns on readings in range. *)
Lemma update_yearly_returns mac_address ts db :
  yearly_constraints (yearly_aggregates db) ->
  readings_in_range (yearly_rows mac_address ts db) ->
  exists db', update_yearly_aggregates mac_address ts db = Ok db'.
Proof.
  intros Hok Hrange. unfold update_yearly_aggregates.
  destruct (yearly_rows mac_address ts db) as [|data rest] eqn:R; [eauto|].
  rewrite <- R in *.
  destruct (yearly_upserts_total mac_address ts
              (collect_metrics (yearly_rows mac_address ts db))
              (yearly_aggregates db) Hok) as [aggs Haggs].
  - intros m values Hin. apply collect_metrics_In in Hin as [-> Hne].
    destruct (values_of_in_range m _ Hrange) as [Hlen Hall].
    now apply stored_stats_total.
  - rewrite Haggs. cbn [bind]. eauto.
Qed.

(** X12. Recomputing the aggregates of a device and year (of four digits),
    on a table that meets its constraints.  With no reading of the device in
    the year nothing is written.  With readings in range (finite floats,
    ints that binary64 holds exactly, fewer than [2^20] readings) the
    recomputation returns.  Whenever it returns, the readings and the
    monthly table are untouched and every metric that has a value in the
    numeric fields of a reading of the device in the year has exactly one
    row, which holds, as the floats its columns store: for the minimum a
    value of the metric that no value of the metric is less than, for the
    maximum one that none is greater than, for the average the arithmetic
    mean of the values rounded to two decimals, and for the count their
    number.  And it does not return when a value of a metric is nan.  The
    readings [22.22, 16.5] of [temp_c] give min 16.5, max 22.22, avg 19.36,
    count 2; readings of two months and two devices give the rows of the
    device over both months, with averages that need the rounding; a nan
    reading raises [IntegrityError]. *)
Theorem recompute_yearly_statistics :
  (forall mac_address ts db,
      yearly_constraints (yearly_aggregates db) ->
      1000 <= datetime.year ts ->
      let year := datetime.year ts in
      let rows :=
        map DailyReading.data
            (filter (of_year mac_address year) (daily_readings db)) in
      (rows = [] -> update_yearly_aggregates mac_address ts db = Ok db)
      /\ (readings_in_range rows ->
          exists db', update_yearly_aggregates mac_address ts db = Ok db')
      /\ (forall db',
             update_yearly_aggregates mac_address ts db = Ok db' ->
             daily_readings db' = daily_readings db
             /\ monthly_aggregates db' = monthly_aggregates db
             /\ forall metric data v,
                 In data rows ->
                 dict_get metric (get_numeric_fields data) = Some v ->
                 yearly_row_of mac_address year metric
                               (values_of metric rows)
                               (yearly_aggregates db'))
      /\ (forall metric db',
             Exists is_nan_value (values_of metric rows) ->
             update_yearly_aggregates mac_address ts db <> Ok db'))
  /\ update_yearly_aggregates "AA:BB" march two_readings
     = Ok {| daily_readings := daily_readings two_readings;
             monthly_aggregates := [];
             yearly_aggregates := [temp_c_year_row] |}
  /\ update_yearly_aggregates "AA:BB" march spring
     = Ok {| daily_readings := daily_readings spring;
             monthly_aggregates := [];
             yearly_aggregates := spring_year_rows |}
  /\ update_yearly_aggregates "AA:BB" march nan_reading
     = Raise IntegrityError.
Proof.
  split; [|repeat split; vm_compute; reflexivity].
  intros mac_address ts db Hok Hyear year rows.
  assert (yearly_rows mac_address ts db = rows) as Hrows
    by now apply yearly_rows_of_year.
  split; [|split; [|split]].
  - intros Hnone. unfold update_yearly_aggregates. now rewrite Hrows, Hnone.
  - intros Hrange. apply update_yearly_returns; [assumption|].
    now rewrite Hrows.
  - intros db' Hup.
    destruct (update_yearly_inv _ _ _ _ Hup)
      as [[Hnone ->]|(Hsome & Hdaily & Hmonthly & Hu)]; rewrite Hrows in *.
    + repeat split. intros metric data v Hin.
      rewrite Hnone in Hin. destruct Hin.
    + split; [assumption|]. split; [assumption|].
      intros metric data v Hin Hget.
      destruct (yearly_upserts_settle mac_address ts _ _ _ Hok
                  (collect_metrics_NoDup rows) Hu metric _
                  (values_of_present metric rows data v Hin Hget))
        as (s & Hs & Hset).
      apply (yearly_settled_row mac_address ts metric _ s); try assumption.
      * eapply yearly_upserts_ok; eauto.
      * apply values_of_numbers.
  - intros metric db' Hnan Hup.
    destruct (update_yearly_inv _ _ _ _ Hup)
      as [[Hnone ->]|(Hsome & Hdaily & _ & Hu)]; rewrite Hrows in *.
    + rewrite Hnone in Hnan. inversion Hnan.
    + destruct (yearly_upserts_settle mac_address ts _ _ _ Hok
                  (collect_metrics_NoDup rows) Hu metric _
                  (values_of_nan_present metric rows Hnan))
        as (s & Hs & _).
      exact (stored_stats_no_nan _ _ Hs Hnan).
Qed.

Lemma recompute_yearly_statistics_witness :
  yearly_row_of "AA:BB" 2026 "temp_c" [VFloat 22.22; VFloat 16.5]
                [temp_c_year_row].
Proof.
  destruct recompute_yearly_statistics as (H & E & _).
  destruct (H "AA:BB" march two_readings) as (_ & _ & Hrows & _).
  - split; constructor.
  - simpl. lia.
  - exact (proj2 (proj2 (Hrows _ E)) "temp_c" [("temp_c", VFloat 22.22)]
                 (VFloat 22.22) (or_introl eq_refl) eq_refl).
Defined.

(** *** What a recomputation leaves alone *)

Section UpsertFrame.
Context {Row K : Type}.
Variable row_id : Row -> Z.
Variable row_key : Row -> K.
Variable key_of : string -> K.
Variable selects : string -> Row -> bool.
Variable new_row : Z -> string -> columns -> Row.
Variable assign : Row -> columns -> Row.

Hypothesis selects_key :
  forall m r, selects m r = true <-> row_key r = key_of m.
Hypothesis new_row_id : forall i m s, row_id (new_row i m s) = i.
Hypothesis new_row_key : forall i m s, row_key (new_row i m s) = key_of m.
Hypothesis assign_id : forall r s, row_id (assign r s) = row_id r.
Hypothesis assign_key : forall r s, row_key (assign r s) = row_key r.

Local Abbreviation upsert := (upsert_metric row_id selects new_row assign).
Local Abbreviation upserts := (upsert_aggregates row_id selects new_row assign).

Lemma upsert_frame rows m values rows' :
  table_ok row_id row_key rows -> upsert rows (m, values) = Ok rows' ->
  forall r, In r rows ->
    (row_key r <> key_of m -> In r rows')
    /\ exists r', In r' rows' /\ row_id r' = row_id r /\ row_key r' = row_key r.
Proof.
  intros Hok H r Hr.
  destruct (upsert_metric_stats _ _ _ _ _ _ _ _ H) as [s Hs].
  destruct (upsert_metric_cases row_id row_key key_of selects new_row assign
              selects_key assign_id rows m values s Hok Hs)
    as [[F E]|(agg & Hin & Hkey & E & Honly)];
    rewrite E in H; inversion H; subst; clear H.
  - split.
    + intros _. apply in_or_app. now left.
    + exists r. repeat split. apply in_or_app. now left.
  - destruct (row_id r =? row_id agg) eqn:Eid.
    + pose proof (Honly r Hr Eid) as ->. split; [congruence|].
      exists (assign agg s). repeat split; auto.
      apply in_map_iff. exists agg. now rewrite Z.eqb_refl.
    + assert (In r (map (fun r0 => if row_id r0 =? row_id agg
                                   then assign agg s else r0) rows)) as Hr'.
      { apply in_map_iff. exists r. now rewrite Eid. }
      split; [auto|]. exists r. auto.
Qed.

Lemma upserts_frame metrics rows rows' :
  table_ok row_id row_key rows -> upserts metrics rows = Ok rows' ->
  forall r, In r rows ->
    ((forall m, In m (map fst metrics) -> row_key r <> key_of m) -> In r rows')
    /\ exists r', In r' rows' /\ row_id r' = row_id r /\ row_key r' = row_key r.
Proof.
  unfold upsert_aggregates. revert rows.
  induction metrics as [|[m0 values0] metrics IH]; cbn [for_each map fst In];
    intros rows Hok H r Hr.
  - inversion H; subst. split; [auto|]. exists r. auto.
  - apply bind_ok in H as (rows1 & H1 & H2).
    pose proof (upsert_table_ok row_id row_key key_of selects new_row assign
                  selects_key new_row_id new_row_key assign_id assign_key
                  _ _ _ Hok H1) as Hok1.
    destruct (upsert_frame rows m0 values0 rows1 Hok H1 r Hr)
      as [Hkeep (r1 & Hr1 & Hid1 & Hkey1)].
    split.
    + intros Hother. apply (IH rows1 Hok1 H2 r); auto.
    + destruct (IH rows1 Hok1 H2 r1 Hr1) as [_ (r' & Hr' & Hid' & Hkey')].
      exists r'. repeat split; congruence.
Qed.

End UpsertFrame.

(** X13. A recomputation of a month deletes no aggregate row and leaves
    alone every row that is not of its device and month, and also every row
    of a metric that has no value in the readings of the month any more: such
    a row keeps its old statistics.  The yearly table and the readings are
    not touched. *)
Theorem recompute_leaves_other_rows mac_address ts db db' :
  monthly_constraints (monthly_aggregates db) ->
  update_monthly_aggregates mac_address ts db = Ok db' ->
  daily_readings db' = daily_readings db
  /\ yearly_aggregates db' = yearly_aggregates db
  /\ forall a, In a (monthly_aggregates db) ->
       ((MonthlyAggregate.mac_address a, MonthlyAggregate.year a,
         MonthlyAggregate.month a)
        <> (mac_address, datetime.year ts, datetime.month ts)
        \/ values_of (MonthlyAggregate.metric_name a)
                     (monthly_rows mac_address ts db) = [] ->
        In a (monthly_aggregates db'))
       /\ exists a', In a' (monthly_aggregates db')
                     /\ MonthlyAggregate.id a' = MonthlyAggregate.id a
                     /\ monthly_key a' = monthly_key a.
Proof.
  intros Hok Hup.
  destruct (update_monthly_inv _ _ _ _ Hup)
    as [[Hnone ->]|(Hsome & Hdaily & Hyearly & Hu)].
  - repeat split; auto. exists a. auto.
  - split; [assumption|]. split; [assumption|]. intros a Ha.
    destruct (upserts_frame MonthlyAggregate.id monthly_key
                (fun m => (mac_address, datetime.year ts, datetime.month ts, m))
                (monthly_selects mac_address (datetime.year ts) (datetime.month ts))
                (monthly_new mac_address (datetime.year ts) (datetime.month ts))
                monthly_assign
                (monthly_selects_key mac_address (datetime.year ts)
                   (datetime.month ts))
                (fun _ _ _ => eq_refl) (fun _ _ _ => eq_refl)
                (fun _ _ => eq_refl) (fun _ _ => eq_refl)
                _ _ _ Hok Hu a Ha) as [Hkeep Hsame].
    split; [|exact Hsame].
    intros Hother. apply Hkeep. intros m Hm Hkey.
    unfold monthly_key in Hkey. inversion Hkey as [[E1 E2 E3 E4]].
    destruct Hother as [Hne|Hstale].
    + apply Hne. now rewrite E1, E2, E3.
    + apply in_map_iff in Hm as ([m' values] & Em & Hin).
      cbn [fst] in Em. subst m'.
      apply collect_metrics_In in Hin as [Hv Hne]. subst values.
      apply Hne. now rewrite <- E4.
Qed.

Lemma recompute_leaves_other_rows_witness :
  In february_row [february_row; march_row].
Proof.
  refine (proj1 (proj2 (proj2
            (recompute_leaves_other_rows "AA:BB" march with_february
               {| daily_readings := daily_readings two_readings;
                  monthly_aggregates :=
                    [february_row; march_row];
                  yearly_aggregates := [] |} _ _)) february_row
            (or_introl eq_refl)) _).
  - split; repeat constructor; simpl; tauto.
  - vm_compute. reflexivity.
  - left. discriminate.
Defined.

End AggregateProps.

(** ** More on the collection loop *)

Module LoopProps.
Import Py PyFacts Converter Config Database Collector Samples.
Import CollectorView AggregateSpec LoopSpec.

Lemma mbind_ok {A B} (m : M A) (k : A -> M B) w a w1 :
  m w = (Ok a, w1) -> mbind m k w = k a w1.
Proof. unfold mbind. now intros ->. Qed.

Lemma mbind_raise {A B} (m : M A) (k : A -> M B) w e w1 :
  m w = (Raise e, w1) -> mbind m k w = (Raise e, w1).
Proof. unfold mbind. now intros ->. Qed.

Lemma success_passes status_code :
  is_success status_code -> raise_for_status status_code = Ok tt.
Proof.
  intros [Hlo Hhi]. unfold raise_for_status.
  destruct (Z.leb_spec 200 status_code); [|lia].
  destruct (Z.ltb_spec status_code 300); [reflexivity | lia].
Qed.

Lemma failure_raises status_code :
  ~ is_success status_code ->
  raise_for_status status_code = Raise (HTTPStatusError status_code).
Proof.
  intros H. unfold raise_for_status, is_success in *.
  destruct (Z.leb_spec 200 status_code); [|reflexivity].
  destruct (Z.ltb_spec status_code 300); [lia | reflexivity].
Qed.

Lemma success_or_failure status_code :
  is_success status_code \/ ~ is_success status_code.
Proof. unfold is_success. lia. Qed.

(** X14. [fetch_latest_reading] returns a value exactly when the status is
    2xx and the body is JSON: the first element of the body when the body is
    a non-empty array, and [None] when it is JSON of any other shape (an
    empty array, an object, a number ...).  So it returns [None] exactly
    when the status is 2xx and the body is JSON that is no non-empty array,
    or an array whose first element is null.  Any other status raises
    [HTTPStatusError] with that status, whatever the body; a 2xx body that
    is no JSON raises the decode error; and no response raises
    [RequestError]. *)
Theorem fetch_returns_first_of_array outcome :
  (forall v,
      fetch_latest_reading outcome = Ok v
      <-> exists status_code data,
            outcome = Response status_code (Some data)
            /\ is_success status_code
            /\ ((exists rest, data = VList (v :: rest))
                \/ (v = VNone
                    /\ forall first rest, data <> VList (first :: rest))))
  /\ (fetch_latest_reading outcome = Ok VNone
      <-> exists status_code data,
            outcome = Response status_code (Some data)
            /\ is_success status_code
            /\ forall first rest, data = VList (first :: rest) -> first = VNone)
  /\ (forall status_code body,
         outcome = Response status_code body ->
         ~ is_success status_code ->
         fetch_latest_reading outcome = Raise (HTTPStatusError status_code))
  /\ (forall status_code,
         outcome = Response status_code None ->
         is_success status_code ->
         fetch_latest_reading outcome = Raise JSONDecodeError)
  /\ (outcome = NoResponse ->
      fetch_latest_reading outcome = Raise RequestError).
Proof.
  split; [|split; [|split; [|split]]].
  - intros v. split.
    + destruct outcome as [|status_code body]; simpl; [discriminate|].
      destruct (success_or_failure status_code) as [Hs|Hf].
      * rewrite (success_passes _ Hs). cbn [bind].
        destruct body as [data|]; [|discriminate].
        intros H. exists status_code, data.
        split; [reflexivity|]. split; [assumption|].
        destruct data as [| | | | |[|x l]|]; injection H as <-;
          try (right; split; [reflexivity | intros ? ?; discriminate]).
        left. eauto.
      * rewrite (failure_raises _ Hf). discriminate.
    + intros (status_code & data & -> & Hs & [[rest ->]|[-> Hshape]]); simpl;
        rewrite (success_passes _ Hs); cbn [bind]; [reflexivity|].
      destruct data as [| | | | |[|x l]|]; try reflexivity.
      now destruct (Hshape x l).
  - split.
    + destruct outcome as [|status_code body]; simpl; [discriminate|].
      destruct (success_or_failure status_code) as [Hs|Hf].
      * rewrite (success_passes _ Hs). cbn [bind].
        destruct body as [data|]; [|discriminate].
        intros H. exists status_code, data.
        split; [reflexivity|]. split; [assumption|].
        intros first rest ->. now injection H.
      * rewrite (failure_raises _ Hf). discriminate.
    + intros (status_code & data & -> & Hs & Hshape). simpl.
      rewrite (success_passes _ Hs). cbn [bind].
      destruct data as [| | | | |[|x l]|]; try reflexivity.
      now rewrite (Hshape x l eq_refl).
  - intros status_code body -> Hf. simpl. now rewrite (failure_raises _ Hf).
  - intros status_code -> Hs. simpl. now rewrite (success_passes _ Hs).
  - now intros ->.
Qed.

Lemma tick_of_collect_ok settings i w w1 :
  collect settings i w = (Ok tt, w1) ->
  tick settings i w
  = (Ok tt, after w1 [Sleep (collection_interval_seconds settings)]).
Proof.
  intros H. unfold tick, mbind, try_except. rewrite H. apply emit_after.
Qed.

Lemma tick_of_collect_raise settings i w e w1 w2 :
  collect settings i w = (Raise e, w1) ->
  on_exception e w1 = (Ok tt, w2) ->
  tick settings i w
  = (Ok tt, after w2 [Sleep (collection_interval_seconds settings)]).
Proof.
  intros H H'. unfold tick, mbind, try_except. rewrite H, H'. apply emit_after.
Qed.

Lemma collect_of_fetch_raise settings i w e :
  fetch_latest_reading (outcome i) = Raise e ->
  collect settings i w = (Raise e, w).
Proof.
  intros H. unfold collect. apply mbind_raise. unfold lift. now rewrite H.
Qed.

(** X15. A tick that gets no reading changes neither the tables nor the
    subscriber queues, logs one record and then sleeps the configured
    interval, with no extra sleep: an error record when there was no
    response, when the status was neither 2xx nor 429, or when a 2xx body
    was not JSON; a warning when a 2xx body was JSON but no non-empty
    array, or an array whose first element is null. *)
Theorem tick_without_reading_changes_nothing settings i w :
  let interval := collection_interval_seconds settings in
  (outcome i = NoResponse ->
   tick settings i w
   = (Ok tt, after w [Log ERROR "AWN API request error: %s"; Sleep interval]))
  /\ (forall status_code body,
         outcome i = Response status_code body ->
         ~ is_success status_code -> status_code <> 429 ->
         tick settings i w
         = (Ok tt, after w [Log ERROR "AWN API HTTP error: %s";
                            Sleep interval]))
  /\ (forall status_code,
         outcome i = Response status_code None -> is_success status_code ->
         tick settings i w
         = (Ok tt, after w [Log ERROR "Unexpected error in collection loop";
                            Sleep interval]))
  /\ (forall status_code data,
         outcome i = Response status_code (Some data) ->
         is_success status_code ->
         (forall first rest, data <> VList (first :: rest)) ->
         tick settings i w
         = (Ok tt, after w [Log WARNING "No data returned from AWN API";
                            Sleep interval]))
  /\ (forall status_code rest,
         outcome i = Response status_code (Some (VList (VNone :: rest))) ->
         is_success status_code ->
         tick settings i w
         = (Ok tt, after w [Log WARNING "No data returned from AWN API";
                            Sleep interval])).
Proof.
  intros interval. repeat split.
  - intros Hout.
    rewrite (tick_of_collect_raise settings i w RequestError w
               (after w [Log ERROR "AWN API request error: %s"])).
    + now rewrite after_after.
    + apply collect_of_fetch_raise. now rewrite Hout.
    + reflexivity.
  - intros status_code body Hout Hf Hne.
    rewrite (tick_of_collect_raise settings i w (HTTPStatusError status_code) w
               (after w [Log ERROR "AWN API HTTP error: %s"])).
    + now rewrite after_after.
    + apply collect_of_fetch_raise. rewrite Hout. simpl.
      now rewrite (failure_raises _ Hf).
    + simpl. destruct (Z.eqb_spec status_code 429); [contradiction | reflexivity].
  - intros status_code Hout Hs.
    rewrite (tick_of_collect_raise settings i w JSONDecodeError w
               (after w [Log ERROR "Unexpected error in collection loop"])).
    + now rewrite after_after.
    + apply collect_of_fetch_raise. rewrite Hout. simpl.
      now rewrite (success_passes _ Hs).
    + reflexivity.
  - intros status_code data Hout Hs Hshape.
    rewrite (tick_of_collect_ok settings i w
               (after w [Log WARNING "No data returned from AWN API"])).
    + now rewrite after_after.
    + unfold collect.
      rewrite (mbind_ok _ _ w VNone w); [reflexivity|].
      unfold lift. rewrite Hout. simpl. rewrite (success_passes _ Hs). cbn [bind].
      destruct data as [| | | | |[|x l]|]; try reflexivity.
      now destruct (Hshape x l).
  - intros status_code rest Hout Hs.
    rewrite (tick_of_collect_ok settings i w
               (after w [Log WARNING "No data returned from AWN API"])).
    + now rewrite after_after.
    + unfold collect.
      rewrite (mbind_ok _ _ w VNone w); [reflexivity|].
      unfold lift. rewrite Hout. simpl. now rewrite (success_passes _ Hs).
Qed.

Lemma grows_same {A} (m : M A) :
  (forall w r w', m w = (r, w') -> trace w' = trace w) -> grows m.
Proof.
  intros H w r w' E. exists []. rewrite app_nil_r. eapply H; eauto.
Qed.

Lemma grows_emit e : grows (emit e).
Proof. intros w r w' E. inversion E; subst. simpl. eauto. Qed.

Lemma grows_mbind {A B} (m : M A) (k : A -> M B) :
  grows m -> (forall a, grows (k a)) -> grows (mbind m k).
Proof.
  intros Hm Hk w r w' E. unfold mbind in E.
  destruct (m w) as [[a|e] w1] eqn:E1.
  - destruct (Hm _ _ _ E1) as [es1 H1]. destruct (Hk a _ _ _ E) as [es2 H2].
    exists (es1 ++ es2). now rewrite H2, H1, app_assoc.
  - inversion E; subst. eapply Hm; eauto.
Qed.

Lemma grows_try_except body handler :
  grows body -> (forall e, grows (handler e)) -> grows (try_except body handler).
Proof.
  intros Hb Hh w r w' E. unfold try_except in E.
  destruct (body w) as [[[]|e] w1] eqn:E1.
  - inversion E; subst. eapply Hb; eauto.
  - destruct (Hb _ _ _ E1) as [es1 H1]. destruct (Hh e _ _ _ E) as [es2 H2].
    exists (es1 ++ es2). now rewrite H2, H1, app_assoc.
Qed.

Lemma grows_collect settings i : grows (collect settings i).
Proof.
  unfold collect, log.
  apply grows_mbind.
  { apply grows_same. intros w r w' E. now inversion E. }
  intros raw. destruct raw; [apply grows_emit|..].
  all: apply grows_mbind;
    [apply grows_same; intros w r w' E; now inversion E|].
  all: intros converted; apply grows_mbind;
    [apply grows_same; intros w r w' E; unfold on_db in E;
     destruct (store_daily_reading _ _ _ _); now inversion E|].
  all: intros ts; apply grows_mbind;
    [apply grows_same; intros w r w' E; unfold in_session in E;
     destruct (update_monthly_aggregates _ _ _); now inversion E|].
  all: intros _; apply grows_mbind;
    [apply grows_same; intros w r w' E; unfold in_session in E;
     destruct (update_yearly_aggregates _ _ _); now inversion E|].
  all: intros _; apply grows_mbind;
    [apply grows_same; intros w r w' E; unfold in_session_returning in E;
     destruct (purge_old_readings _ _ _ _) as [[? ?]|?]; now inversion E|].
  all: intros deleted; apply grows_mbind;
    [destruct (deleted =? 0); [|apply grows_emit];
     apply grows_same; intros w r w' E; now inversion E|].
  all: intros _; apply grows_mbind; [|intros; apply grows_emit].
  all: apply grows_same; intros w r w' E; unfold publish in E;
    destruct (Broadcast.publish _ _); now inversion E.
Qed.

Lemma grows_on_exception e : grows (on_exception e).
Proof.
  unfold on_exception, log, sleep. destruct e; try apply grows_emit.
  destruct (status_code =? 429); [|apply grows_emit].
  apply grows_mbind; [apply grows_emit | intros; apply grows_emit].
Qed.

(** A tick returns, and its last event is the interval sleep. *)
Lemma tick_paced settings i w :
  exists w' events,
    tick settings i w = (Ok tt, w')
    /\ trace w'
       = trace w ++ events ++ [Sleep (collection_interval_seconds settings)].
Proof.
  assert (exists w1, try_except (collect settings i) on_exception w
                     = (Ok tt, w1)) as [w1 H1].
  { unfold try_except. destruct (collect settings i w) as [[[]|e] w0]; eauto.
    apply on_exception_returns. }
  destruct (grows_try_except _ _ (grows_collect settings i) grows_on_exception
              _ _ _ H1) as [events Hev].
  exists (after w1 [Sleep (collection_interval_seconds settings)]), events.
  split.
  - unfold tick. rewrite (mbind_ok _ _ _ _ _ H1). apply emit_after.
  - simpl. now rewrite Hev, <- app_assoc.
Qed.

(** X16. The loop never ends on an exception, whatever the ticks meet:
    over the inputs of any number of ticks it returns, and its trace is the
    start record followed, for each tick in turn, by what the tick did and
    then the sleep of the configured interval. *)
Theorem collection_loop_never_raises settings inputs w :
  exists w' per_tick,
    collection_loop settings inputs w = (Ok tt, w')
    /\ List.length per_tick = List.length inputs
    /\ trace w'
       = trace w
         ++ [Log INFO "Starting collector: mac=%s, interval=%ds, retention=%dd"]
         ++ paced (collection_interval_seconds settings) per_tick.
Proof.
  unfold collection_loop, log. rewrite (mbind_ok _ _ _ _ _ (emit_after _ w)).
  assert (forall w0, exists w' per_tick,
             ticks settings inputs w0 = (Ok tt, w')
             /\ List.length per_tick = List.length inputs
             /\ trace w'
                = trace w0
                  ++ paced (collection_interval_seconds settings) per_tick) as H.
  { induction inputs as [|i inputs IH]; intros w0; cbn [ticks].
    - exists w0, []. repeat split. simpl. now rewrite app_nil_r.
    - destruct (tick_paced settings i w0) as (w1 & events & Ht & Hev).
      destruct (IH w1) as (w' & per_tick & Hts & Hlen & Htr).
      exists w', (events :: per_tick). rewrite (mbind_ok _ _ _ _ _ Ht).
      repeat split; [assumption | simpl; now rewrite Hlen |].
      rewrite Htr, Hev. unfold paced. cbn [map List.concat].
      now rewrite <- !app_assoc. }
  destruct (H (after w [Log INFO "Starting collector: mac=%s, interval=%ds, retention=%dd"]))
    as (w' & per_tick & Hts & Hlen & Htr).
  exists w', per_tick. repeat split; try assumption.
  rewrite Htr. simpl. now rewrite <- app_assoc.
Qed.

Lemma fetch_first status_code first rest :
  is_success status_code ->
  fetch_latest_reading
    (Response status_code (Some (VList (first :: rest)))) = Ok first.
Proof. intros Hs. simpl. now rewrite (success_passes _ Hs). Qed.



(** *** The tick that meets no exception *)

(** The steps of a tick up to the recomputation of the yearly
    aggregates. *)
Lemma collect_to_purge
  settings i w status_code rest raw_data converted db2 db3 :
  outcome i = Response status_code (Some (VList (VDict raw_data :: rest))) ->
  is_success status_code ->
  convert_reading raw_data = Ok converted ->
  let mac := awn_mac_address settings in
  let ts := now_store i in
  let stored := snd (store_daily_reading converted mac ts (db w)) in
  update_monthly_aggregates mac ts stored = Ok db2 ->
  update_yearly_aggregates mac ts db2 = Ok db3 ->
  collect settings i w
  = (let* deleted :=
       in_session_returning (purge_old_readings settings mac (now_purge i)) in
     let* _ := if deleted =? 0 then ret tt
               else log INFO "Purged %d old daily readings" in
     let* _ := publish converted in
     log DEBUG "Collected and stored reading at %s")
      {| db := db3; broadcaster := broadcaster w; trace := trace w |}.
Proof.
  intros Hout Hs Hconv mac ts stored H2 H3.
  set (w1 := {| db := stored; broadcaster := broadcaster w; trace := trace w |}).
  set (w2 := {| db := db2; broadcaster := broadcaster w; trace := trace w |}).
  unfold collect.
  rewrite (mbind_ok _ _ w (VDict raw_data) w)
    by (unfold lift; now rewrite Hout, (fetch_first _ _ _ Hs)).
  rewrite (mbind_ok _ _ w converted w)
    by (unfold lift; simpl; now rewrite Hconv).
  rewrite (mbind_ok _ _ w ts w1) by reflexivity.
  rewrite (mbind_ok _ _ w1 tt w2)
    by (unfold in_session; fold mac; simpl db; now rewrite H2).
  now rewrite (mbind_ok _ _ w2 tt
                 {| db := db3; broadcaster := broadcaster w; trace := trace w |})
    by (unfold in_session; fold mac; simpl db; now rewrite H3).
Qed.

(** The tick whose steps all return. *)
Lemma tick_of_collect_ok_traced
  settings i w status_code rest raw_data converted db2 db3 deleted db4 :
  outcome i = Response status_code (Some (VList (VDict raw_data :: rest))) ->
  is_success status_code ->
  convert_reading raw_data = Ok converted ->
  let mac := awn_mac_address settings in
  let ts := now_store i in
  let stored := snd (store_daily_reading converted mac ts (db w)) in
  update_monthly_aggregates mac ts stored = Ok db2 ->
  update_yearly_aggregates mac ts db2 = Ok db3 ->
  purge_old_readings settings mac (now_purge i) db3 = Ok (deleted, db4) ->
  tick settings i w
  = (Ok tt,
     {| db := db4;
        broadcaster :=
          {| Broadcast.subscribers :=
               map (fun q => if Broadcast.full q then q
                             else Broadcast.enqueue q converted)
                   (Broadcast.subscribers (broadcaster w));
             Broadcast.next_qid := Broadcast.next_qid (broadcaster w) |};
        trace := trace w ++ purge_events deleted
                 ++ [Log DEBUG "Collected and stored reading at %s";
                     Sleep (collection_interval_seconds settings)] |}).
Proof.
  intros Hout Hs Hconv mac ts stored H2 H3 H4.
  set (w3 := {| db := db3; broadcaster := broadcaster w; trace := trace w |}).
  set (w4 := {| db := db4; broadcaster := broadcaster w; trace := trace w |}).
  set (w5 := after w4 (purge_events deleted)).
  set (b' := {| Broadcast.subscribers :=
                  map (fun q => if Broadcast.full q then q
                                else Broadcast.enqueue q converted)
                      (Broadcast.subscribers (broadcaster w));
                Broadcast.next_qid := Broadcast.next_qid (broadcaster w) |}).
  set (w6 := {| db := db4; broadcaster := b'; trace := trace w5 |}).
  rewrite (tick_of_collect_ok settings i w
             (after w6 [Log DEBUG "Collected and stored reading at %s"])).
  { unfold after, w6, w5, after, w4. simpl. now rewrite <- !app_assoc. }
  rewrite (collect_to_purge settings i w status_code rest raw_data converted
             db2 db3 Hout Hs Hconv H2 H3).
  fold mac w3.
  rewrite (mbind_ok _ _ w3 deleted w4)
    by (unfold in_session_returning; simpl db; now rewrite H4).
  rewrite (mbind_ok _ _ w4 tt w5).
  2:{ unfold w5, purge_events, log. destruct (deleted =? 0).
      - unfold ret, after. simpl. now rewrite app_nil_r.
      - apply emit_after. }
  rewrite (mbind_ok _ _ w5 tt w6).
  2:{ unfold publish. simpl broadcaster.
      now rewrite BroadcastSpec.publish_total. }
  apply emit_after.
Qed.

(** The tick whose purge raises: the reading is stored and the aggregates
    are recomputed, nothing is purged or published. *)
Lemma tick_of_purge_raise
  settings i w status_code rest raw_data converted db2 db3 :
  outcome i = Response status_code (Some (VList (VDict raw_data :: rest))) ->
  is_success status_code ->
  convert_reading raw_data = Ok converted ->
  let mac := awn_mac_address settings in
  let ts := now_store i in
  let stored := snd (store_daily_reading converted mac ts (db w)) in
  update_monthly_aggregates mac ts stored = Ok db2 ->
  update_yearly_aggregates mac ts db2 = Ok db3 ->
  purge_old_readings settings mac (now_purge i) db3 = Raise OverflowError ->
  tick settings i w
  = (Ok tt,
     {| db := db3; broadcaster := broadcaster w;
        trace := trace w ++ [Log ERROR "Unexpected error in collection loop";
                             Sleep (collection_interval_seconds settings)] |}).
Proof.
  intros Hout Hs Hconv mac ts stored H2 H3 H4.
  set (w3 := {| db := db3; broadcaster := broadcaster w; trace := trace w |}).
  rewrite (tick_of_collect_raise settings i w OverflowError w3
             (after w3 [Log ERROR "Unexpected error in collection loop"])).
  - unfold after, w3. simpl. now rewrite <- app_assoc.
  - rewrite (collect_to_purge settings i w status_code rest raw_data converted
               db2 db3 Hout Hs Hconv H2 H3).
    fold mac w3. apply mbind_raise.
    unfold in_session_returning. simpl db. now rewrite H4.
  - reflexivity.
Qed.

Lemma filter_length_mono {A} (p q : A -> bool) (l : list A) :
  (forall x, p x = true -> q x = true) ->
  (List.length (filter p l) <= List.length (filter q l))%nat.
Proof.
  intros Hpq. induction l as [|x l IH]; simpl; [lia|].
  destruct (p x) eqn:Ep.
  - rewrite (Hpq x Ep). simpl. lia.
  - destruct (q x); simpl; lia.
Qed.

Lemma in_month_in_year mac_address year month r :
  in_month mac_address year month r = true -> in_year mac_address year r = true.
Proof.
  unfold in_month, in_year. intros H.
  apply andb_true_iff in H as [H _]. exact H.
Qed.

(** The readings of the month are among the readings of the year. *)
Lemma monthly_rows_in_range mac_address ts db :
  readings_in_range (yearly_rows mac_address ts db) ->
  readings_in_range (monthly_rows mac_address ts db).
Proof.
  unfold readings_in_range, monthly_rows, yearly_rows, py_len.
  rewrite !length_map. intros [Hlen Hsmall]. split.
  - pose proof (filter_length_mono
                  (in_month mac_address (datetime.year ts) (datetime.month ts))
                  (in_year mac_address (datetime.year ts)) (daily_readings db)
                  (in_month_in_year _ _ _)). lia.
  - intros data k v Hin. apply (Hsmall data k v).
    apply in_map_iff in Hin as (r & E & Hr). apply in_map_iff. exists r.
    split; [assumption|]. apply filter_In in Hr as [Hr Hm]. apply filter_In.
    split; [assumption | eapply in_month_in_year; eauto].
Qed.

(** *** Purging *)

Lemma filter_idempotent {A} (p : A -> bool) (l : list A) :
  filter p (filter p l) = filter p l.
Proof.
  induction l as [|x l IH]; simpl; [reflexivity|].
  destruct (p x) eqn:E; simpl; rewrite ?E, IH; reflexivity.
Qed.

(** The cutoff exists exactly when the retention is a number of days a
    [timedelta] holds and the cutoff an instant a [datetime] holds;
    [OverflowError] otherwise. *)
Lemma cutoff_of_cases retention_days now :
  let cutoff := datetime.posix_us now - retention_days * microseconds_per_day in
  (Z.abs retention_days <= timedelta_max_days
   /\ datetime_min_us <= cutoff <= datetime_max_us
   /\ cutoff_of retention_days now = Ok cutoff)
  \/ (~ (Z.abs retention_days <= timedelta_max_days
         /\ datetime_min_us <= cutoff <= datetime_max_us)
      /\ cutoff_of retention_days now = Raise OverflowError).
Proof.
  intros cutoff. unfold cutoff_of. fold cutoff.
  destruct (Z.leb_spec (Z.abs retention_days) timedelta_max_days);
    [|right; split; [lia | reflexivity]].
  destruct (Z.leb_spec datetime_min_us cutoff);
    [|right; split; [lia | reflexivity]].
  destruct (Z.leb_spec cutoff datetime_max_us);
    [|right; split; [lia | reflexivity]].
  left. repeat split; assumption.
Qed.

Lemma purge_of_cutoff settings mac_address now db cutoff :
  cutoff_of (daily_retention_days settings) now = Ok cutoff ->
  purge_old_readings settings mac_address now db
  = Ok (py_len (daily_readings db)
        - py_len (filter (fun r => negb (expired mac_address cutoff r))
                         (daily_readings db)),
        {| daily_readings :=
             filter (fun r => negb (expired mac_address cutoff r))
                    (daily_readings db);
           monthly_aggregates := monthly_aggregates db;
           yearly_aggregates := yearly_aggregates db |}).
Proof. unfold purge_old_readings. now intros ->. Qed.

Lemma purge_of_overflow settings mac_address now db :
  cutoff_of (daily_retention_days settings) now = Raise OverflowError ->
  purge_old_readings settings mac_address now db = Raise OverflowError.
Proof. unfold purge_old_readings. now intros ->. Qed.

(** X18. A tick that gets a reading does its steps in order: when the
    status is 2xx, the first element of the array is an object that
    converts, the aggregate tables meet their constraints and the readings
    of the year, the new one included, are in range (finite floats, ints
    that binary64 holds exactly, fewer than [2^20] readings; a nan is not in
    range), then the converted reading is stored and the monthly and then
    the yearly aggregates are recomputed over the tables that hold it.  When
    the retention cutoff is an instant a [datetime] holds, the expired
    readings are then purged and that same converted reading is published to
    the subscribers; the tick logs the purge if it deleted something, the
    debug record, and sleeps the interval.  When the cutoff is out of the
    range of [datetime] the purge raises: the tables stay as the
    recomputation left them, nothing is published, and the tick logs the
    error and sleeps the interval. *)
Theorem tick_stores_aggregates_purges_publishes
  settings i w status_code rest raw_data converted :
  outcome i = Response status_code (Some (VList (VDict raw_data :: rest))) ->
  is_success status_code ->
  convert_reading raw_data = Ok converted ->
  constraints_hold (db w) ->
  let mac := awn_mac_address settings in
  let ts := now_store i in
  let stored := snd (store_daily_reading converted mac ts (db w)) in
  readings_in_range (yearly_rows mac ts stored) ->
  exists db2 db3,
    update_monthly_aggregates mac ts stored = Ok db2
    /\ update_yearly_aggregates mac ts db2 = Ok db3
    /\ (forall cutoff,
           cutoff_of (daily_retention_days settings) (now_purge i) = Ok cutoff ->
           exists deleted db4 b',
             purge_old_readings settings mac (now_purge i) db3
             = Ok (deleted, db4)
             /\ Broadcast.publish (broadcaster w) converted = Ok b'
             /\ tick settings i w
                = (Ok tt,
                   {| db := db4; broadcaster := b';
                      trace := trace w ++ purge_events deleted
                               ++ [Log DEBUG "Collected and stored reading at %s";
                                   Sleep (collection_interval_seconds settings)]
                   |}))
    /\ (cutoff_of (daily_retention_days settings) (now_purge i)
        = Raise OverflowError ->
        purge_old_readings settings mac (now_purge i) db3 = Raise OverflowError
        /\ tick settings i w
           = (Ok tt,
              {| db := db3; broadcaster := broadcaster w;
                 trace := trace w
                          ++ [Log ERROR "Unexpected error in collection loop";
                              Sleep (collection_interval_seconds settings)] |})).
Proof.
  intros Hout Hs Hconv [Hm Hy] mac ts stored Hrange.
  destruct (update_monthly_returns mac ts stored Hm
              (monthly_rows_in_range mac ts stored Hrange)) as [db2 H2].
  assert (daily_readings db2 = daily_readings stored
          /\ yearly_aggregates db2 = yearly_aggregates stored)
    as [Hdaily Hyearly].
  { destruct (update_monthly_inv _ _ _ _ H2)
      as [[_ E2]|(_ & Hdaily & Hyearly & _)]; [now rewrite E2 | now split]. }
  assert (yearly_rows mac ts db2 = yearly_rows mac ts stored) as Hrows.
  { unfold yearly_rows. now rewrite Hdaily. }
  destruct (AggregateProps.update_yearly_returns mac ts db2) as [db3 H3].
  { now rewrite Hyearly. }
  { now rewrite Hrows. }
  exists db2, db3. split; [assumption|]. split; [assumption|]. split.
  - intros cutoff Hc.
    pose proof (purge_of_cutoff settings mac (now_purge i) db3 cutoff Hc) as H4.
    rewrite BroadcastSpec.publish_total.
    eexists _, _, _. split; [exact H4|]. split; [reflexivity|].
    exact (tick_of_collect_ok_traced settings i w status_code rest raw_data
             converted db2 db3 _ _ Hout Hs Hconv H2 H3 H4).
  - intros Hc.
    pose proof (purge_of_overflow settings mac (now_purge i) db3 Hc) as H4.
    split; [exact H4|].
    exact (tick_of_purge_raise settings i w status_code rest raw_data
             converted db2 db3 Hout Hs Hconv H2 H3 H4).
Qed.

Lemma tick_stores_aggregates_purges_publishes_witness :
  exists w',
    tick configured fetches_sample start = (Ok tt, w')
    /\ map DailyReading.data (daily_readings (db w'))
       = [[("temp_c", VFloat 22.22); ("wind_speed_kmh", VFloat 8.05);
           ("humidity", VInt 40); ("batteryVoltage", VFloat 3.1)]].
Proof.
  destruct (tick_stores_aggregates_purges_publishes configured fetches_sample
              start 200 [] ConverterView.raw_sample
              [("temp_c", VFloat 22.22); ("wind_speed_kmh", VFloat 8.05);
               ("humidity", VInt 40); ("batteryVoltage", VFloat 3.1)])
    as (db2 & db3 & H2 & H3 & Hpurge & _).
  - reflexivity.
  - unfold is_success. lia.
  - vm_compute. reflexivity.
  - repeat split; constructor.
  - split; [vm_compute; reflexivity|].
    intros data k v Hd Hin. simpl in Hd. destruct Hd as [<-|[]].
    simpl in Hin.
    repeat (destruct Hin as [Hin|Hin];
            [inversion Hin; subst; simpl; try exact I; vm_compute; reflexivity|]).
    destruct Hin.
  - destruct (Hpurge (-604800000000) eq_refl)
      as (deleted & db4 & b' & H4 & Hb & Ht).
    eexists. split; [exact Ht|].
    vm_compute in H2. inversion H2; subst db2.
    vm_compute in H3. inversion H3; subst db3.
    vm_compute in H4. inversion H4; subst db4.
    vm_compute. reflexivity.
Defined.

(** X19. [purge_old_readings] computes the cutoff, the current time less
    the retention days.  When the retention is a number of days a
    [timedelta] holds (at most 999999999 either way) and the cutoff is an
    instant a [datetime] holds (years 1 to 9999), the purge returns and
    deletes the readings of the device whose timestamp is strictly before
    the cutoff and no other: the readings of other devices and the readings
    at or after the cutoff stay, the aggregate tables are not touched, the
    count returned is the number of readings deleted, and a second purge at
    the same time deletes nothing.  Otherwise it raises [OverflowError]
    and deletes nothing.  With the default retention of 7 days at any
    instant from 1970 to 9999 the cutoff is in range. *)
Theorem purge_deletes_only_expired settings mac_address now db :
  let retention := daily_retention_days settings in
  let cutoff := datetime.posix_us now - retention * microseconds_per_day in
  let in_reach :=
    Z.abs retention <= timedelta_max_days
    /\ datetime_min_us <= cutoff <= datetime_max_us in
  (in_reach ->
   exists deleted db',
     purge_old_readings settings mac_address now db = Ok (deleted, db')
     /\ (forall r,
            In r (daily_readings db')
            <-> In r (daily_readings db)
                /\ (DailyReading.mac_address r <> mac_address
                    \/ cutoff <= datetime.posix_us (DailyReading.timestamp r)))
     /\ deleted
        = py_len (filter (expired mac_address cutoff) (daily_readings db))
     /\ py_len (daily_readings db') + deleted = py_len (daily_readings db)
     /\ monthly_aggregates db' = monthly_aggregates db
     /\ yearly_aggregates db' = yearly_aggregates db
     /\ purge_old_readings settings mac_address now db' = Ok (0, db'))
  /\ (~ in_reach ->
      purge_old_readings settings mac_address now db = Raise OverflowError)
  /\ (retention = 7 -> 0 <= datetime.posix_us now <= datetime_max_us ->
      in_reach).
Proof.
  intros retention cutoff in_reach.
  pose proof (cutoff_of_cases retention now) as H. cbv zeta in H.
  fold cutoff in H. fold in_reach in H.
  destruct H as [(Hd & Hc & E)|[Hn E]].
  - split; [|split].
    + intros _.
      rewrite (purge_of_cutoff settings mac_address now db cutoff E).
      eexists _, _. split; [reflexivity|].
      cbn [daily_readings monthly_aggregates yearly_aggregates].
      pose proof (filter_length (expired mac_address cutoff) (daily_readings db))
        as Hlen.
      split.
      { intros r. rewrite filter_In, negb_true_iff. unfold expired.
        rewrite andb_false_iff, String.eqb_neq, Z.ltb_ge. reflexivity. }
      split; [unfold py_len; lia|]. split; [unfold py_len; lia|].
      split; [reflexivity|]. split; [reflexivity|].
      rewrite (purge_of_cutoff settings mac_address now _ cutoff E).
      cbn [daily_readings monthly_aggregates yearly_aggregates].
      rewrite filter_idempotent. do 2 f_equal. lia.
    + intros Hout. destruct Hout. now split.
    + intros _ _. now split.
  - split; [|split].
    + intros Hin. now destruct Hn.
    + intros _. now apply purge_of_overflow.
    + intros E7 Hnow. exfalso. apply Hn. unfold in_reach, cutoff.
      rewrite E7.
      unfold timedelta_max_days, datetime_min_us, datetime_max_us,
        microseconds_per_day in *. lia.
Qed.

Lemma purge_deletes_only_expired_witness :
  purge_old_readings configured "AA:BB" march two_readings
  = Ok (0, two_readings)
  /\ purge_old_readings
       {| awn_api_key := "api-key";
          awn_application_key := "app-key";
          awn_mac_address := "AA:BB";
          collection_interval_seconds := 60;
          daily_retention_days := 800000;
          database_url := "sqlite+aiosqlite:///./weather.db" |}
       "AA:BB" march two_readings
     = Raise OverflowError.
Proof.
  split.
  - destruct (purge_deletes_only_expired configured "AA:BB" march two_readings)
      as (H & _ & Hreach).
    destruct (H (Hreach eq_refl ltac:(vm_compute; split; discriminate)))
      as (deleted & db' & E & _).
    vm_compute in E. vm_compute. reflexivity.
  - apply (purge_deletes_only_expired
             {| awn_api_key := "api-key";
                awn_application_key := "app-key";
                awn_mac_address := "AA:BB";
                collection_interval_seconds := 60;
                daily_retention_days := 800000;
                database_url := "sqlite+aiosqlite:///./weather.db" |}
             "AA:BB" march two_readings).
    vm_compute. intros [_ [H _]]. now apply H.
Defined.

(** *** The readings along a run *)

Lemma store_keeps_readings_ok settings converted now db :
  readings_ok settings db ->
  readings_ok settings
    (snd (store_daily_reading converted (awn_mac_address settings) now db)).
Proof.
  intros [Hnd Hmac]. unfold readings_ok. cbn [store_daily_reading snd daily_readings].
  split.
  - rewrite map_app. cbn [map DailyReading.id].
    apply NoDup_snoc; [assumption | apply next_id_fresh].
  - apply Forall_app. split; [assumption|]. now constructor.
Qed.

Lemma purge_keeps_readings_ok settings mac_address now db deleted db' :
  readings_ok settings db ->
  purge_old_readings settings mac_address now db = Ok (deleted, db') ->
  readings_ok settings db'.
Proof.
  intros [Hnd Hmac] H.
  apply purge_old_readings_inv in H as (cutoff & _ & E & _).
  unfold readings_ok. rewrite E. clear E. split.
  - induction (daily_readings db) as [|r l IH]; simpl; [constructor|].
    inversion Hnd as [|? ? Hnot Hnd']; subst. inversion Hmac; subst.
    destruct (negb (expired mac_address _ r)); simpl; [|now apply IH].
    constructor; [|now apply IH].
    intros Hin. apply Hnot. apply in_map_iff in Hin as (r' & E & Hr').
    apply filter_In in Hr' as [Hr' _]. apply in_map_iff. now exists r'.
  - rewrite Forall_forall in *. intros r Hr. apply filter_In in Hr as [Hr _].
    now apply Hmac.
Qed.

Lemma tick_keeps_readings_ok settings i : keeps (readings_ok settings) (tick settings i).
Proof.
  unfold tick, collect, log, sleep.
  apply keeps_mbind; [|intros; apply keeps_emit].
  apply keeps_try_except.
  - apply keeps_mbind; [apply keeps_lift|]. intros raw.
    destruct raw; [apply keeps_emit|..];
      keeps_steps
        ltac:(intros ? Hd; now apply store_keeps_readings_ok)
        ltac:(intros ? ? Hd Hup; unfold readings_ok;
              destruct (update_monthly_inv _ _ _ _ Hup)
                as [[_ ->]|(_ & -> & _)]; exact Hd)
        ltac:(intros ? ? Hd Hup; unfold readings_ok;
              destruct (update_yearly_inv _ _ _ _ Hup)
                as [[_ ->]|(_ & -> & _)]; exact Hd)
        ltac:(intros ? ? ?; apply purge_keeps_readings_ok).
  - intros e. unfold on_exception, log, sleep.
    destruct e; try apply keeps_emit.
    destruct (status_code =? 429); [|apply keeps_emit].
    apply keeps_mbind; [apply keeps_emit | intros; apply keeps_emit].
Qed.

Lemma ticks_keep_readings_ok settings inputs :
  keeps (readings_ok settings) (ticks settings inputs).
Proof.
  induction inputs as [|i inputs IH]; cbn [ticks].
  - apply keeps_ret.
  - apply keeps_mbind; [apply tick_keeps_readings_ok | intros; apply IH].
Qed.

(** X20. Along any run of the collection loop from the empty tables the
    readings table keeps distinct primary keys, and every reading in it is a
    reading of the configured device. *)
Theorem readings_of_a_run_well_formed settings inputs b r w' :
  collection_loop settings inputs
    {| db := Database.empty; broadcaster := b; trace := [] |} = (r, w') ->
  readings_ok settings (db w').
Proof.
  intros H.
  assert (keeps (readings_ok settings) (collection_loop settings inputs)) as K.
  { unfold collection_loop, log. apply keeps_mbind; [apply keeps_emit|].
    intros _. apply ticks_keep_readings_ok. }
  apply (K _ _ _) with (2 := H). split; constructor.
Qed.

Lemma readings_of_a_run_well_formed_witness :
  readings_ok configured
    (db (snd (collection_loop configured [fetches_sample; fetches_sample]
                start))).
Proof.
  apply (readings_of_a_run_well_formed configured
           [fetches_sample; fetches_sample] Broadcast.init
           (fst (collection_loop configured [fetches_sample; fetches_sample]
                   start))).
  unfold start. now destruct (collection_loop _ _ _).
Defined.

End LoopProps.

(** ** The daily route *)

From Stdlib Require Import Permutation Sorted.

Module RoutesProps.
Import Py PyFacts Config Database Collector Routes.

Lemma firstn_sorted {A} (R : A -> A -> Prop) n l :
  StronglySorted R l -> StronglySorted R (firstn n l).
Proof.
  intros H. revert n. induction H as [|x l Hl IH Hx]; intros n.
  - destruct n; constructor.
  - destruct n; simpl; constructor; [apply IH|].
    rewrite Forall_forall in *. intros y Hy. apply Hx.
    rewrite <- (firstn_skipn n l). apply in_or_app. now left.
Qed.

Lemma skipn_sorted {A} (R : A -> A -> Prop) n l :
  StronglySorted R l -> StronglySorted R (skipn n l).
Proof.
  intros H. revert n. induction H as [|x l Hl IH Hx]; intros n.
  - destruct n; constructor.
  - destruct n; simpl; [now constructor | apply IH].
Qed.

Lemma page_In {A} n m (l : list A) x : In x (firstn n (skipn m l)) -> In x l.
Proof.
  intros H. rewrite <- (firstn_skipn m l). apply in_or_app. right.
  rewrite <- (firstn_skipn n (skipn m l)). apply in_or_app. now left.
Qed.

Lemma firstn_add {A} a b (l : list A) :
  firstn a l ++ firstn b (skipn a l) = firstn (a + b) l.
Proof.
  revert l. induction a as [|a IH]; intros l; [reflexivity|].
  destruct l as [|x l]; simpl; [now rewrite firstn_nil | now rewrite IH].
Qed.

Lemma page_NoDup {A B} (f : A -> B) n m (l : list A) :
  NoDup (map f l) -> NoDup (map f (firstn n (skipn m l))).
Proof.
  intros H.
  rewrite <- (firstn_skipn m l), map_app in H. apply NoDup_app_remove_l in H.
  rewrite <- (firstn_skipn n (skipn m l)), map_app in H.
  now apply NoDup_app_remove_r in H.
Qed.

Section Engine.
Variable order_by_timestamp_desc : list DailyReading.t -> list DailyReading.t.

(** The engine returns the selected rows, each once, newest first. *)
Hypothesis order_permutes :
  forall l, Permutation (order_by_timestamp_desc l) l.
Hypothesis order_sorts :
  forall l, StronglySorted newer_or_equal (order_by_timestamp_desc l).

(** X21. A page of [get_daily_readings], for a validated offset (at least
    0) and limit (at least 0): its items are readings of the table that
    match the device and the date range, newest first, none twice when the
    primary keys are distinct; their number is the limit, or what is left
    after the offset when that is less; the total counts every matching
    reading, whatever the page; and a page followed by the next one is the
    page of both limits. *)
Theorem daily_pages settings db mac_address start end_ limit offset :
  0 <= offset -> 0 <= limit ->
  let page := get_daily_readings order_by_timestamp_desc settings db
                mac_address start end_ in
  let mac := device settings mac_address in
  (forall r, In r (items (page limit offset)) ->
             In r (daily_readings db) /\ daily_where mac start end_ r = true)
  /\ StronglySorted newer_or_equal (items (page limit offset))
  /\ (NoDup (map DailyReading.id (daily_readings db)) ->
      NoDup (map DailyReading.id (items (page limit offset))))
  /\ py_len (items (page limit offset))
     = Z.min limit (Z.max 0 (total (page limit offset) - offset))
  /\ total (page limit offset)
     = py_len (filter (daily_where mac start end_) (daily_readings db))
  /\ (forall limit', 0 <= limit' ->
        items (page limit offset) ++ items (page limit' (offset + limit))
        = items (page (limit + limit') offset)).
Proof.
  intros Hoff Hlim page mac. unfold page, get_daily_readings. fold mac.
  cbn [items total].
  set (matching := filter (daily_where mac start end_) (daily_readings db)).
  split; [|split; [|split; [|split; [|split]]]].
  - intros r Hr. apply page_In in Hr.
    apply (Permutation_in _ (order_permutes matching)) in Hr.
    now apply filter_In in Hr.
  - apply firstn_sorted, skipn_sorted, order_sorts.
  - intros Hnd. apply page_NoDup.
    apply (Permutation_NoDup (Permutation_map _
             (Permutation_sym (order_permutes matching)))).
    unfold matching.
    induction (daily_readings db) as [|r l IH]; simpl; [constructor|].
    inversion Hnd as [|? ? Hnot Hnd']; subst.
    destruct (daily_where mac start end_ r); simpl; [|now apply IH].
    constructor; [|now apply IH].
    intros Hin. apply Hnot. apply in_map_iff in Hin as (r' & E & Hr').
    apply filter_In in Hr' as [Hr' _]. apply in_map_iff. now exists r'.
  - unfold py_len. rewrite length_firstn, length_skipn.
    rewrite (Permutation_length (order_permutes matching)). lia.
  - reflexivity.
  - intros limit' Hlim'.
    replace (Z.to_nat (offset + limit))
      with (Z.to_nat limit + Z.to_nat offset)%nat by lia.
    rewrite <- skipn_skipn.
    replace (Z.to_nat (limit + limit'))
      with (Z.to_nat limit + Z.to_nat limit')%nat by lia.
    apply firstn_add.
Qed.

(** X22. [get_latest_reading] raises nothing; it returns [None] exactly
    when the table has no reading of the device, and otherwise a reading of
    the device than which none of the device is newer.  The device is the
    query parameter, or the configured one when the parameter is missing or
    empty. *)
Theorem latest_reading_is_newest settings db mac_address :
  let mac := device settings mac_address in
  match get_latest_reading order_by_timestamp_desc settings db mac_address with
  | Ok None =>
      forall r, In r (daily_readings db) -> DailyReading.mac_address r <> mac
  | Ok (Some latest) =>
      In latest (daily_readings db)
      /\ DailyReading.mac_address latest = mac
      /\ forall r, In r (daily_readings db) ->
                   DailyReading.mac_address r = mac -> newer_or_equal latest r
  | Raise _ => False
  end.
Proof.
  intros mac. unfold get_latest_reading. fold mac.
  set (matching := filter (fun r => String.eqb (DailyReading.mac_address r) mac)
                          (daily_readings db)).
  pose proof (order_permutes matching) as Hp.
  pose proof (order_sorts matching) as Hs.
  destruct (order_by_timestamp_desc matching) as [|latest rest]; simpl.
  - apply Permutation_nil in Hp. intros r Hr Hmac.
    assert (In r matching) as Hin.
    { apply filter_In. split; [assumption | now apply String.eqb_eq]. }
    rewrite Hp in Hin. destruct Hin.
  - assert (In latest matching) as Hin.
    { apply (Permutation_in _ Hp). now left. }
    apply filter_In in Hin as [Hin Hmac]. apply String.eqb_eq in Hmac.
    repeat split; try assumption.
    intros r Hr Hr_mac.
    assert (In r (latest :: rest)) as Hr'.
    { apply (Permutation_in _ (Permutation_sym Hp)). apply filter_In.
      split; [assumption | now apply String.eqb_eq]. }
    destruct Hr' as [->|Hr']; [unfold newer_or_equal; lia|].
    inversion Hs as [|? ? _ Hall]; subst. rewrite Forall_forall in Hall.
    now apply Hall.
Qed.

End Engine.

(** The insertion sort is such an engine. *)
Lemma insert_desc_permutes r l : Permutation (insert_desc r l) (r :: l).
Proof.
  induction l as [|x l IH]; simpl; [reflexivity|].
  destruct (_ <? _); [reflexivity|].
  rewrite IH. apply perm_swap.
Qed.

Lemma insertion_sort_permutes l : Permutation (insertion_sort_desc l) l.
Proof.
  induction l as [|r l IH]; simpl; [constructor|].
  rewrite insert_desc_permutes. now constructor.
Qed.

Lemma insert_desc_sorts r l :
  StronglySorted newer_or_equal l ->
  StronglySorted newer_or_equal (insert_desc r l).
Proof.
  intros H. induction H as [|x l Hl IH Hx]; simpl.
  - constructor; constructor.
  - destruct (Z.ltb_spec (datetime.posix_us (DailyReading.timestamp x))
                         (datetime.posix_us (DailyReading.timestamp r))) as [Hlt|Hge].
    + constructor; [now constructor|]. constructor.
      * unfold newer_or_equal. lia.
      * eapply Forall_impl; [|exact Hx]. unfold newer_or_equal. intros y Hy. lia.
    + constructor; [assumption|].
      apply (Permutation_Forall (Permutation_sym (insert_desc_permutes r l))).
      constructor; [unfold newer_or_equal; lia | assumption].
Qed.

Lemma insertion_sort_sorts l :
  StronglySorted newer_or_equal (insertion_sort_desc l).
Proof.
  induction l as [|r l IH]; simpl; [constructor | now apply insert_desc_sorts].
Qed.

Lemma daily_pages_witness :
  items (get_daily_readings insertion_sort_desc CollectorView.configured
           three_times None None None 2 0)
  ++ items (get_daily_readings insertion_sort_desc
              CollectorView.configured three_times None None None 1 2)
  = items (get_daily_readings insertion_sort_desc
             CollectorView.configured three_times None None None 3 0).
Proof.
  refine (proj2 (proj2 (proj2 (proj2 (proj2
            (daily_pages insertion_sort_desc insertion_sort_permutes
               insertion_sort_sorts CollectorView.configured three_times
               None None None 2 0 _ _))))) 1 _); lia.
Defined.

Lemma latest_reading_is_newest_witness :
  get_latest_reading insertion_sort_desc CollectorView.configured three_times
    None = Ok (Some (at_time 2 30))
  /\ forall r, In r (daily_readings three_times) ->
               DailyReading.mac_address r = "AA:BB" ->
               newer_or_equal (at_time 2 30) r.
Proof.
  split; [reflexivity|].
  exact (proj2 (proj2 (latest_reading_is_newest insertion_sort_desc
                         insertion_sort_permutes insertion_sort_sorts
                         CollectorView.configured three_times None))).
Defined.

(** *** Grouping the rows of an answer *)

Section Grouping.
Context {K V Row : Type}.
Variable eqb : K -> K -> bool.
Hypothesis eqb_spec : forall a b, eqb a b = true <-> a = b.
Variable key : Row -> K.
Variable value : Row -> V.

Lemma group_append_keys k (v : V) g :
  map fst (group_append eqb k v g)
  = if existsb (eqb k) (map fst g) then map fst g else map fst g ++ [k].
Proof.
  induction g as [|[k0 vs0] g IH]; simpl; [reflexivity|].
  destruct (eqb k k0) eqn:E; simpl; [reflexivity|].
  rewrite IH. destruct (existsb (eqb k) (map fst g)); reflexivity.
Qed.

Lemma existsb_eqb_In k l : existsb (eqb k) l = true <-> In k l.
Proof.
  rewrite existsb_exists. split.
  - intros [x [Hx E]]. apply eqb_spec in E. now subst.
  - intros H. exists k. split; [assumption | now apply eqb_spec].
Qed.

Lemma group_append_In k (v : V) g k' vs' :
  NoDup (map fst g) ->
  In (k', vs') (group_append eqb k v g) ->
  (k' <> k /\ In (k', vs') g)
  \/ (k' = k /\ exists vs, In (k, vs) g /\ vs' = vs ++ [v])
  \/ (k' = k /\ ~ In k (map fst g) /\ vs' = [v]).
Proof.
  induction g as [|[k0 vs0] g IH]; simpl; intros Hnd Hin.
  - destruct Hin as [H|[]]. inversion H; subst. right; right; auto.
  - inversion Hnd as [|? ? Hk0 Hnd']; subst.
    destruct (eqb k k0) eqn:E.
    + apply eqb_spec in E; subst k0.
      destruct Hin as [H|H].
      * inversion H; subst. right; left. split; [reflexivity|].
        exists vs0. auto.
      * left. split; [|auto]. intros ->. apply Hk0.
        apply (in_map fst) in H. exact H.
    + assert (k <> k0) as Hne.
      { intros ->. assert (eqb k0 k0 = true) by now apply eqb_spec.
        congruence. }
      destruct Hin as [H|H].
      * inversion H; subst. left. split; auto.
      * destruct (IH Hnd' H) as [[? ?]|[[? [vs [? ?]]]|[? [? ?]]]].
        -- left; auto.
        -- right; left; split; auto. exists vs; auto.
        -- right; right; split; auto. split; auto.
           intros [?|?]; [congruence | auto].
Qed.

Lemma filter_none {A} (f : A -> bool) l :
  (forall x, In x l -> f x = false) -> filter f l = [].
Proof.
  induction l as [|x l IH]; simpl; intros H; [reflexivity|].
  rewrite (H x (or_introl eq_refl)). apply IH. intros y Hy. apply H. now right.
Qed.

Lemma group_append_inv done g r :
  group_inv eqb key value done g ->
  group_inv eqb key value (done ++ [r])
            (group_append eqb (key r) (value r) g).
Proof.
  intros (Hnd & Hvs & Hkeys). repeat split.
  - rewrite group_append_keys.
    destruct (existsb (eqb (key r)) (map fst g)) eqn:E; [assumption|].
    apply NoDup_app; [assumption | repeat constructor; intros [] |].
    intros a Ha [<-|[]]. apply existsb_eqb_In in Ha. congruence.
  - apply group_append_In in H; [|assumption].
    rewrite filter_app, map_app. simpl.
    destruct H as [[Hne Hin]|[[-> [vs0 [Hin ->]]]|[-> [Hnew ->]]]].
    + destruct (eqb (key r) k) eqn:E.
      * apply eqb_spec in E. congruence.
      * simpl. rewrite app_nil_r. now apply Hvs.
    + assert (eqb (key r) (key r) = true) as -> by now apply eqb_spec.
      simpl. f_equal. now apply Hvs.
    + assert (eqb (key r) (key r) = true) as -> by now apply eqb_spec.
      rewrite filter_none; [reflexivity|].
      intros x Hx. destruct (eqb (key x) (key r)) eqn:E; [|reflexivity].
      apply eqb_spec in E. exfalso. apply Hnew. rewrite <- E. now apply Hkeys.
  - apply group_append_In in H; [|assumption].
    destruct H as [[Hne Hin]|[[-> [vs0 [Hin ->]]]|[-> [Hnew ->]]]].
    + now apply Hvs in Hin.
    + intros E. now apply app_eq_nil in E as [_ E].
    + discriminate.
  - intros x Hx. rewrite group_append_keys.
    apply in_app_or in Hx as [Hx|[<-|[]]].
    + apply Hkeys in Hx.
      destruct (existsb _ _); [assumption | apply in_or_app; now left].
    + destruct (existsb (eqb (key r)) (map fst g)) eqn:E.
      * now apply existsb_eqb_In.
      * apply in_or_app. right. now left.
Qed.

Lemma group_fold_inv rows : forall done g,
  group_inv eqb key value done g ->
  group_inv eqb key value (done ++ rows)
    (fold_left (fun grouped row =>
                  group_append eqb (key row) (value row) grouped) rows g).
Proof.
  induction rows as [|r rows IH]; intros done g H; simpl.
  - now rewrite app_nil_r.
  - replace (done ++ r :: rows) with ((done ++ [r]) ++ rows)
      by (rewrite <- app_assoc; reflexivity).
    apply IH. now apply group_append_inv.
Qed.

Lemma group_rows_inv rows :
  group_inv eqb key value rows (group_rows eqb key value rows).
Proof.
  apply (group_fold_inv rows [] []).
  repeat split; simpl; try constructor; intros; contradiction.
Qed.

(** Rows that come in the order of their keys give groups in the strict
    order of their keys. *)
Variable le : K -> K -> Prop.

Lemma sorted_snoc {A} (R : A -> A -> Prop) l a :
  StronglySorted R l -> Forall (fun x => R x a) l ->
  StronglySorted R (l ++ [a]).
Proof.
  intros H. induction H as [|x l Hl IH Hx]; simpl; intros Ha.
  - repeat constructor.
  - inversion Ha; subst. constructor; [now apply IH|].
    apply Forall_app. split; [assumption | now constructor].
Qed.

Lemma group_fold_sorted rows : forall g,
  StronglySorted (fun a b => le (key a) (key b)) rows ->
  Forall (fun k => Forall (fun r => le k (key r)) rows) (map fst g) ->
  StronglySorted (fun a b => le a b /\ a <> b) (map fst g) ->
  StronglySorted (fun a b => le a b /\ a <> b)
    (map fst (fold_left (fun grouped row =>
                           group_append eqb (key row) (value row) grouped)
                        rows g)).
Proof.
  induction rows as [|r rows IH]; intros g Hs Hle Hg; simpl; [assumption|].
  inversion Hs as [|? ? Hs' Hr]; subst.
  apply IH; [assumption| |]; rewrite group_append_keys;
    destruct (existsb (eqb (key r)) (map fst g)) eqn:E.
  - eapply Forall_impl; [|exact Hle]. intros k Hk. now inversion Hk.
  - apply Forall_app. split.
    + eapply Forall_impl; [|exact Hle]. intros k Hk. now inversion Hk.
    + constructor; [assumption | constructor].
  - assumption.
  - apply sorted_snoc; [assumption|].
    rewrite Forall_forall in Hle |- *. intros k Hk. split.
    + specialize (Hle k Hk). now inversion Hle.
    + intros ->. apply existsb_eqb_In in Hk. congruence.
Qed.

Lemma group_rows_sorted rows :
  StronglySorted (fun a b => le (key a) (key b)) rows ->
  StronglySorted (fun a b => le a b /\ a <> b)
                 (map fst (group_rows eqb key value rows)).
Proof.
  intros H. apply (group_fold_sorted rows []); [assumption | |]; constructor.
Qed.

(** Rows of one key make one group, in their order. *)
Lemma group_fold_one_key k rows : forall vs,
  (forall r, In r rows -> key r = k) ->
  fold_left (fun grouped row =>
               group_append eqb (key row) (value row) grouped) rows [(k, vs)]
  = [(k, vs ++ map value rows)].
Proof.
  induction rows as [|r rows IH]; intros vs Hk; simpl.
  - now rewrite app_nil_r.
  - rewrite (Hk r (or_introl eq_refl)).
    assert (eqb k k = true) as -> by now apply eqb_spec.
    rewrite IH by (intros x Hx; apply Hk; now right).
    now rewrite <- app_assoc.
Qed.

Lemma group_rows_one_key k rows :
  (forall r, In r rows -> key r = k) ->
  group_rows eqb key value rows
  = match rows with
    | [] => []
    | _ :: _ => [(k, map value rows)]
    end.
Proof.
  destruct rows as [|r rows]; intros Hk; [reflexivity|].
  unfold group_rows. simpl. rewrite (Hk r (or_introl eq_refl)).
  apply group_fold_one_key. intros x Hx. apply Hk. now right.
Qed.

End Grouping.

Lemma NoDup_map_through {A B C} (f : A -> B) (g : A -> C) l :
  (forall x y, In x l -> In y l -> g x = g y -> f x = f y) ->
  NoDup (map f l) -> NoDup (map g l).
Proof.
  induction l as [|a l IH]; simpl; intros Hfg Hnd; [constructor|].
  inversion Hnd as [|? ? Ha Hnd']; subst. constructor.
  - intros Hin. apply in_map_iff in Hin as [y [Hy Hin]].
    apply Ha. apply in_map_iff. exists y. split; [|assumption].
    apply Hfg; auto.
  - apply IH; [|assumption]. intros x y Hx Hy. apply Hfg; auto.
Qed.

Lemma NoDup_filter_map {A B} (f : A -> bool) (g : A -> B) l :
  NoDup (map g l) -> NoDup (map g (filter f l)).
Proof.
  induction l as [|a l IH]; simpl; intros H; [constructor|].
  inversion H as [|? ? Ha H']; subst.
  destruct (f a); simpl; [constructor|]; auto.
  intros Hin. apply Ha. apply in_map_iff in Hin as [y [Ey Hy]].
  apply filter_In in Hy as [Hy _]. apply in_map_iff. now exists y.
Qed.

Lemma Permutation_NoDup_map {A B} (g : A -> B) l' l :
  Permutation l' l -> NoDup (map g l) -> NoDup (map g l').
Proof.
  intros Hp. apply Permutation_NoDup, Permutation_map.
  now apply Permutation_sym.
Qed.

Lemma sorted_map_through {A B} (R : A -> A -> Prop) (S : B -> B -> Prop)
  (f : A -> B) l :
  (forall x y, In x l -> In y l -> R x y -> S (f x) (f y)) ->
  StronglySorted R l -> StronglySorted S (map f l).
Proof.
  intros HRS H. induction H as [|a l Hl IH Ha]; simpl; constructor.
  - apply IH. intros x y Hx Hy. apply HRS; now right.
  - rewrite Forall_forall in Ha |- *. intros b Hb.
    apply in_map_iff in Hb as [y [<- Hy]].
    apply HRS; [now left | now right | now apply Ha].
Qed.

Lemma period_eqb_spec p q : period_eqb p q = true <-> p = q.
Proof.
  destruct p as [y m], q as [y' m']. unfold period_eqb. simpl.
  rewrite andb_true_iff, !Z.eqb_eq.
  split; [intros [-> ->]; reflexivity | intros H; inversion H; auto].
Qed.

Lemma monthly_where_spec mac year month a :
  monthly_where mac year month a = true
  <-> MonthlyAggregate.mac_address a = mac
      /\ MonthlyAggregate.year a = year
      /\ (forall m, month = Some m -> MonthlyAggregate.month a = m).
Proof.
  unfold monthly_where. rewrite !andb_true_iff, String.eqb_eq, Z.eqb_eq.
  destruct month as [m|].
  - rewrite Z.eqb_eq. split.
    + intros [[? ?] ?]. repeat split; auto. congruence.
    + intros (? & ? & H). repeat split; auto.
  - split.
    + intros [[? ?] _]. repeat split; auto. discriminate.
    + intros (? & ? & _). repeat split; auto.
Qed.

Lemma yearly_where_spec mac year a :
  yearly_where mac year a = true
  <-> YearlyAggregate.mac_address a = mac /\ YearlyAggregate.year a = year.
Proof.
  unfold yearly_where. now rewrite andb_true_iff, String.eqb_eq, Z.eqb_eq.
Qed.

Section AggregateEngine.
Variable order_by_year_month : list MonthlyAggregate.t -> list MonthlyAggregate.t.
Variable order_by_year : list YearlyAggregate.t -> list YearlyAggregate.t.

(** The engine returns the selected rows, in the order asked for. *)
Hypothesis monthly_order_permutes :
  forall l, Permutation (order_by_year_month l) l.
Hypothesis monthly_order_sorts :
  forall l, StronglySorted period_le (order_by_year_month l).
Hypothesis yearly_order_permutes :
  forall l, Permutation (order_by_year l) l.

Lemma monthly_rows_selected mac year month aggs row :
  In row (order_by_year_month (filter (monthly_where mac year month) aggs)) ->
  In row aggs
  /\ MonthlyAggregate.mac_address row = mac
  /\ MonthlyAggregate.year row = year
  /\ (forall m, month = Some m -> MonthlyAggregate.month row = m).
Proof.
  intros H. apply (Permutation_in _ (monthly_order_permutes _)) in H.
  apply filter_In in H as [Hin H]. apply monthly_where_spec in H. tauto.
Qed.

Lemma yearly_rows_selected mac year aggs row :
  In row (order_by_year (filter (yearly_where mac year) aggs)) ->
  In row aggs
  /\ YearlyAggregate.mac_address row = mac
  /\ YearlyAggregate.year row = year.
Proof.
  intros H. apply (Permutation_in _ (yearly_order_permutes _)) in H.
  apply filter_In in H as [Hin H]. apply yearly_where_spec in H. tauto.
Qed.

(** The entries of the monthly answer, read off the groups. *)
Lemma monthly_answer_entries settings db current_year mac_address year month e :
  let mac := device settings mac_address in
  let selected := selected_year year current_year in
  let rows :=
    order_by_year_month
      (filter (monthly_where mac selected month) (monthly_aggregates db)) in
  In e (get_monthly_aggregates order_by_year_month settings db current_year
          mac_address year month) ->
  monthly_mac_address e = mac
  /\ monthly_year e = selected
  /\ (forall m, month = Some m -> monthly_month e = m)
  /\ monthly_metrics e
     = map monthly_metric
         (filter (fun row => MonthlyAggregate.month row =? monthly_month e)
                 rows)
  /\ monthly_metrics e <> [].
Proof.
  intros mac selected rows Hin. unfold get_monthly_aggregates in Hin.
  fold mac selected rows in Hin.
  apply in_map_iff in Hin as [[[y m] vs] [<- Hin]]. simpl.
  destruct (group_rows_inv period_eqb period_eqb_spec
              (fun row => (MonthlyAggregate.year row,
                           MonthlyAggregate.month row))
              monthly_metric rows) as (_ & Hvs & _).
  destruct (Hvs _ _ Hin) as [Evs Hne].
  assert (exists row, In row rows /\ MonthlyAggregate.year row = y
                      /\ MonthlyAggregate.month row = m) as [row [Hrow [Hy Hm]]].
  { destruct (filter (fun r => period_eqb (MonthlyAggregate.year r,
                                           MonthlyAggregate.month r) (y, m))
                     rows) as [|row l] eqn:F.
    - subst vs. now contradiction Hne.
    - assert (In row (row :: l)) as H by now left.
      rewrite <- F in H. apply filter_In in H as [H E].
      apply period_eqb_spec in E. inversion E. now exists row. }
  destruct (monthly_rows_selected _ _ _ _ _ Hrow) as (_ & _ & Hsel & Hmonth).
  repeat split.
  - congruence.
  - intros m' E. rewrite <- Hm. now apply Hmonth.
  - rewrite Evs. f_equal. apply filter_ext_in. intros r Hr.
    destruct (monthly_rows_selected _ _ _ _ _ Hr) as (_ & _ & Hsel' & _).
    unfold period_eqb. simpl.
    replace (MonthlyAggregate.year r =? y) with true
      by (symmetry; apply Z.eqb_eq; congruence).
    reflexivity.
  - assumption.
Qed.

Lemma monthly_answer_periods settings db current_year mac_address year month :
  map period_of
      (get_monthly_aggregates order_by_year_month settings db current_year
         mac_address year month)
  = map fst
      (group_rows period_eqb
         (fun row => (MonthlyAggregate.year row, MonthlyAggregate.month row))
         monthly_metric
         (order_by_year_month
            (filter (monthly_where (device settings mac_address)
                       (selected_year year current_year) month)
                    (monthly_aggregates db)))).
Proof.
  unfold get_monthly_aggregates. rewrite map_map. apply map_ext.
  intros [[y m] vs]. reflexivity.
Qed.

(** X23.  The monthly answer groups the selected rows by month: every entry
    is of the device and the year asked for (and of the month, when one is
    asked for), holds the metrics of exactly the selected rows of its month,
    in the order of the rows, and at least one; no two entries are of the
    same month, and every selected row's month has its entry. *)
Theorem monthly_answer_groups_by_month settings db current_year mac_address
  year month :
  let mac := device settings mac_address in
  let selected := selected_year year current_year in
  let rows :=
    order_by_year_month
      (filter (monthly_where mac selected month) (monthly_aggregates db)) in
  let answer :=
    get_monthly_aggregates order_by_year_month settings db current_year
      mac_address year month in
  (forall e, In e answer ->
     monthly_mac_address e = mac
     /\ monthly_year e = selected
     /\ (forall m, month = Some m -> monthly_month e = m)
     /\ monthly_metrics e
        = map monthly_metric
            (filter (fun row => MonthlyAggregate.month row =? monthly_month e)
                    rows)
     /\ monthly_metrics e <> [])
  /\ NoDup (map monthly_month answer)
  /\ (forall row, In row rows ->
        In (MonthlyAggregate.month row) (map monthly_month answer)).
Proof.
  intros mac selected rows answer. split; [|split].
  - intros e He. now apply monthly_answer_entries.
  - apply (NoDup_map_through period_of).
    + intros x y Hx Hy E. unfold period_of. rewrite E. f_equal.
      apply monthly_answer_entries in Hx as (_ & Hx & _).
      apply monthly_answer_entries in Hy as (_ & Hy & _). congruence.
    + unfold answer. rewrite monthly_answer_periods.
      apply (group_rows_inv period_eqb period_eqb_spec).
  - intros row Hrow.
    destruct (group_rows_inv period_eqb period_eqb_spec
                (fun row => (MonthlyAggregate.year row,
                             MonthlyAggregate.month row))
                monthly_metric rows) as (_ & _ & Hkeys).
    apply Hkeys in Hrow. fold mac selected rows in Hrow.
    pose proof (monthly_answer_periods settings db current_year mac_address
                  year month) as E.
    fold mac selected rows answer in E. rewrite <- E in Hrow.
    apply in_map_iff in Hrow as [e [Ee He]].
    apply in_map_iff. exists e. split; [|assumption].
    unfold period_of in Ee. now inversion Ee.
Qed.

(** X24.  The entries of the monthly answer come in the order of their
    months, each month later than the one before. *)
Theorem monthly_answer_months_increase settings db current_year mac_address
  year month :
  StronglySorted Z.lt
    (map monthly_month
       (get_monthly_aggregates order_by_year_month settings db current_year
          mac_address year month)).
Proof.
  set (answer := get_monthly_aggregates _ _ _ _ _ _ _).
  assert (StronglySorted
            (fun p q => (fst p < fst q \/ (fst p = fst q /\ snd p <= snd q))
                        /\ p <> q)
            (map period_of answer)) as H.
  { unfold answer. rewrite monthly_answer_periods.
    apply (group_rows_sorted period_eqb period_eqb_spec).
    apply monthly_order_sorts. }
  rewrite <- (map_map period_of snd).
  assert (forall p q, In p (map period_of answer) ->
                      In q (map period_of answer) -> fst p = fst q) as Hy.
  { intros p q Hp Hq.
    apply in_map_iff in Hp as [e [<- He]]. apply in_map_iff in Hq as [e' [<- He']].
    apply monthly_answer_entries in He as (_ & He & _).
    apply monthly_answer_entries in He' as (_ & He' & _).
    simpl. congruence. }
  revert H. apply sorted_map_through.
  intros [y m] [y' m'] Hp Hq [Hle Hne]. specialize (Hy _ _ Hp Hq).
  simpl in *. subst y'.
  assert (m <> m') by congruence. lia.
Qed.

(** X25.  The yearly answer is empty when no row of the device and the year
    is there, and otherwise one entry, of that device and year, with the
    metrics of all the selected rows in their order. *)
Theorem yearly_answer_one_entry settings db current_year mac_address year :
  let mac := device settings mac_address in
  let selected := selected_year year current_year in
  let rows :=
    order_by_year
      (filter (yearly_where mac selected) (yearly_aggregates db)) in
  get_yearly_aggregates order_by_year settings db current_year mac_address
    year
  = match rows with
    | [] => []
    | _ :: _ => [{| yearly_mac_address := mac;
                    yearly_year := selected;
                    yearly_metrics := map yearly_metric rows |}]
    end.
Proof.
  intros mac selected rows. unfold get_yearly_aggregates.
  fold mac selected rows.
  rewrite (group_rows_one_key Z.eqb Z.eqb_eq YearlyAggregate.year
             yearly_metric selected rows).
  - destruct rows; reflexivity.
  - intros r Hr. now apply yearly_rows_selected in Hr.
Qed.

(** X26.  While the uniqueness constraints of the aggregate tables hold, no
    entry of the monthly or of the yearly answer names a metric twice. *)
Theorem answers_name_each_metric_once settings db current_year mac_address
  year month :
  constraints_hold db ->
  (forall e,
      In e (get_monthly_aggregates order_by_year_month settings db
              current_year mac_address year month) ->
      NoDup (map metric_name (monthly_metrics e)))
  /\ (forall e,
         In e (get_yearly_aggregates order_by_year settings db current_year
                 mac_address year) ->
         NoDup (map metric_name (yearly_metrics e))).
Proof.
  intros [[_ Hm] [_ Hy]]. split.
  - intros e He.
    apply monthly_answer_entries in He as (_ & _ & _ & -> & _).
    rewrite map_map. simpl.
    apply (NoDup_map_through monthly_key).
    + intros x y Hx Hy' E.
      apply filter_In in Hx as [Hx Ex]. apply filter_In in Hy' as [Hy' Ey].
      apply Z.eqb_eq in Ex, Ey.
      apply monthly_rows_selected in Hx as (_ & Hx1 & Hx2 & _).
      apply monthly_rows_selected in Hy' as (_ & Hy1 & Hy2 & _).
      unfold monthly_key. congruence.
    + apply NoDup_filter_map.
      apply (Permutation_NoDup_map monthly_key _ _ (monthly_order_permutes _)).
      now apply NoDup_filter_map.
  - intros e He. unfold get_yearly_aggregates in He.
    apply in_map_iff in He as [[y vs] [<- He]]. cbn [yearly_metrics].
    destruct (group_rows_inv Z.eqb Z.eqb_eq YearlyAggregate.year
                yearly_metric
                (order_by_year
                   (filter (yearly_where (device settings mac_address)
                              (selected_year year current_year))
                           (yearly_aggregates db)))) as (_ & Hvs & _).
    destruct (Hvs _ _ He) as [-> _]. rewrite map_map.
    apply (NoDup_map_through yearly_key).
    + intros a b Ha Hb E.
      apply filter_In in Ha as [Ha _]. apply filter_In in Hb as [Hb _].
      apply yearly_rows_selected in Ha as (_ & Ha1 & Ha2).
      apply yearly_rows_selected in Hb as (_ & Hb1 & Hb2).
      unfold yearly_key. cbn in E. congruence.
    + apply NoDup_filter_map.
      apply (Permutation_NoDup_map yearly_key _ _ (yearly_order_permutes _)).
      now apply NoDup_filter_map.
Qed.

End AggregateEngine.

(** The insertion sorts are such engines. *)
Lemma insert_by_permutes {A} (leb : A -> A -> bool) r l :
  Permutation (insert_by leb r l) (r :: l).
Proof.
  induction l as [|x l IH]; simpl; [reflexivity|].
  destruct (leb r x); [reflexivity|].
  rewrite IH. apply perm_swap.
Qed.

Lemma sort_by_permutes {A} (leb : A -> A -> bool) l :
  Permutation (sort_by leb l) l.
Proof.
  induction l as [|r l IH]; simpl; [constructor|].
  rewrite insert_by_permutes. now constructor.
Qed.

Lemma insert_by_sorts {A} (leb : A -> A -> bool) (R : A -> A -> Prop) :
  (forall a b, leb a b = true -> R a b) ->
  (forall a b, leb a b = false -> R b a) ->
  (forall a b c, R a b -> R b c -> R a c) ->
  forall r l, StronglySorted R l -> StronglySorted R (insert_by leb r l).
Proof.
  intros Ht Hf Htrans r l H. induction H as [|x l Hl IH Hx]; simpl.
  - constructor; constructor.
  - destruct (leb r x) eqn:E.
    + constructor; [now constructor|]. constructor; [now apply Ht|].
      eapply Forall_impl; [|exact Hx]. intros y Hy.
      apply (Htrans _ x); [now apply Ht | assumption].
    + constructor; [assumption|].
      apply (Permutation_Forall (Permutation_sym (insert_by_permutes leb r l))).
      constructor; [now apply Hf | assumption].
Qed.

Lemma sort_by_period_sorts l :
  StronglySorted period_le (sort_by period_leb l).
Proof.
  induction l as [|r l IH]; simpl; [constructor|].
  apply (insert_by_sorts period_leb period_le); try assumption;
    unfold period_leb, period_le.
  - intros a b H. apply orb_true_iff in H as [H|H]; [left; lia|].
    apply andb_true_iff in H as [H1 H2]. right. lia.
  - intros a b H. apply orb_false_iff in H as [H1 H2].
    apply andb_false_iff in H2. lia.
  - intros a b c. lia.
Qed.

Lemma aggregated_constraints : constraints_hold aggregated.
Proof.
  repeat split; repeat constructor; simpl; intuition discriminate.
Qed.

Lemma monthly_answer_groups_by_month_witness :
  let answer :=
    get_monthly_aggregates (sort_by period_leb) CollectorView.configured
      aggregated 2026 None None None in
  map period_of answer = [(2026, 2); (2026, 3)]
  /\ (forall e, In e answer ->
        monthly_mac_address e = "AA:BB"
        /\ monthly_year e = 2026
        /\ (forall m, None = Some m -> monthly_month e = m)
        /\ monthly_metrics e
           = map monthly_metric
               (filter (fun row => MonthlyAggregate.month row =? monthly_month e)
                       [CollectorView.february_row; CollectorView.march_row;
                        march_humidity_row])
        /\ monthly_metrics e <> [])
  /\ NoDup (map monthly_month answer)
  /\ (forall row,
         In row [CollectorView.february_row; CollectorView.march_row;
                 march_humidity_row] ->
         In (MonthlyAggregate.month row) (map monthly_month answer)).
Proof.
  split; [reflexivity|].
  exact (monthly_answer_groups_by_month (sort_by period_leb)
           (sort_by_permutes period_leb) CollectorView.configured aggregated
           2026 None None None).
Defined.

Lemma monthly_answer_months_increase_witness :
  map monthly_month
      (get_monthly_aggregates (sort_by period_leb) CollectorView.configured
         aggregated 2026 None None None) = [2; 3]
  /\ StronglySorted Z.lt
       (map monthly_month
          (get_monthly_aggregates (sort_by period_leb)
             CollectorView.configured aggregated 2026 None None None)).
Proof.
  split; [reflexivity|].
  exact (monthly_answer_months_increase (sort_by period_leb)
           (sort_by_permutes period_leb) sort_by_period_sorts
           CollectorView.configured aggregated 2026 None None None).
Defined.

Lemma yearly_answer_one_entry_witness :
  get_yearly_aggregates (sort_by year_leb) CollectorView.configured
    aggregated 2026 None None
  = [{| yearly_mac_address := "AA:BB";
        yearly_year := 2026;
        yearly_metrics :=
          map yearly_metric
              [CollectorView.temp_c_year_row; humidity_year_row] |}].
Proof.
  exact (yearly_answer_one_entry (sort_by year_leb)
           (sort_by_permutes year_leb) CollectorView.configured aggregated
           2026 None None).
Defined.

Lemma answers_name_each_metric_once_witness :
  constraints_hold aggregated
  /\ (forall e,
         In e (get_monthly_aggregates (sort_by period_leb)
                 CollectorView.configured aggregated 2026 None None None) ->
         NoDup (map metric_name (monthly_metrics e)))
  /\ (forall e,
         In e (get_yearly_aggregates (sort_by year_leb)
                 CollectorView.configured aggregated 2026 None None) ->
         NoDup (map metric_name (yearly_metrics e))).
Proof.
  split; [exact aggregated_constraints|].
  exact (answers_name_each_metric_once (sort_by period_leb) (sort_by year_leb)
           (sort_by_permutes period_leb) (sort_by_permutes year_leb)
           CollectorView.configured aggregated 2026 None None None
           aggregated_constraints).
Defined.

End RoutesProps.
